(** * Reference softmax kernels (src/cpu/ref_softmax.cpp)

    A shallow embedding of the forward and backward reference softmax
    kernels, dense and generic, together with the five reduction
    primitives they are built from.

    - The element type [data_t] (single-precision [float] in the only
      instantiation of the templates) is kept abstract: a class
      [DataOps] lists the operations the kernels apply to it.  Two
      instances are given: exact arithmetic over [R], in which the
      algebraic properties of softmax are proved, and IEEE-754 binary32
      (Stdlib's [SpecFloat] at precision 24), on which the kernels are
      evaluated bit for bit.
    - Buffers live in a store of named blocks; every array read and
      write is bounds-checked, and an access outside its block makes the
      whole run fail ([None]).
    - Sizes and indices ([int], [size_t]) are natural numbers: they are
      non-negative in the source and assumed not to overflow. *)

From Stdlib Require Import List Arith PeanoNat Lia Bool ZArith.
From Stdlib Require Import Reals Lra.
From Stdlib Require Import QArith Qabs.
From Stdlib Require Import SpecFloat.
From Stdlib Require Import Permutation Classical_Prop.
Import ListNotations.

Close Scope Q_scope.
Close Scope R_scope.

Set Implicit Arguments.

(** ** The element type *)

(** The operations of [data_t] the kernels use: the literals [0], [1]
    and [-FLT_MAX], the four arithmetic operations, the comparison [<],
    the absolute value (used by the BLAS routines) and the exponential
    ([expf] / [exp] / [vsExp]). *)
Class DataOps (data_t : Type) : Type := {
  d_zero : data_t;
  d_one : data_t;
  d_neg_flt_max : data_t;
  d_add : data_t -> data_t -> data_t;
  d_sub : data_t -> data_t -> data_t;
  d_mul : data_t -> data_t -> data_t;
  d_div : data_t -> data_t -> data_t;
  d_ltb : data_t -> data_t -> bool;
  d_abs : data_t -> data_t;
  d_exp : data_t -> data_t
}.

(** Compile-time switches of the translation unit, and the one
    arithmetic choice the source leaves to the build: the order in which
    the reduction of [_sum] adds up its terms.  The loop of [_sum]
    carries [PRAGMA_OMP_SIMD(reduction(+ : tsum))], which lets the
    compiler keep private partial sums and combine them in an order of
    its own, and [cblas_sasum] is an external routine.
    [REDUCTION_ORDER n k] names, for a reduction of [n] terms, the
    positions of the two partial sums that step [k] adds (see
    [reduce_terms]). *)
Record build_flags : Type := {
  USE_CBLAS : bool;
  USE_MKL : bool;
  REDUCTION_ORDER : nat -> nat -> nat * nat
}.

(** The order of a build that does not reorder the reduction: the terms
    are added one after another, as the loop is written. *)
Definition in_order : nat -> nat -> nat * nat := fun _ _ => (0, 0).

(** The fields of the primitive object the kernels read. *)
Record softmax_t : Type := {
  outer_size_ : nat;
  channels_ : nat;
  inner_size_ : nat
}.

(** A memory descriptor, reduced to the one method the kernels call:
    the map from a logical index to a physical offset. *)
Record memory_desc_wrapper : Type := {
  off_l : nat -> nat
}.

(** ** Store, pointers and the kernel monad *)

(** The blocks of memory a kernel invocation touches.  [Stack] holds the
    two local scalars [space_max_val] and [space_denom_val] of the
    generic forward kernel, which are accessed through pointers. *)
Inductive block : Type :=
| Src | Dst | Scratch | Stack | Data | DiffDst | DiffSrc.

Definition block_eq_dec : forall a b : block, {a = b} + {a <> b}.
Proof. decide equality. Defined.

Record ptr : Type := mkptr { p_blk : block; p_off : nat }.

Definition ptr_add (p : ptr) (k : nat) : ptr :=
  mkptr (p_blk p) (p_off p + k).

(** [upd l k v]: the list [l] with position [k] overwritten by [v]
    (unchanged when [k] is out of range; [store] checks the range). *)
Fixpoint upd {A : Type} (l : list A) (k : nat) (v : A) : list A :=
  match l, k with
  | [], _ => []
  | _ :: r, 0 => v :: r
  | a :: r, S k' => a :: upd r k' v
  end.

(** [drop_nth k l]: the list [l] without its element at position
    [k]. *)
Fixpoint drop_nth {A : Type} (k : nat) (l : list A) : list A :=
  match l, k with
  | [], _ => []
  | _ :: r, 0 => r
  | a :: r, S k' => a :: drop_nth k' r
  end.

Section Kernels.

Context {data_t : Type} {ops : DataOps data_t}.

Definition mem : Type := block -> list data_t.

Definition set_block (m : mem) (b : block) (l : list data_t) : mem :=
  fun b' => if block_eq_dec b' b then l else m b'.

(** A computation reads and writes the store and may fail. *)
Definition M (A : Type) : Type := mem -> option (A * mem).

Definition ret {A : Type} (a : A) : M A := fun m => Some (a, m).

Definition bind {A B : Type} (c : M A) (k : A -> M B) : M B :=
  fun m => match c m with
           | Some (a, m') => k a m'
           | None => None
           end.

Notation "x <- c ;; k" := (bind c (fun x => k))
  (at level 61, c at next level, right associativity).
Notation "c ;; k" := (bind c (fun _ => k))
  (at level 61, right associativity).

(** [p[i]] as an rvalue. *)
Definition load (p : ptr) (i : nat) : M data_t :=
  fun m => match nth_error (m (p_blk p)) (p_off p + i) with
           | Some v => Some (v, m)
           | None => None
           end.

(** [p[i] = v]. *)
Definition store (p : ptr) (i : nat) (v : data_t) : M unit :=
  fun m => let k := p_off p + i in
           if k <? length (m (p_blk p))
           then Some (tt, set_block m (p_blk p) (upd (m (p_blk p)) k v))
           else None.

(** The [n] elements [p[0..n)], as a library routine reads them. *)
Definition load_slice (p : ptr) (n : nat) : M (list data_t) :=
  fun m => let l := m (p_blk p) in
           if p_off p + n <=? length l
           then Some (firstn n (skipn (p_off p) l), m)
           else None.

(** ** Loops *)

(** [for (i = lo; i < hi; ++i) a = body(i, a)], by the number of
    iterations left. *)
Fixpoint for_from {A : Type} (k lo : nat) (body : nat -> A -> M A) (a : A)
  : M A :=
  match k with
  | 0 => ret a
  | S k' => a' <- body lo a ;; for_from k' (S lo) body a'
  end.

Definition for_loop {A : Type} (lo hi : nat) (body : nat -> A -> M A) (a : A)
  : M A :=
  for_from (hi - lo) lo body a.

(** [for (i = lo; i < hi; i += step) body(i)]: the condition is tested
    before every iteration; [fuel] bounds the number of tests. *)
Fixpoint for_step_from (fuel i hi step : nat) (body : nat -> M unit)
  : M unit :=
  match fuel with
  | 0 => ret tt
  | S f => if i <? hi
           then body i ;; for_step_from f (i + step) hi step body
           else ret tt
  end.

Definition for_step (lo hi step : nat) (body : nat -> M unit) : M unit :=
  for_step_from (S (hi - lo)) lo hi step body.

(** Modelled from the spec: [parallel_nd(count, body)] (mkldnn_thread.hpp
    is not under src/) invokes [body(i)] once per [i] in [[0, count)],
    with no ordering guarantee.  The model runs the bodies in increasing
    order of [i]. *)
Definition parallel_nd (count : nat) (body : nat -> M unit) : M unit :=
  for_loop 0 count (fun i _ => body i) tt.

(** Modelled from the spec: [nstl::max] (nstl.hpp is not under src/)
    returns the larger of its two arguments, [a > b ? a : b]. *)
Definition nstl_max (a b : data_t) : data_t :=
  if d_ltb b a then a else b.

(** Modelled from the spec: [utils::array_set(arr, val, size)] (utils.hpp
    is not under src/) assigns [val] to [arr[0..size)]. *)
Definition array_set (arr : ptr) (val : data_t) (size : nat) : M unit :=
  for_loop 0 size (fun i _ => store arr i val) tt.

(** ** The accelerated routines *)

(** The scan of the reference BLAS [isamax]: [best] is the index of the
    largest magnitude [smax] seen so far, [i] the index of the head of
    [xs]; a later element wins only when strictly larger. *)
Fixpoint isamax_scan (xs : list data_t) (i best : nat) (smax : data_t) : nat :=
  match xs with
  | [] => best
  | x :: r => if d_ltb smax (d_abs x)
              then isamax_scan r (S i) i (d_abs x)
              else isamax_scan r (S i) best smax
  end.

(** Modelled from the spec: [cblas_isamax(n, x, 1)] (an external BLAS) is
    the "index-of-max-magnitude" routine: the zero-based index of the
    first element of [x[0..n)] of largest absolute value, and [0] when
    [n] is [0]. *)
Definition cblas_isamax (n : nat) (x : ptr) : M nat :=
  xs <- load_slice x n ;;
  ret (match xs with
       | [] => 0
       | x0 :: r => isamax_scan r 1 0 (d_abs x0)
       end).

(** A reduction whose order is not fixed by the source.  [l] holds the
    partial sums; at step [k] the two at the positions [order k] (taken
    modulo the number of partial sums left) are added and replaced by
    their sum, until one is left.  Every term enters the result exactly
    once, in a tree of additions that [order] chooses. *)
Fixpoint reduce_terms (order : nat -> nat * nat) (fuel k : nat)
         (l : list data_t) : data_t :=
  match l with
  | [] => d_zero
  | [v] => v
  | _ =>
      match fuel with
      | 0 => fold_left d_add l d_zero
      | S f =>
          let i := fst (order k) mod length l in
          let l1 := drop_nth i l in
          let j := snd (order k) mod length l1 in
          reduce_terms order f (S k)
                       (d_add (nth i l d_zero) (nth j l1 d_zero)
                        :: drop_nth j l1)
      end
  end.

(** The reduction of the terms [xs] into an accumulator that starts at
    [0]: the [0] and the terms are combined in the order [order]. *)
Definition reduction (order : nat -> nat -> nat * nat) (xs : list data_t)
  : data_t :=
  reduce_terms (order (length xs)) (length xs) 0 (d_zero :: xs).

(** Modelled from the spec: [cblas_sasum(n, x, 1)] (an external BLAS) is
    the "absolute-sum" routine, the sum of [|x[i]|] over [x[0..n)]; the
    order of the additions is the library's. *)
Definition cblas_sasum (order : nat -> nat -> nat * nat) (n : nat) (x : ptr)
  : M data_t :=
  terms <- for_loop 0 n (fun i ts => v <- load x i ;; ret (ts ++ [d_abs v]))
                    [] ;;
  ret (reduction order terms).

(** Modelled from the spec: [cblas_sscal(n, alpha, x, 1)] (an external
    BLAS) is the "scaled-multiply" routine, [x[i] *= alpha] in place. *)
Definition cblas_sscal (n : nat) (alpha : data_t) (x : ptr) : M unit :=
  for_loop 0 n (fun i _ => v <- load x i ;; store x i (d_mul v alpha)) tt.

(** Modelled from the spec: [vsExp(n, a, r)] (Intel MKL VML) is the
    "vectorized exponential" routine, [r[i] = exp(a[i])]. *)
Definition vsExp (n : nat) (a r : ptr) : M unit :=
  for_loop 0 n (fun i _ => v <- load a i ;; store r i (d_exp v)) tt.

(** ** The five reduction primitives (ref_softmax_fwd_t) *)

Variable flags : build_flags.

(** [_max(n, x, max_data)]; the value written to [max_data[0]] is the
    result. *)
Definition _max (n : nat) (x : ptr) : M data_t :=
  if USE_CBLAS flags then
    idx <- cblas_isamax n x ;;
    load x idx
  else
    x0 <- load x 0 ;;
    for_loop 1 n (fun c max_data =>
                    xc <- load x c ;; ret (nstl_max max_data xc)) x0.

Definition unroll_factor : nat := 32.

(** [_sub(n, alpha, x, y)]. *)
Definition _sub (n : nat) (alpha : data_t) (x y : ptr) : M unit :=
  let tail := n mod unroll_factor in
  for_step 0 (n - tail) unroll_factor (fun i =>
    for_loop 0 unroll_factor (fun j _ =>
      xv <- load x (i + j) ;; store y (i + j) (d_sub xv alpha)) tt) ;;
  for_loop (n - tail) n (fun i _ =>
    xv <- load x i ;; store y i (d_sub xv alpha)) tt.

(** [_exp(n, a, r)]. *)
Definition _exp (n : nat) (a r : ptr) : M unit :=
  if USE_MKL flags then vsExp n a r
  else parallel_nd n (fun c => v <- load a c ;; store r c (d_exp v)).

(** [_sum(n, x, sum_data)]; the value written to [sum_data[0]] is the
    result.  The loop reads [x[0..n)] in order; its additions are a
    [reduction(+ : tsum)], combined in the order of the build. *)
Definition _sum (n : nat) (x : ptr) : M data_t :=
  if USE_CBLAS flags then cblas_sasum (REDUCTION_ORDER flags) n x
  else
    terms <- for_loop 0 n (fun c ts => v <- load x c ;; ret (ts ++ [v])) [] ;;
    ret (reduction (REDUCTION_ORDER flags) terms).

(** [_scal(n, alpha, x)]. *)
Definition _scal (n : nat) (alpha : data_t) (x : ptr) : M unit :=
  if USE_CBLAS flags then cblas_sscal n alpha x
  else parallel_nd n (fun c => v <- load x c ;; store x c (d_mul v alpha)).

(** ** Forward kernels *)

Variable self : softmax_t.

Definition src : ptr := mkptr Src 0.
Definition dst : ptr := mkptr Dst 0.

Definition execute_forward_dense : M unit :=
  parallel_nd (outer_size_ self) (fun ou =>
    let src_data := ptr_add src (ou * channels_ self) in
    let dst_data := ptr_add dst (ou * channels_ self) in
    scalar <- _max (channels_ self) src_data ;;
    _sub (channels_ self) scalar src_data dst_data ;;
    _exp (channels_ self) dst_data dst_data ;;
    scalar <- _sum (channels_ self) dst_data ;;
    _scal (channels_ self) (d_div d_one scalar) dst_data).

(** The descriptor of the source tensor ([pd()->src_pd()]). *)
Variable data_d : memory_desc_wrapper.

(** [data_d.off_l(ou * dim + c * inner_size_ + in)]. *)
Definition at_ (ou c i : nat) : nat :=
  let dim := channels_ self * inner_size_ self in
  off_l data_d (ou * dim + c * inner_size_ self + i).

(** The first sweep of an outer group: the running maximum of every
    inner index. *)
Definition max_sweep (space_max : ptr) (ou : nat) : M unit :=
  for_loop 0 (channels_ self) (fun c _ =>
    for_loop 0 (inner_size_ self) (fun i _ =>
      let off := at_ ou c i in
      sm <- load space_max i ;;
      s <- load src off ;;
      store space_max i (nstl_max sm s)) tt) tt.

(** The second sweep: [space_denom[in] += dst[off] = exp(src[off] -
    space_max[in])]. *)
Definition exp_sweep (space_max space_denom : ptr) (ou : nat) : M unit :=
  for_loop 0 (channels_ self) (fun c _ =>
    for_loop 0 (inner_size_ self) (fun i _ =>
      let off := at_ ou c i in
      s <- load src off ;;
      sm <- load space_max i ;;
      let e := d_exp (d_sub s sm) in
      store dst off e ;;
      sd <- load space_denom i ;;
      store space_denom i (d_add sd e)) tt) tt.

(** The third sweep: [dst[off] /= space_denom[in]]. *)
Definition div_sweep (space_denom : ptr) (ou : nat) : M unit :=
  for_loop 0 (channels_ self) (fun c _ =>
    for_loop 0 (inner_size_ self) (fun i _ =>
      let off := at_ ou c i in
      d <- load dst off ;;
      sd <- load space_denom i ;;
      store dst off (d_div d sd)) tt) tt.

(** [space_max] and [space_denom]: the two halves of the scratchpad
    buffer when [inner_size_ > 1], the two local scalars otherwise. *)
Definition space_max : ptr :=
  if 1 <? inner_size_ self then mkptr Scratch 0 else mkptr Stack 0.

Definition space_denom : ptr :=
  if 1 <? inner_size_ self then ptr_add space_max (inner_size_ self)
  else mkptr Stack 1.

(** The two [utils::array_set] calls that open every outer group. *)
Definition init_scratch : M unit :=
  array_set space_max d_neg_flt_max (inner_size_ self) ;;
  array_set space_denom d_zero (inner_size_ self).

(** The body of the loop over outer groups. *)
Definition forward_generic_group (ou : nat) : M unit :=
  init_scratch ;;
  max_sweep space_max ou ;;
  exp_sweep space_max space_denom ou ;;
  div_sweep space_denom ou.

Definition execute_forward_generic : M unit :=
  fun m0 =>
  (* data_t space_max_val = 0, space_denom_val = 0; *)
  let m := set_block m0 Stack [d_zero; d_zero] in
  for_loop 0 (outer_size_ self) (fun ou _ => forward_generic_group ou) tt m.

(** ** Backward kernels (ref_softmax_bwd_t) *)

Definition data : ptr := mkptr Data 0.
Definition diff_dst : ptr := mkptr DiffDst 0.
Definition diff_src : ptr := mkptr DiffSrc 0.

Definition execute_backward_dense : M unit :=
  parallel_nd (outer_size_ self) (fun ou =>
    let off := channels_ self * ou in
    sbr <- for_loop 0 (channels_ self) (fun c sbr =>
             let loff := off + c in
             ldata <- load data loff ;;
             g <- load diff_dst loff ;;
             store diff_src loff ldata ;;
             ret (d_add sbr (d_mul g ldata))) d_zero ;;
    for_loop 0 (channels_ self) (fun c _ =>
      let loff := off + c in
      ds <- load diff_src loff ;;
      g <- load diff_dst loff ;;
      store diff_src loff (d_mul ds (d_sub g sbr))) tt).

(** The descriptor of the gradient tensors ([pd()->diff_src_pd()]);
    [data_d] above plays the role of [pd()->dst_pd()] here. *)
Variable diff_d : memory_desc_wrapper.

Definition execute_backward_generic : M unit :=
  let dim := channels_ self * inner_size_ self in
  parallel_nd (outer_size_ self) (fun ou =>
    for_loop 0 (inner_size_ self) (fun i _ =>
      sbr <- for_loop 0 (channels_ self) (fun c sbr =>
               let off_diff := off_l diff_d (ou * dim + c * inner_size_ self + i) in
               let off_data := off_l diff_d (ou * dim + c * inner_size_ self + i) in
               g <- load diff_dst off_diff ;;
               p <- load data off_data ;;
               ret (d_add sbr (d_mul g p))) d_zero ;;
      for_loop 0 (channels_ self) (fun c _ =>
        let off_diff := off_l diff_d (ou * dim + c * inner_size_ self + i) in
        let off_data := off_l data_d (ou * dim + c * inner_size_ self + i) in
        p <- load data off_data ;;
        g <- load diff_dst off_diff ;;
        store diff_src off_diff (d_mul p (d_sub g sbr))) tt) tt).

(** Modelled from the spec: the generic backward kernel as the spec
    describes it, reading [data] through the forward-output descriptor
    [data_d] in the reduction sweep as well.  It differs from
    [execute_backward_generic] in the one offset [off_data] of the
    first loop. *)
Definition backward_generic_as_specified : M unit :=
  let dim := channels_ self * inner_size_ self in
  parallel_nd (outer_size_ self) (fun ou =>
    for_loop 0 (inner_size_ self) (fun i _ =>
      sbr <- for_loop 0 (channels_ self) (fun c sbr =>
               let off_diff := off_l diff_d (ou * dim + c * inner_size_ self + i) in
               let off_data := off_l data_d (ou * dim + c * inner_size_ self + i) in
               g <- load diff_dst off_diff ;;
               p <- load data off_data ;;
               ret (d_add sbr (d_mul g p))) d_zero ;;
      for_loop 0 (channels_ self) (fun c _ =>
        let off_diff := off_l diff_d (ou * dim + c * inner_size_ self + i) in
        let off_data := off_l data_d (ou * dim + c * inner_size_ self + i) in
        p <- load data off_data ;;
        g <- load diff_dst off_diff ;;
        store diff_src off_diff (d_mul p (d_sub g sbr))) tt) tt).

End Kernels.

Arguments mem data_t : clear implicits.
Arguments M data_t A : clear implicits.

(** ** Specification vocabulary *)

Section Vocabulary.

Context {data_t : Type} {ops : DataOps data_t}.

(** [runs c m Q]: from store [m] the computation [c] performs only
    in-bounds accesses, and its result and final store satisfy [Q]. *)
Definition runs {A : Type} (c : M data_t A) (m : mem data_t)
           (Q : A -> mem data_t -> Prop) : Prop :=
  match c m with
  | Some (a, m') => Q a m'
  | None => False
  end.

(** The [n] elements of [l] from position [off] on. *)
Definition slice (l : list data_t) (off n : nat) : list data_t :=
  firstn n (skipn off l).

(** The element of buffer [l] at position [k] (zero outside it). *)
Definition elt (l : list data_t) (k : nat) : data_t := nth k l d_zero.

(** [iter_acc step lo k a]: the accumulator after the [k] iterations
    [lo, lo+1, ...] of [a = step i a]. *)
Fixpoint iter_acc {A : Type} (step : nat -> A -> A) (lo k : nat) (a : A) : A :=
  match k with
  | 0 => a
  | S k' => iter_acc step (S lo) k' (step lo a)
  end.

(** [lwritten l l' pos val lo hi]: buffer [l'] is [l] after the writes
    [l[pos i] = val i] for [lo <= i < hi], and nothing else. *)
Definition lwritten (l l' : list data_t) (pos : nat -> nat)
           (val : nat -> data_t) (lo hi : nat) : Prop :=
  length l' = length l /\
  (forall i, lo <= i < hi -> nth_error l' (pos i) = Some (val i)) /\
  (forall j, (forall i, lo <= i < hi -> pos i <> j) ->
             nth_error l' j = nth_error l j).

(** [written m m' B pos val lo hi]: store [m'] is [m] after the writes
    [B[pos i] = val i] for [lo <= i < hi], and nothing else. *)
Definition written (m m' : mem data_t) (B : block) (pos : nat -> nat)
           (val : nat -> data_t) (lo hi : nat) : Prop :=
  (forall b, b <> B -> m' b = m b) /\
  lwritten (m B) (m' B) pos val lo hi.

(** The linear scan of [_max]: the running [nstl::max] of a non-empty
    slice, seeded with its first element. *)
Definition max_scan (xs : list data_t) : data_t :=
  match xs with
  | [] => d_zero
  | x0 :: r => fold_left nstl_max r x0
  end.

(** The value [x[cblas_isamax(n, x, 1)]]: the first element of largest
    magnitude. *)
Definition amax_elt (xs : list data_t) : data_t :=
  match xs with
  | [] => d_zero
  | x0 :: r => nth (isamax_scan r 1 0 (d_abs x0)) xs d_zero
  end.

(** What [_max] returns on the slice [xs], by build. *)
Definition max_value (flags : build_flags) (xs : list data_t) : data_t :=
  if USE_CBLAS flags then amax_elt xs else max_scan xs.

(** The left-to-right sum, from zero. *)
Definition sum_scan (xs : list data_t) : data_t :=
  fold_left d_add xs d_zero.

(** What [_sum] returns on the slice [xs], by build: the reduction of
    the elements, or of their magnitudes, in the order of the build. *)
Definition sum_value (flags : build_flags) (xs : list data_t) : data_t :=
  reduction (REDUCTION_ORDER flags)
            (if USE_CBLAS flags then map d_abs xs else xs).

(** The dense forward result on one channel slice [xs]: the five
    steps of the kernel, as list operations. *)
Definition softmax_slice (flags : build_flags) (xs : list data_t)
  : list data_t :=
  let m := max_value flags xs in
  let d1 := map (fun x => d_sub x m) xs in
  let d2 := map d_exp d1 in
  let denom := sum_value flags d2 in
  map (fun e => d_mul e (d_div d_one denom)) d2.

(** The dot product [sbr] of the dense backward kernel on one slice. *)
Definition dot_scan (gs ps : list data_t) : data_t :=
  fold_left (fun acc gp => d_add acc (d_mul (fst gp) (snd gp)))
            (combine gs ps) d_zero.

(** The values one outer group leaves in its slice of [dst]. *)
Definition dense_out (flags : build_flags) (xs : list data_t) (i : nat)
  : data_t :=
  let mx := max_value flags xs in
  let denom := sum_value flags (map (fun x => d_exp (d_sub x mx)) xs) in
  d_mul (d_exp (d_sub (nth i xs d_zero) mx)) (d_div d_one denom).

(** The state of the store after [ou] outer groups. *)
Definition dense_forward_inv (flags : build_flags) (self : softmax_t)
           (m : mem data_t) (ou : nat) (m' : mem data_t) : Prop :=
  (forall b, b <> Dst -> m' b = m b) /\
  length (m' Dst) = length (m Dst) /\
  (forall ou', ou' < ou ->
     slice (m' Dst) (ou' * channels_ self) (channels_ self)
     = softmax_slice flags (slice (m Src) (ou' * channels_ self)
                                  (channels_ self))) /\
  (forall j, ou * channels_ self <= j ->
             nth_error (m' Dst) j = nth_error (m Dst) j).

(** The source values of outer group [ou] at inner index [i], over the
    first [k] channels, read through the descriptor [d]. *)
Definition column_upto (self : softmax_t) (d : memory_desc_wrapper)
           (sb : list data_t) (ou i k : nat) : list data_t :=
  map (fun c => elt sb (at_ self d ou c i)) (seq 0 k).

(** The same over the whole channel axis. *)
Definition column (self : softmax_t) (d : memory_desc_wrapper)
           (sb : list data_t) (ou i : nat) : list data_t :=
  column_upto self d sb ou i (channels_ self).

(** What the first sweep of the generic kernel leaves in
    [space_max[in]]: the running [nstl::max], seeded with [-FLT_MAX]. *)
Definition generic_max (col : list data_t) : data_t :=
  fold_left nstl_max col d_neg_flt_max.

(** What the second sweep leaves in [space_denom[in]]. *)
Definition generic_denom (col : list data_t) : data_t :=
  fold_left d_add (map (fun x => d_exp (d_sub x (generic_max col))) col)
            d_zero.

(** The generic forward result for the source value [x] of a column. *)
Definition generic_out (col : list data_t) (x : data_t) : data_t :=
  d_div (d_exp (d_sub x (generic_max col))) (generic_denom col).

(** What the generic forward kernel leaves in the store after the
    first [ou] outer groups: every element of those groups of [dst] is
    [generic_out] of its column; the rest of [dst] and the source are
    as before. *)
Definition generic_forward_inv (self : softmax_t) (d : memory_desc_wrapper)
           (m : mem data_t) (ou : nat) (m' : mem data_t) : Prop :=
  m' Src = m Src /\
  length (m' Dst) = length (m Dst) /\
  (forall ou' c i,
     ou' < ou -> c < channels_ self -> i < inner_size_ self ->
     elt (m' Dst) (at_ self d ou' c i)
     = generic_out (column self d (m Src) ou' i)
                   (elt (m Src) (at_ self d ou' c i))) /\
  (forall j,
     (forall ou' c i,
        ou' < ou -> c < channels_ self -> i < inner_size_ self ->
        at_ self d ou' c i <> j) ->
     nth_error (m' Dst) j = nth_error (m Dst) j).

(** The layout assumptions of the generic kernels on a descriptor [d]
    and a buffer of [len] elements: the logical indices of the tensor
    map to distinct offsets inside the buffer. *)
Definition layout_ok (self : softmax_t) (d : memory_desc_wrapper)
           (len : nat) : Prop :=
  let total := outer_size_ self * (channels_ self * inner_size_ self) in
  (forall k, k < total -> off_l d k < len) /\
  (forall k k', k < total -> k' < total -> off_l d k = off_l d k' -> k = k').

(** The values the dense backward kernel leaves in one slice of
    [diff_src], from the slices [ps] of [data] and [gs] of [diff_dst]. *)
Definition dense_bwd_out (ps gs : list data_t) (c : nat) : data_t :=
  d_mul (nth c ps d_zero) (d_sub (nth c gs d_zero) (dot_scan gs ps)).

(** The state of the store after [ou] outer groups of the dense
    backward kernel. *)
Definition dense_backward_inv (self : softmax_t)
           (m : mem data_t) (ou : nat) (m' : mem data_t) : Prop :=
  (forall b, b <> DiffSrc -> m' b = m b) /\
  length (m' DiffSrc) = length (m DiffSrc) /\
  (forall ou' c,
     ou' < ou -> c < channels_ self ->
     elt (m' DiffSrc) (channels_ self * ou' + c)
     = dense_bwd_out (slice (m Data) (channels_ self * ou') (channels_ self))
                     (slice (m DiffDst) (channels_ self * ou')
                            (channels_ self)) c) /\
  (forall j, channels_ self * ou <= j ->
             nth_error (m' DiffSrc) j = nth_error (m DiffSrc) j).

(** A store for a forward kernel: the source and destination buffers;
    every other block is empty. *)
Definition fwd_mem (s d : list data_t) : mem data_t :=
  fun b => match b with Src => s | Dst => d | _ => [] end.

(** A store for a backward kernel: [data], [diff_dst] and [diff_src]. *)
Definition bwd_mem (p g ds : list data_t) : mem data_t :=
  fun b => match b with
           | Data => p | DiffDst => g | DiffSrc => ds | _ => []
           end.

(** The contents of block [b] after a run ([None] if it faulted). *)
Definition block_after {A : Type} (r : option (A * mem data_t)) (b : block)
  : option (list data_t) :=
  option_map (fun am => snd am b) r.

(** The value a run returned ([None] if it faulted). *)
Definition value_of {A : Type} (r : option (A * mem data_t)) : option A :=
  option_map fst r.

(** [a] is not greater than [b], by the comparison of [data_t]. *)
Definition d_le (a b : data_t) : Prop := d_ltb b a = false.

(** The comparison [<] is a strict weak order on the values satisfying
    [ok] (all reals; all single-precision values but NaN). *)
Class OrderLaws (ok : data_t -> Prop) : Prop := {
  ltb_asym : forall a b, ok a -> ok b -> d_ltb a b = true -> d_ltb b a = false;
  ltb_negtrans : forall a b c, ok a -> ok b -> ok c ->
                 d_ltb a b = false -> d_ltb b c = false -> d_ltb a c = false
}.

End Vocabulary.

(** ** Orders of a reduction *)

Section Orders.
Context {data_t : Type} {ops : DataOps data_t}.

(** Every value a reduction of the partial sums [l] can take, over all
    the orders of combining them. *)
Fixpoint all_reductions (fuel : nat) (l : list data_t) : list data_t :=
  match l with
  | [] => [d_zero]
  | [v] => [v]
  | _ =>
      match fuel with
      | 0 => [fold_left d_add l d_zero]
      | S f =>
          flat_map
            (fun i =>
               let l1 := drop_nth i l in
               flat_map
                 (fun j =>
                    all_reductions f (d_add (nth i l d_zero) (nth j l1 d_zero)
                                      :: drop_nth j l1))
                 (seq 0 (length l1)))
            (seq 0 (length l))
      end
  end.

End Orders.

(** ** Exact arithmetic *)

(** [FLT_MAX = (2^24 - 1) * 2^104]. *)
Definition FLT_MAX_Z : Z := (2 ^ 24 - 1) * 2 ^ 104.

#[export] Instance R_ops : DataOps R := {|
  d_zero := 0%R;
  d_one := 1%R;
  d_neg_flt_max := (- IZR FLT_MAX_Z)%R;
  d_add := Rplus;
  d_sub := Rminus;
  d_mul := Rmult;
  d_div := Rdiv;
  d_ltb := fun a b => if Rlt_dec a b then true else false;
  d_abs := Rabs;
  d_exp := exp
|}.

(** The sum of a list of reals. *)
Definition Rsum (l : list R) : R := fold_right Rplus 0%R l.

(** The mathematical softmax of [x] within the channel slice [xs]. *)
Definition softmax_R (xs : list R) (x : R) : R :=
  (exp x / Rsum (map exp xs))%R.

(** ** IEEE-754 binary32 *)

(** Single precision: 24 bits of precision, exponents below 128. *)
Definition f32 : Type := spec_float.

(** The operations of [float], for a given C library exponential. *)
Definition f32_ops (expf : f32 -> f32) : DataOps f32 := {|
  d_zero := S754_zero false;
  d_one := S754_finite false 8388608 (-23);
  d_neg_flt_max := S754_finite true 16777215 104;
  d_add := SFadd 24 128;
  d_sub := SFsub 24 128;
  d_mul := SFmul 24 128;
  d_div := SFdiv 24 128;
  d_ltb := SFltb;
  d_abs := SFabs;
  d_exp := expf
|}.

(** The single-precision values that compare with every other: all
    but NaN. *)
Definition f32_ordered (x : f32) : Prop := x <> S754_nan.

(** The finite values of binary32: well-formed zeros and numbers. *)
Definition f32_finite (x : f32) : bool :=
  valid_binary 24 128 x &&
  match x with
  | S754_zero _ | S754_finite _ _ _ => true
  | _ => false
  end.

(** The binary32 value nearest to the integer [z]. *)
Definition f32_of_Z (z : Z) : f32 := binary_normalize 24 128 z 0 false.



(** The binary32 value nearest to [n / 10^k] (a decimal literal). *)
Definition f32_dec (n : Z) (k : Z) : f32 :=
  SFdiv 24 128 (f32_of_Z n) (f32_of_Z (10 ^ k)).

(** Structural equality of two single-precision values. *)
Definition f32_eqb (a b : f32) : bool :=
  match a, b with
  | S754_zero s, S754_zero t => Bool.eqb s t
  | S754_infinity s, S754_infinity t => Bool.eqb s t
  | S754_nan, S754_nan => true
  | S754_finite s m e, S754_finite t n f =>
      Bool.eqb s t && Pos.eqb m n && Z.eqb e f
  | _, _ => false
  end.

(** An exponential for evaluating examples.  It is exact at zero and
    at the infinities, and it is what a correctly rounded [expf] returns
    where the result leaves the range of single precision: [+inf] from
    [89] on and [+0] up to [-104].  Between the two it is a
    placeholder. *)
Definition expf_tails (x : f32) : f32 :=
  match x with
  | S754_nan => S754_nan
  | S754_zero _ => f32_of_Z 1
  | S754_infinity s => if s then S754_zero false else S754_infinity false
  | S754_finite _ _ _ =>
      if SFleb x (f32_of_Z (-104)) then S754_zero false
      else if SFleb (f32_of_Z 89) x then S754_infinity false
      else f32_of_Z 1
  end.

(** ** Footprints, schedules and the generic backward kernel *)

Section Footprints.
Context {data_t : Type} {ops : DataOps data_t}.

(** [rwritten m m' B W]: store [m'] is [m] after the writes [B[j] = v]
    for the pairs [W j v], and nothing else. *)
Definition rwritten (m m' : mem data_t) (B : block)
           (W : nat -> data_t -> Prop) : Prop :=
  (forall b, b <> B -> m' b = m b) /\
  length (m' B) = length (m B) /\
  (forall j v, W j v -> nth_error (m' B) j = Some v) /\
  (forall j, (forall v, ~ W j v) -> nth_error (m' B) j = nth_error (m B) j).

(** [for_each l body]: the iterations [body i] for the indices of [l], in
    the order of [l]. *)
Fixpoint for_each (l : list nat) (body : nat -> M data_t unit) : M data_t unit :=
  match l with
  | [] => ret tt
  | i :: r => bind (body i) (fun _ => for_each r body)
  end.

End Footprints.

Section GenericBackward.
Context {data_t : Type} {ops : DataOps data_t}.

(** The reduction [sbr] of the generic backward kernel for outer group
    [ou] and inner index [i], from the buffers [gb] of [diff_dst] and
    [pb] of [data]: both factors are read at the offsets of the
    gradient descriptor [diff_d]. *)
Definition generic_sbr (self : softmax_t) (diff_d : memory_desc_wrapper)
           (gb pb : list data_t) (ou i : nat) : data_t :=
  fold_left (fun acc c =>
               d_add acc (d_mul (elt gb (at_ self diff_d ou c i))
                                (elt pb (at_ self diff_d ou c i))))
            (seq 0 (channels_ self)) d_zero.

(** The value the generic backward kernel stores for the logical index
    [(ou, c, i)]: here [data] is read at the offset of [data_d]. *)
Definition generic_bwd_out (self : softmax_t)
           (data_d diff_d : memory_desc_wrapper) (gb pb : list data_t)
           (ou c i : nat) : data_t :=
  d_mul (elt pb (at_ self data_d ou c i))
        (d_sub (elt gb (at_ self diff_d ou c i))
               (generic_sbr self diff_d gb pb ou i)).

(** The offsets of [d] for the tensor's logical indices lie inside a
    buffer of [len] elements. *)
Definition offsets_within (self : softmax_t) (d : memory_desc_wrapper)
           (len : nat) : Prop :=
  forall k, k < outer_size_ self * (channels_ self * inner_size_ self) ->
            off_l d k < len.

(** The writes of the generic backward kernel for outer group [ou] and
    inner index [i], as a relation between an offset of [diff_src] and
    the value stored there. *)
Definition bwd_writes (self : softmax_t)
           (data_d diff_d : memory_desc_wrapper) (m : mem data_t)
           (ou i : nat) (j : nat) (v : data_t) : Prop :=
  exists c, c < channels_ self /\ j = at_ self diff_d ou c i /\
            v = generic_bwd_out self data_d diff_d
                                (m DiffDst) (m Data) ou c i.

End GenericBackward.

Section Preservation.
Context {data_t : Type} {ops : DataOps data_t}.

(** [preserves c b]: whenever [c] returns, block [b] is as it was. *)
Definition preserves {A : Type} (c : M data_t A) (b : block) : Prop :=
  forall m a m', c m = Some (a, m') -> m' b = m b.

End Preservation.

Section Iterations.
Context {data_t : Type} {ops : DataOps data_t}.
Variable flags : build_flags.
Variable self : softmax_t.
Variables data_d diff_d : memory_desc_wrapper.

(** The iteration [ou] of the [parallel_nd] of the dense forward
    kernel. *)
Definition forward_dense_group (ou : nat) : M data_t unit :=
  let src_data := ptr_add src (ou * channels_ self) in
  let dst_data := ptr_add dst (ou * channels_ self) in
  bind (_max flags (channels_ self) src_data) (fun scalar =>
  bind (_sub (channels_ self) scalar src_data dst_data) (fun _ =>
  bind (_exp flags (channels_ self) dst_data dst_data) (fun _ =>
  bind (_sum flags (channels_ self) dst_data) (fun scalar0 =>
  _scal flags (channels_ self) (d_div d_one scalar0) dst_data)))).

(** The iteration [ou] of the [parallel_nd] of the dense backward
    kernel. *)
Definition backward_dense_group (ou : nat) : M data_t unit :=
  let off := channels_ self * ou in
  bind (for_loop 0 (channels_ self) (fun c sbr =>
          let loff := off + c in
          bind (load data loff) (fun ldata =>
          bind (load diff_dst loff) (fun g =>
          bind (store diff_src loff ldata) (fun _ =>
          ret (d_add sbr (d_mul g ldata)))))) d_zero)
       (fun sbr =>
          for_loop 0 (channels_ self) (fun c _ =>
            let loff := off + c in
            bind (load diff_src loff) (fun ds =>
            bind (load diff_dst loff) (fun g =>
            store diff_src loff (d_mul ds (d_sub g sbr))))) tt).

(** The iteration [ou] of the [parallel_nd] of the generic backward
    kernel. *)
Definition backward_generic_group (ou : nat) : M data_t unit :=
  let dim := channels_ self * inner_size_ self in
  for_loop 0 (inner_size_ self) (fun i _ =>
    bind (for_loop 0 (channels_ self) (fun c sbr =>
            let off_diff :=
              off_l diff_d (ou * dim + c * inner_size_ self + i) in
            let off_data :=
              off_l diff_d (ou * dim + c * inner_size_ self + i) in
            bind (load diff_dst off_diff) (fun g =>
            bind (load data off_data) (fun p =>
            ret (d_add sbr (d_mul g p))))) d_zero)
         (fun sbr =>
            for_loop 0 (channels_ self) (fun c _ =>
              let off_diff :=
                off_l diff_d (ou * dim + c * inner_size_ self + i) in
              let off_data :=
                off_l data_d (ou * dim + c * inner_size_ self + i) in
              bind (load data off_data) (fun p =>
              bind (load diff_dst off_diff) (fun g =>
              store diff_src off_diff (d_mul p (d_sub g sbr))))) tt)) tt.

End Iterations.

(** * Facts *)

(** ** Lists and stores *)

Lemma length_upd (A : Type) (l : list A) (k : nat) (v : A) :
  length (upd l k v) = length l.
Proof.
  revert k; induction l as [|a l IH]; intros [|k]; simpl; auto.
Qed.

Lemma nth_error_upd_eq (A : Type) (l : list A) (k : nat) (v : A) :
  k < length l -> nth_error (upd l k v) k = Some v.
Proof.
  revert k; induction l as [|a l IH]; intros [|k] H; simpl in *;
    try lia; auto.
  apply IH; lia.
Qed.

Lemma nth_error_upd_ne (A : Type) (l : list A) (k j : nat) (v : A) :
  j <> k -> nth_error (upd l k v) j = nth_error l j.
Proof.
  revert k j; induction l as [|a l IH]; intros [|k] [|j] H; simpl;
    auto; try congruence.
Qed.

Section Logic.

Context {data_t : Type} {ops : DataOps data_t}.

Implicit Types (m : mem data_t) (p : ptr) (l : list data_t).

Lemma set_block_eq m b l : set_block m b l b = l.
Proof. unfold set_block. destruct (block_eq_dec b b); congruence. Qed.

Lemma set_block_ne m b b' l : b' <> b -> set_block m b l b' = m b'.
Proof. unfold set_block. destruct (block_eq_dec b' b); congruence. Qed.

Lemma length_slice l off n :
  off + n <= length l -> length (slice l off n) = n.
Proof.
  intros H. unfold slice. rewrite length_firstn, length_skipn. lia.
Qed.

Lemma nth_error_slice l off n i :
  i < n -> nth_error (slice l off n) i = nth_error l (off + i).
Proof.
  intros H. unfold slice.
  rewrite nth_error_firstn.
  destruct (Nat.ltb_spec i n); [|lia].
  apply nth_error_skipn.
Qed.

Lemma nth_error_elt l k : k < length l -> nth_error l k = Some (elt l k).
Proof. intros H. unfold elt. now apply nth_error_nth'. Qed.

Lemma elt_of_nth_error l k v : nth_error l k = Some v -> elt l k = v.
Proof. intros H. unfold elt. now apply nth_error_nth. Qed.

Lemma slice_S l off n :
  off + S n <= length l ->
  slice l off (S n) = slice l off n ++ [elt l (off + n)].
Proof.
  intros H. apply nth_error_ext. intros i.
  destruct (Nat.lt_ge_cases i (S n)) as [Hi|Hi].
  - rewrite nth_error_slice by lia.
    destruct (Nat.eq_dec i n) as [->|Hne].
    + rewrite nth_error_app2 by (rewrite length_slice; lia).
      rewrite length_slice, Nat.sub_diag by lia. simpl.
      apply nth_error_elt. lia.
    + rewrite nth_error_app1 by (rewrite length_slice; lia).
      rewrite nth_error_slice by lia. reflexivity.
  - transitivity (@None data_t); [|symmetry]; apply nth_error_None.
    + rewrite length_slice; lia.
    + rewrite length_app, length_slice by lia. simpl. lia.
Qed.

(** ** The program logic *)

Lemma runs_ret (A : Type) (a : A) m (Q : A -> mem data_t -> Prop) :
  Q a m -> runs (ret a) m Q.
Proof. auto. Qed.

Lemma runs_bind (A B : Type) (c : M data_t A) (k : A -> M data_t B) m
      (Q : B -> mem data_t -> Prop) :
  runs c m (fun a m' => runs (k a) m' Q) -> runs (bind c k) m Q.
Proof.
  unfold runs, bind. destruct (c m) as [[a m']|]; auto.
Qed.

Lemma runs_weaken (A : Type) (c : M data_t A) m
      (Q Q' : A -> mem data_t -> Prop) :
  runs c m Q -> (forall a m', Q a m' -> Q' a m') -> runs c m Q'.
Proof.
  unfold runs. destruct (c m) as [[a m']|]; auto.
Qed.

Lemma runs_elim (A : Type) (c : M data_t A) m (Q : A -> mem data_t -> Prop) :
  runs c m Q -> exists a m', c m = Some (a, m') /\ Q a m'.
Proof.
  unfold runs. destruct (c m) as [[a m']|]; [eauto|tauto].
Qed.

Lemma runs_load p i m (Q : data_t -> mem data_t -> Prop) :
  p_off p + i < length (m (p_blk p)) ->
  Q (elt (m (p_blk p)) (p_off p + i)) m ->
  runs (load p i) m Q.
Proof.
  intros H HQ. unfold runs, load.
  rewrite (nth_error_elt _ H). exact HQ.
Qed.

Lemma runs_store p i v m (Q : unit -> mem data_t -> Prop) :
  p_off p + i < length (m (p_blk p)) ->
  Q tt (set_block m (p_blk p) (upd (m (p_blk p)) (p_off p + i) v)) ->
  runs (store p i v) m Q.
Proof.
  intros H HQ. unfold runs, store. cbv zeta.
  destruct (Nat.ltb_spec (p_off p + i) (length (m (p_blk p)))); [|lia].
  exact HQ.
Qed.

Lemma runs_load_slice p n m (Q : list data_t -> mem data_t -> Prop) :
  p_off p + n <= length (m (p_blk p)) ->
  Q (slice (m (p_blk p)) (p_off p) n) m ->
  runs (load_slice p n) m Q.
Proof.
  intros H HQ. unfold runs, load_slice. cbv zeta.
  destruct (Nat.leb_spec (p_off p + n) (length (m (p_blk p)))); [|lia].
  exact HQ.
Qed.

(** The invariant rule for counted loops. *)
Lemma runs_for_from (A : Type) (I : nat -> A -> mem data_t -> Prop)
      (body : nat -> A -> M data_t A) k :
  forall lo a m,
    I lo a m ->
    (forall i a' m', lo <= i < lo + k -> I i a' m' ->
                     runs (body i a') m' (I (S i))) ->
    runs (for_from k lo body a) m (I (lo + k)).
Proof.
  induction k as [|k IH]; intros lo a m H0 Hstep; simpl.
  - rewrite Nat.add_0_r. now apply runs_ret.
  - apply runs_bind.
    eapply runs_weaken; [apply Hstep; [lia|exact H0]|].
    intros a' m' H1. cbv beta.
    replace (lo + S k) with (S lo + k) by lia.
    apply IH; [exact H1|].
    intros i a'' m'' Hi. apply Hstep. lia.
Qed.

Lemma runs_for_loop (A : Type) (I : nat -> A -> mem data_t -> Prop)
      (body : nat -> A -> M data_t A) lo hi a m :
  lo <= hi ->
  I lo a m ->
  (forall i a' m', lo <= i < hi -> I i a' m' ->
                   runs (body i a') m' (I (S i))) ->
  runs (for_loop lo hi body a) m (I hi).
Proof.
  intros Hle H0 Hstep. unfold for_loop.
  replace hi with (lo + (hi - lo)) at 2 by lia.
  apply runs_for_from; [exact H0|].
  intros i a' m' Hi. apply Hstep. lia.
Qed.

(** The stepping loop runs [q] iterations when its range is [q]
    steps long. *)
Lemma runs_for_step (I : nat -> mem data_t -> Prop)
      (body : nat -> M data_t unit) lo step q m :
  0 < step ->
  I 0 m ->
  (forall k m', k < q -> I k m' ->
                runs (body (lo + k * step)) m' (fun _ => I (S k))) ->
  runs (for_step lo (lo + q * step) step body) m (fun _ => I q).
Proof.
  intros Hstep H0 Hbody. unfold for_step.
  assert (G : forall j fuel i m',
             j <= q -> i = lo + (q - j) * step -> j < fuel ->
             I (q - j) m' ->
             runs (for_step_from fuel i (lo + q * step) step body) m'
                  (fun _ => I q)).
  { induction j as [|j IH]; intros fuel i m' Hj Hi Hfuel HI;
      (destruct fuel as [|fuel]; [lia|]); simpl.
    - rewrite Nat.sub_0_r in Hi, HI.
      destruct (Nat.ltb_spec i (lo + q * step)); [lia|].
      now apply runs_ret.
    - subst i.
      destruct (Nat.ltb_spec (lo + (q - S j) * step) (lo + q * step));
        [|nia].
      apply runs_bind.
      eapply runs_weaken.
      + apply Hbody; [lia|exact HI].
      + intros [] m'' HI'. cbv beta in *. apply IH; try lia.
        * nia.
        * replace (q - j) with (S (q - S j)) by lia. exact HI'. }
  apply (G q); try lia.
  - nia.
  - now rewrite Nat.sub_diag.
Qed.

End Logic.

(** ** Reductions and element-wise loops *)

Section LoopFacts.

Context {data_t : Type} {ops : DataOps data_t}.

Implicit Types (m : mem data_t) (p : ptr) (l : list data_t).

Lemma iter_acc_snoc (A : Type) (step : nat -> A -> A) k :
  forall lo a,
    iter_acc step lo (S k) a = step (lo + k) (iter_acc step lo k a).
Proof.
  induction k as [|k IH]; intros lo a.
  - simpl. now rewrite Nat.add_0_r.
  - change (iter_acc step lo (S (S k)) a)
      with (iter_acc step (S lo) (S k) (step lo a)).
    rewrite IH. simpl. now rewrite Nat.add_succ_r.
Qed.

Lemma iter_acc_fold (g : data_t -> data_t -> data_t) l off lo n :
  forall a,
    off + lo + n <= length l ->
    iter_acc (fun i acc => g acc (elt l (off + i))) lo n a
    = fold_left g (slice l (off + lo) n) a.
Proof.
  induction n as [|n IH]; intros a H.
  - reflexivity.
  - rewrite iter_acc_snoc, slice_S, fold_left_app by lia.
    simpl. rewrite IH by lia. now rewrite Nat.add_assoc.
Qed.

Lemma skipn_elt l : forall off,
  off < length l -> skipn off l = elt l off :: skipn (S off) l.
Proof.
  induction l as [|a l IH]; intros off H.
  - simpl in H. lia.
  - destruct off as [|off]; [reflexivity|].
    simpl skipn at 1. unfold elt. simpl nth.
    change (skipn (S (S off)) (a :: l)) with (skipn (S off) l).
    apply IH. simpl in H. lia.
Qed.

Lemma slice_cons l off n :
  off + S n <= length l ->
  slice l off (S n) = elt l off :: slice l (S off) n.
Proof.
  intros H. unfold slice. rewrite skipn_elt by lia. reflexivity.
Qed.

Lemma slice_seq l off n :
  off + n <= length l ->
  slice l off n = map (fun i => elt l (off + i)) (seq 0 n).
Proof.
  intros H. apply nth_error_ext. intros i.
  destruct (Nat.lt_ge_cases i n) as [Hi|Hi].
  - rewrite nth_error_slice by lia.
    rewrite nth_error_map, nth_error_seq.
    destruct (Nat.ltb_spec i n); [|lia]. simpl.
    apply nth_error_elt. lia.
  - transitivity (@None data_t); [|symmetry]; apply nth_error_None.
    + rewrite length_slice; lia.
    + rewrite length_map, length_seq. lia.
Qed.

(** The accumulator of a loop that appends one value per iteration. *)
Lemma iter_acc_collect (g : data_t -> data_t) l off n :
  off + n <= length l ->
  iter_acc (fun i ts => ts ++ [g (elt l (off + i))]) 0 n []
  = map g (slice l off n).
Proof.
  induction n as [|n IH]; intros Hb.
  - reflexivity.
  - rewrite iter_acc_snoc, IH by lia.
    rewrite (@slice_S _ _ l off n) by lia.
    rewrite map_app. reflexivity.
Qed.

Lemma length_drop_nth (A : Type) (l : list A) :
  forall k, k < length l -> S (length (drop_nth k l)) = length l.
Proof.
  induction l as [|a l IH]; intros [|k] H; simpl in *; try lia.
  rewrite IH by lia. reflexivity.
Qed.

(** A reduction that adds the terms one after another is the
    left-to-right sum. *)
Lemma reduce_terms_in_order n (xs : list data_t) :
  forall fuel k a,
    length xs <= fuel ->
    reduce_terms (in_order n) fuel k (a :: xs) = fold_left d_add xs a.
Proof.
  induction xs as [|x xs IH]; intros fuel k a Hf.
  - destruct fuel; reflexivity.
  - destruct fuel as [|f]; [simpl in Hf; lia|].
    change (reduce_terms (in_order n) (S f) k (a :: x :: xs))
      with (let l := a :: x :: xs in
            let i := fst (in_order n k) mod length l in
            let l1 := drop_nth i l in
            let j := snd (in_order n k) mod length l1 in
            reduce_terms (in_order n) f (S k)
                         (d_add (nth i l d_zero) (nth j l1 d_zero)
                          :: drop_nth j l1)).
    cbv zeta. change (in_order n k) with (0, 0). cbn [fst snd].
    rewrite Nat.Div0.mod_0_l. cbn [drop_nth nth].
    rewrite Nat.Div0.mod_0_l. cbn [drop_nth nth].
    simpl in Hf. apply (IH f (S k) (d_add a x)). lia.
Qed.

Lemma reduction_in_order (xs : list data_t) :
  reduction in_order xs = fold_left d_add xs d_zero.
Proof. unfold reduction. now apply reduce_terms_in_order. Qed.

(** The reduction of one term is that term added to the initial [0],
    on one side or the other. *)
Lemma reduction_single (order : nat -> nat -> nat * nat) (v : data_t) :
  reduction order [v] = d_add d_zero v \/ reduction order [v] = d_add v d_zero.
Proof.
  unfold reduction. simpl length.
  change (reduce_terms (order 1) 1 0 [d_zero; v])
    with (let i := fst (order 1 0) mod 2 in
          let l1 := drop_nth i [d_zero; v] in
          let j := snd (order 1 0) mod length l1 in
          reduce_terms (order 1) 0 1
                       (d_add (nth i [d_zero; v] d_zero) (nth j l1 d_zero)
                        :: drop_nth j l1)).
  cbv zeta.
  assert (Hi : fst (order 1 0) mod 2 < 2) by (apply Nat.mod_upper_bound; lia).
  destruct (fst (order 1 0) mod 2) as [|[|i]]; [left|right|lia];
    cbn [drop_nth length]; rewrite Nat.mod_1_r; reflexivity.
Qed.

(** A loop that only reads the store computes its accumulator. *)
Lemma runs_for_loop_pure (A : Type) (step : nat -> A -> A)
      (body : nat -> A -> M data_t A) lo hi a m :
  lo <= hi ->
  (forall i a', lo <= i < hi ->
                runs (body i a') m (fun r m' => r = step i a' /\ m' = m)) ->
  runs (for_loop lo hi body a) m
       (fun r m' => r = iter_acc step lo (hi - lo) a /\ m' = m).
Proof.
  intros Hle Hbody.
  apply (runs_for_loop
           (fun i a' m' => a' = iter_acc step lo (i - lo) a /\ m' = m)).
  - exact Hle.
  - rewrite Nat.sub_diag. auto.
  - intros i a' m' Hi [-> ->].
    eapply runs_weaken; [apply Hbody; exact Hi|].
    intros r m' [-> ->]. split; [|reflexivity].
    replace (S i - lo) with (S (i - lo)) by lia.
    rewrite iter_acc_snoc. f_equal. lia.
Qed.

(** *** Buffers that differ by a set of writes *)

Lemma lwritten_id l pos val lo hi :
  (forall i, lo <= i < hi -> nth_error l (pos i) = Some (val i)) ->
  lwritten l l pos val lo hi.
Proof. intros H. repeat split; auto. Qed.

Lemma lwritten_refl l pos val lo : lwritten l l pos val lo lo.
Proof. apply lwritten_id. intros i Hi. lia. Qed.

Lemma lwritten_length l l' pos val lo hi :
  lwritten l l' pos val lo hi -> length l' = length l.
Proof. intros (H & _). exact H. Qed.

Lemma lwritten_at l l' pos val lo hi i :
  lwritten l l' pos val lo hi -> lo <= i < hi -> elt l' (pos i) = val i.
Proof.
  intros (_ & H & _) Hi. apply elt_of_nth_error. auto.
Qed.

Lemma lwritten_frame l l' pos val lo hi j :
  lwritten l l' pos val lo hi ->
  (forall i, lo <= i < hi -> pos i <> j) ->
  elt l' j = elt l j.
Proof.
  intros (_ & _ & H) Hj. unfold elt.
  apply H in Hj.
  destruct (nth_error l j) as [v|] eqn:E.
  - rewrite (nth_error_nth _ _ _ Hj), (nth_error_nth _ _ _ E). reflexivity.
  - apply nth_error_None in Hj, E.
    rewrite !nth_overflow by assumption. reflexivity.
Qed.

(** One more write extends the set. *)
Lemma lwritten_step l l' pos val lo i :
  lo <= i ->
  lwritten l l' pos val lo i ->
  pos i < length l ->
  (forall j, lo <= j < i -> pos j <> pos i) ->
  lwritten l (upd l' (pos i) (val i)) pos val lo (S i).
Proof.
  intros Hlo (Hl & Hw & Hf) Hb Hinj.
  split; [|split].
  - rewrite length_upd. exact Hl.
  - intros j Hj.
    destruct (Nat.eq_dec j i) as [->|Hne].
    + apply nth_error_upd_eq. lia.
    + rewrite nth_error_upd_ne by (apply Hinj; lia).
      apply Hw. lia.
  - intros j Hj.
    rewrite nth_error_upd_ne by (intros ->; apply (Hj i); [lia|reflexivity]).
    apply Hf. intros i' Hi'. apply Hj. lia.
Qed.

(** Writing again to a position of the set changes its value. *)
Lemma lwritten_set l l' pos val lo hi i0 v :
  lwritten l l' pos val lo hi ->
  lo <= i0 < hi ->
  pos i0 < length l ->
  (forall j, lo <= j < hi -> j <> i0 -> pos j <> pos i0) ->
  lwritten l (upd l' (pos i0) v) pos
           (fun i => if i =? i0 then v else val i) lo hi.
Proof.
  intros (Hl & Hw & Hf) Hi0 Hb Hinj.
  split; [|split].
  - rewrite length_upd. exact Hl.
  - intros j Hj.
    destruct (Nat.eqb_spec j i0) as [->|Hne].
    + apply nth_error_upd_eq. lia.
    + rewrite nth_error_upd_ne by (apply Hinj; lia).
      apply Hw. lia.
  - intros j Hj.
    rewrite nth_error_upd_ne by (intros ->; apply (Hj i0); [lia|reflexivity]).
    apply Hf. exact Hj.
Qed.

(** Writes on adjacent index ranges compose. *)
Lemma lwritten_trans l l1 l2 pos val lo mid hi :
  lo <= mid <= hi ->
  lwritten l l1 pos val lo mid ->
  lwritten l1 l2 pos val mid hi ->
  (forall i j, lo <= i < mid -> mid <= j < hi -> pos i <> pos j) ->
  lwritten l l2 pos val lo hi.
Proof.
  intros Hr (Hl1 & Hw1 & Hf1) (Hl2 & Hw2 & Hf2) Hinj.
  split; [|split].
  - congruence.
  - intros i Hi. destruct (Nat.lt_ge_cases i mid) as [Hlt|Hge].
    + rewrite Hf2; [apply Hw1; lia|].
      intros j Hj E. apply (Hinj i j); auto; lia.
    + apply Hw2. lia.
  - intros j Hj. rewrite Hf2, Hf1; auto.
    + intros i Hi. apply Hj. lia.
    + intros i Hi. apply Hj. lia.
Qed.

(** A second pass over the same positions replaces the values. *)
Lemma lwritten_over l l1 l2 pos v1 v2 lo hi :
  lwritten l l1 pos v1 lo hi ->
  lwritten l1 l2 pos v2 lo hi ->
  lwritten l l2 pos v2 lo hi.
Proof.
  intros (Hl1 & Hw1 & Hf1) (Hl2 & Hw2 & Hf2).
  split; [|split].
  - congruence.
  - exact Hw2.
  - intros j Hj. rewrite Hf2, Hf1; auto.
Qed.

Lemma lwritten_ext l l' pos v1 v2 lo hi :
  lwritten l l' pos v1 lo hi ->
  (forall i, lo <= i < hi -> v1 i = v2 i) ->
  lwritten l l' pos v2 lo hi.
Proof.
  intros (Hl & Hw & Hf) E.
  split; [|split]; auto.
  intros i Hi. rewrite <- E by assumption. auto.
Qed.

Lemma lwritten_reindex l l' pos val d n :
  lwritten l l' (fun j => pos (d + j)) (fun j => val (d + j)) 0 n ->
  lwritten l l' pos val d (d + n).
Proof.
  intros (Hl & Hw & Hf).
  split; [|split]; auto.
  - intros i Hi. replace i with (d + (i - d)) by lia. apply Hw. lia.
  - intros j Hj. apply Hf. intros i Hi. apply Hj. lia.
Qed.

(** *** Stores that differ by a set of writes to one block *)

Lemma written_refl m B pos val lo : written m m B pos val lo lo.
Proof. split; [auto|apply lwritten_refl]. Qed.

Lemma written_other m m' B pos val lo hi b :
  written m m' B pos val lo hi -> b <> B -> m' b = m b.
Proof. intros (H & _) Hb. auto. Qed.

Lemma written_length m m' B pos val lo hi :
  written m m' B pos val lo hi -> length (m' B) = length (m B).
Proof. intros (_ & H). exact (lwritten_length H). Qed.

Lemma written_at m m' B pos val lo hi i :
  written m m' B pos val lo hi -> lo <= i < hi ->
  elt (m' B) (pos i) = val i.
Proof. intros (_ & H). exact (lwritten_at H). Qed.

Lemma written_frame m m' B pos val lo hi j :
  written m m' B pos val lo hi ->
  (forall i, lo <= i < hi -> pos i <> j) ->
  elt (m' B) j = elt (m B) j.
Proof. intros (_ & H). exact (lwritten_frame H). Qed.

Lemma written_step m m' B pos val lo i :
  lo <= i ->
  written m m' B pos val lo i ->
  pos i < length (m B) ->
  (forall j, lo <= j < i -> pos j <> pos i) ->
  written m (set_block m' B (upd (m' B) (pos i) (val i))) B pos val lo (S i).
Proof.
  intros Hlo (Ho & H) Hb Hinj. split.
  - intros b Hb'. rewrite set_block_ne by assumption. auto.
  - rewrite set_block_eq. now apply lwritten_step.
Qed.

Lemma written_trans m m1 m2 B pos val lo mid hi :
  lo <= mid <= hi ->
  written m m1 B pos val lo mid ->
  written m1 m2 B pos val mid hi ->
  (forall i j, lo <= i < mid -> mid <= j < hi -> pos i <> pos j) ->
  written m m2 B pos val lo hi.
Proof.
  intros Hr (Ho1 & H1) (Ho2 & H2) Hinj. split.
  - intros b Hb. rewrite Ho2, Ho1 by assumption. reflexivity.
  - eapply lwritten_trans; eauto.
Qed.

Lemma written_over m m1 m2 B pos v1 v2 lo hi :
  written m m1 B pos v1 lo hi ->
  written m1 m2 B pos v2 lo hi ->
  written m m2 B pos v2 lo hi.
Proof.
  intros (Ho1 & H1) (Ho2 & H2). split.
  - intros b Hb. rewrite Ho2, Ho1 by assumption. reflexivity.
  - eapply lwritten_over; eauto.
Qed.

Lemma written_ext m m' B pos v1 v2 lo hi :
  written m m' B pos v1 lo hi ->
  (forall i, lo <= i < hi -> v1 i = v2 i) ->
  written m m' B pos v2 lo hi.
Proof.
  intros (Ho & H) E. split; [exact Ho|]. eapply lwritten_ext; eauto.
Qed.

Lemma written_reindex m m' B pos val d n :
  written m m' B (fun j => pos (d + j)) (fun j => val (d + j)) 0 n ->
  written m m' B pos val d (d + n).
Proof.
  intros (Ho & H). split; [exact Ho|]. now apply lwritten_reindex.
Qed.

(** The written part of the block, as a slice. *)
Lemma slice_written m m' B val base n :
  written m m' B (fun i => base + i) val 0 n ->
  base + n <= length (m B) ->
  slice (m' B) base n = map val (seq 0 n).
Proof.
  intros W Hb.
  rewrite slice_seq by (rewrite (written_length W); exact Hb).
  apply map_ext_in. intros i Hi. apply in_seq in Hi.
  apply (written_at W). lia.
Qed.

(** A loop whose every iteration ends in one write, to a position of
    its own, and accumulates as [step]. *)
Lemma runs_write_loop (A : Type) (step : nat -> A -> A) B pos val
      (body : nat -> A -> M data_t A) lo hi a m :
  lo <= hi ->
  (forall i, lo <= i < hi -> pos i < length (m B)) ->
  (forall i j, lo <= i < j -> j < hi -> pos i <> pos j) ->
  (forall i a' m', lo <= i < hi -> written m m' B pos val lo i ->
     runs (body i a') m'
          (fun r m'' => r = step i a' /\
                        m'' = set_block m' B (upd (m' B) (pos i) (val i)))) ->
  runs (for_loop lo hi body a) m
       (fun r m' => r = iter_acc step lo (hi - lo) a /\
                    written m m' B pos val lo hi).
Proof.
  intros Hle Hb Hinj Hbody.
  apply (runs_for_loop
           (fun i a' m' => a' = iter_acc step lo (i - lo) a /\
                           written m m' B pos val lo i)).
  - exact Hle.
  - rewrite Nat.sub_diag. split; [reflexivity|apply written_refl].
  - intros i a' m' Hi [-> W].
    eapply runs_weaken; [apply Hbody; [exact Hi|exact W]|].
    intros r m'' [-> ->]. split.
    + replace (S i - lo) with (S (i - lo)) by lia.
      rewrite iter_acc_snoc. f_equal. lia.
    + apply written_step; auto; try lia.
      intros j Hj. apply Hinj; lia.
Qed.

End LoopFacts.

(** ** The five primitives *)

Section PrimitiveFacts.

Context {data_t : Type} {ops : DataOps data_t}.

Variable flags : build_flags.

Implicit Types (m : mem data_t) (p x y : ptr) (l : list data_t).

Lemma nth_slice l off n i :
  i < n -> off + n <= length l ->
  nth i (slice l off n) d_zero = elt l (off + i).
Proof.
  intros Hi Hb. apply nth_error_nth.
  rewrite nth_error_slice by assumption. apply nth_error_elt. lia.
Qed.

Lemma isamax_scan_lt xs :
  forall i best smax,
    best < i -> isamax_scan xs i best smax < i + length xs.
Proof.
  induction xs as [|x r IH]; intros i best smax H; simpl.
  - lia.
  - destruct (d_ltb smax (d_abs x)).
    + specialize (IH (S i) i (d_abs x)). lia.
    + specialize (IH (S i) best smax). lia.
Qed.

(** [_max] reads its slice only and returns [max_value]. *)
Lemma _max_spec n x m :
  1 <= n ->
  p_off x + n <= length (m (p_blk x)) ->
  runs (_max flags n x) m
       (fun r m' => r = max_value flags (slice (m (p_blk x)) (p_off x) n)
                    /\ m' = m).
Proof.
  intros Hn Hb. unfold _max, max_value.
  destruct n as [|n]; [lia|].
  rewrite slice_cons by lia.
  destruct (USE_CBLAS flags).
  - unfold cblas_isamax.
    apply runs_bind, runs_bind, runs_load_slice; [exact Hb|].
    apply runs_ret. rewrite slice_cons by lia.
    set (r := slice (m (p_blk x)) (S (p_off x)) n).
    set (x0 := elt (m (p_blk x)) (p_off x)).
    assert (Hidx : isamax_scan r 1 0 (d_abs x0) < S n).
    { pose proof (@isamax_scan_lt r 1 0 (d_abs x0)) as H.
      unfold r in H at 2. rewrite length_slice in H by lia. lia. }
    apply runs_load; [lia|].
    split; [|reflexivity].
    unfold amax_elt. subst r x0.
    rewrite <- slice_cons by lia.
    symmetry. apply nth_slice; lia.
  - apply runs_bind, runs_load; [lia|].
    eapply runs_weaken.
    + apply (runs_for_loop_pure
               (fun c acc => nstl_max acc (elt (m (p_blk x)) (p_off x + c))));
        [lia|].
      intros i a' Hi.
      apply runs_bind, runs_load; [lia|].
      apply runs_ret. auto.
    + intros r m' [-> ->]. split; [|reflexivity].
      replace (S n - 1) with n by lia.
      rewrite (@iter_acc_fold _ _ nstl_max) by lia.
      rewrite Nat.add_0_r, Nat.add_1_r. reflexivity.
Qed.

(** [_sum] reads its slice only and returns [sum_value]. *)
Lemma _sum_spec n x m :
  p_off x + n <= length (m (p_blk x)) ->
  runs (_sum flags n x) m
       (fun r m' => r = sum_value flags (slice (m (p_blk x)) (p_off x) n)
                    /\ m' = m).
Proof.
  intros Hb. unfold _sum, sum_value, cblas_sasum.
  destruct (USE_CBLAS flags).
  - apply runs_bind. eapply runs_weaken.
    + apply (runs_for_loop_pure
               (fun c ts => ts ++ [d_abs (elt (m (p_blk x)) (p_off x + c))]));
        [lia|].
      intros i a' Hi.
      apply runs_bind, runs_load; [lia|].
      apply runs_ret. auto.
    + intros r m' [-> ->]. apply runs_ret. split; [|reflexivity].
      rewrite Nat.sub_0_r, (iter_acc_collect d_abs) by lia. reflexivity.
  - apply runs_bind. eapply runs_weaken.
    + apply (runs_for_loop_pure
               (fun c ts => ts ++ [elt (m (p_blk x)) (p_off x + c)]));
        [lia|].
      intros i a' Hi.
      apply runs_bind, runs_load; [lia|].
      apply runs_ret. auto.
    + intros r m' [-> ->]. apply runs_ret. split; [|reflexivity].
      rewrite Nat.sub_0_r, (iter_acc_collect (fun v => v)) by lia.
      now rewrite map_id.
Qed.

(** [y[d+i] = g(x[d+i])] for [lo <= i < hi], between two blocks. *)
Lemma runs_copy_loop (g : data_t -> data_t) x y d lo hi m0 m :
  p_blk x <> p_blk y ->
  lo <= hi ->
  p_off x + (d + hi) <= length (m0 (p_blk x)) ->
  p_off y + (d + hi) <= length (m0 (p_blk y)) ->
  m (p_blk x) = m0 (p_blk x) ->
  length (m (p_blk y)) = length (m0 (p_blk y)) ->
  runs (for_loop lo hi
          (fun i _ => bind (load x (d + i))
                           (fun xv => store y (d + i) (g xv))) tt) m
       (fun _ m' =>
          written m m' (p_blk y) (fun i => p_off y + (d + i))
                  (fun i => g (elt (m0 (p_blk x)) (p_off x + (d + i)))) lo hi).
Proof.
  intros Hxy Hle Hbx Hby Hx Hy.
  eapply runs_weaken.
  - apply runs_write_loop
      with (step := fun _ (u : unit) => u) (B := p_blk y)
           (pos := fun i => p_off y + (d + i))
           (val := fun i => g (elt (m0 (p_blk x)) (p_off x + (d + i))));
      [exact Hle| intros; lia | intros; lia |].
    intros i [] m' Hi W.
    pose proof (written_other W Hxy) as Ex.
    pose proof (written_length W) as El.
    apply runs_bind, runs_load; [rewrite Ex, Hx; lia|].
    apply runs_store; [lia|].
    rewrite Ex, Hx. auto.
  - intros r m' [_ W]. exact W.
Qed.

(** [x[i] = g(x[i])] for [lo <= i < hi], in place. *)
Lemma runs_map_loop (g : data_t -> data_t) x lo hi m :
  lo <= hi ->
  p_off x + hi <= length (m (p_blk x)) ->
  runs (for_loop lo hi
          (fun i _ => bind (load x i) (fun v => store x i (g v))) tt) m
       (fun _ m' =>
          written m m' (p_blk x) (fun i => p_off x + i)
                  (fun i => g (elt (m (p_blk x)) (p_off x + i))) lo hi).
Proof.
  intros Hle Hb.
  eapply runs_weaken.
  - apply runs_write_loop
      with (step := fun _ (u : unit) => u) (B := p_blk x)
           (pos := fun i => p_off x + i)
           (val := fun i => g (elt (m (p_blk x)) (p_off x + i)));
      [exact Hle| intros; lia | intros; lia |].
    intros i [] m' Hi W.
    pose proof (written_length W) as El.
    apply runs_bind, runs_load; [lia|].
    apply runs_store; [lia|].
    rewrite (written_frame W) by (intros; lia). auto.
  - intros r m' [_ W]. exact W.
Qed.

(** [_sub] writes [y[i] = x[i] - alpha] for every [i < n]. *)
Lemma _sub_spec n alpha x y m :
  p_blk x <> p_blk y ->
  p_off x + n <= length (m (p_blk x)) ->
  p_off y + n <= length (m (p_blk y)) ->
  runs (_sub n alpha x y) m
       (fun _ m' =>
          written m m' (p_blk y) (fun i => p_off y + i)
                  (fun i => d_sub (elt (m (p_blk x)) (p_off x + i)) alpha)
                  0 n).
Proof.
  intros Hxy Hbx Hby. unfold _sub. cbv zeta.
  set (pos := fun i => p_off y + i).
  set (val := fun i => d_sub (elt (m (p_blk x)) (p_off x + i)) alpha).
  assert (Hq : n - n mod unroll_factor = 0 + (n / unroll_factor) * unroll_factor).
  { pose proof (Nat.div_mod_eq n unroll_factor). lia. }
  assert (Hqn : (n / unroll_factor) * unroll_factor <= n).
  { pose proof (Nat.div_mod_eq n unroll_factor). lia. }
  apply runs_bind. rewrite Hq.
  eapply runs_weaken.
  - apply (runs_for_step
             (fun k m' => written m m' (p_blk y) pos val 0 (k * unroll_factor))).
    + unfold unroll_factor. lia.
    + apply written_refl.
    + intros k m1 Hk W. rewrite Nat.add_0_l.
      assert (Hk' : k * unroll_factor + unroll_factor <= n) by nia.
      eapply runs_weaken.
      * apply runs_copy_loop
          with (g := fun v => d_sub v alpha) (d := k * unroll_factor)
               (m0 := m);
          try lia; try assumption.
        -- apply (written_other W). auto.
        -- apply (written_length W).
      * intros [] m2 W2. cbv beta.
        replace (S k * unroll_factor)
          with (k * unroll_factor + unroll_factor) by lia.
        apply written_trans with (m1 := m1) (mid := k * unroll_factor);
          [lia|exact W| |unfold pos; intros; lia].
        apply written_reindex with (pos := pos) (val := val). exact W2.
  - intros [] m1 W. cbv beta in W. simpl Nat.add.
    eapply runs_weaken.
    + apply runs_copy_loop
        with (g := fun v => d_sub v alpha) (d := 0) (m0 := m);
        try lia; try assumption.
      * apply (written_other W). auto.
      * apply (written_length W).
    + intros [] m2 W2. cbv beta.
      apply written_trans
        with (m1 := m1) (mid := (n / unroll_factor) * unroll_factor);
        [lia|exact W|exact W2|unfold pos; intros; lia].
Qed.

(** [_exp], in place: [r[i] = exp(r[i])] for every [i < n]. *)
Lemma _exp_spec n r m :
  p_off r + n <= length (m (p_blk r)) ->
  runs (_exp flags n r r) m
       (fun _ m' =>
          written m m' (p_blk r) (fun i => p_off r + i)
                  (fun i => d_exp (elt (m (p_blk r)) (p_off r + i))) 0 n).
Proof.
  intros Hb. unfold _exp, vsExp, parallel_nd.
  destruct (USE_MKL flags); apply runs_map_loop with (g := d_exp); lia.
Qed.

(** [_scal]: [x[i] = x[i] * alpha] for every [i < n]. *)
Lemma _scal_spec n alpha x m :
  p_off x + n <= length (m (p_blk x)) ->
  runs (_scal flags n alpha x) m
       (fun _ m' =>
          written m m' (p_blk x) (fun i => p_off x + i)
                  (fun i => d_mul (elt (m (p_blk x)) (p_off x + i)) alpha)
                  0 n).
Proof.
  intros Hb. unfold _scal, cblas_sscal, parallel_nd.
  destruct (USE_CBLAS flags);
    apply runs_map_loop with (g := fun v => d_mul v alpha); lia.
Qed.

End PrimitiveFacts.

(** ** The dense forward kernel *)

Section DenseForwardFacts.

Context {data_t : Type} {ops : DataOps data_t}.

Variable flags : build_flags.
Variable self : softmax_t.

Implicit Types (m : mem data_t) (l : list data_t).

Lemma slice_ext l l' off n :
  (forall i, i < n -> nth_error l (off + i) = nth_error l' (off + i)) ->
  slice l off n = slice l' off n.
Proof.
  intros H. apply nth_error_ext. intros i. unfold slice.
  rewrite !nth_error_firstn.
  destruct (Nat.ltb_spec i n); [|reflexivity].
  rewrite !nth_error_skipn. auto.
Qed.

Lemma softmax_slice_seq xs :
  softmax_slice flags xs = map (dense_out flags xs) (seq 0 (length xs)).
Proof.
  unfold softmax_slice, dense_out. cbv zeta. rewrite !map_map.
  apply nth_error_ext. intros i.
  rewrite !nth_error_map, nth_error_seq.
  destruct (Nat.ltb_spec i (length xs)) as [Hi|Hi]; simpl.
  - rewrite (nth_error_nth' xs d_zero Hi). reflexivity.
  - apply nth_error_None in Hi. now rewrite Hi.
Qed.

(** One iteration of the outer loop: the five primitives in sequence. *)
Lemma dense_forward_body ou m :
  1 <= channels_ self ->
  ou * channels_ self + channels_ self <= length (m Src) ->
  ou * channels_ self + channels_ self <= length (m Dst) ->
  runs (let src_data := ptr_add src (ou * channels_ self) in
        let dst_data := ptr_add dst (ou * channels_ self) in
        bind (_max flags (channels_ self) src_data) (fun scalar =>
        bind (_sub (channels_ self) scalar src_data dst_data) (fun _ =>
        bind (_exp flags (channels_ self) dst_data dst_data) (fun _ =>
        bind (_sum flags (channels_ self) dst_data) (fun scalar0 =>
        _scal flags (channels_ self) (d_div d_one scalar0) dst_data))))) m
       (fun _ m' =>
          written m m' Dst (fun i => ou * channels_ self + i)
                  (dense_out flags (slice (m Src) (ou * channels_ self)
                                          (channels_ self)))
                  0 (channels_ self)).
Proof.
  intros Hn Hs Hd. cbv zeta.
  set (n := channels_ self) in *. set (base := ou * n) in *.
  set (xs := slice (m Src) base n).
  apply runs_bind. eapply runs_weaken.
  { apply _max_spec; simpl; [exact Hn|lia]. }
  intros mx m' [Emx ->]. simpl in Emx. fold xs in Emx.
  apply runs_bind. eapply runs_weaken.
  { apply _sub_spec; simpl; [discriminate|lia|lia]. }
  intros [] ma Wa. simpl in Wa.
  pose proof (written_length Wa) as La.
  apply runs_bind. eapply runs_weaken.
  { apply _exp_spec; simpl. lia. }
  intros [] mb Wb. simpl in Wb.
  pose proof (written_length Wb) as Lb.
  apply runs_bind. eapply runs_weaken.
  { apply _sum_spec; simpl. lia. }
  intros dn m' [Edn ->]. simpl in Edn.
  eapply runs_weaken.
  { apply _scal_spec; simpl. lia. }
  intros [] mc Wc. simpl in Wc.
  assert (Eb : forall i, i < n ->
             elt (mb Dst) (base + i)
             = d_exp (d_sub (elt (m Src) (base + i)) mx)).
  { intros i Hi. rewrite (written_at Wb) by lia.
    rewrite (written_at Wa) by lia. reflexivity. }
  assert (Es : slice (mb Dst) base n
               = map (fun x => d_exp (d_sub x mx)) xs).
  { rewrite slice_seq by lia. unfold xs.
    rewrite slice_seq by lia. rewrite map_map.
    apply map_ext_in. intros i Hi. apply in_seq in Hi. apply Eb. lia. }
  apply written_over with (m1 := ma) (v1 := fun i =>
            d_sub (elt (m Src) (base + i)) mx); [exact Wa|].
  apply written_over with (m1 := mb) (v1 := fun i =>
            d_exp (elt (ma Dst) (base + i))); [exact Wb|].
  eapply written_ext; [exact Wc|].
  intros i Hi. cbv beta. unfold dense_out. cbv zeta.
  rewrite Eb by lia. rewrite Edn, Es, <- Emx.
  unfold xs. rewrite nth_slice by lia. reflexivity.
Qed.

(** The dense forward kernel, in every build: it runs without a fault,
    leaves in every outer group's slice of [dst] the softmax of the
    matching slice of [src], and changes nothing else. *)
Lemma execute_forward_dense_spec m :
  1 <= channels_ self ->
  outer_size_ self * channels_ self <= length (m Src) ->
  outer_size_ self * channels_ self <= length (m Dst) ->
  runs (execute_forward_dense flags self) m
       (fun _ m' => dense_forward_inv flags self m (outer_size_ self) m').
Proof.
  intros Hn Hs Hd. unfold execute_forward_dense, parallel_nd.
  set (n := channels_ self) in *.
  apply (runs_for_loop
           (fun ou (_ : unit) m' => dense_forward_inv flags self m ou m')).
  - lia.
  - repeat split; auto. intros ou' H. lia.
  - intros ou [] m1 Hou (Ho & Hl & Hdone & Hrest).
    assert (Hb : ou * n + n <= outer_size_ self * n) by nia.
    eapply runs_weaken.
    { apply dense_forward_body; fold n; try lia.
      rewrite Ho by discriminate. lia. }
    intros [] m2 W. cbv beta. fold n in W.
    split; [|split; [|split]].
    + intros b Hb'. rewrite (written_other W Hb'). auto.
    + rewrite (written_length W). exact Hl.
    + intros ou' Hou'. fold n.
      destruct (Nat.eq_dec ou' ou) as [->|Hne].
      * erewrite slice_written; [|exact W|lia].
        rewrite (Ho Src) by discriminate.
        rewrite softmax_slice_seq, length_slice by lia. reflexivity.
      * rewrite <- Hdone by lia. fold n.
        apply slice_ext. intros i Hi.
        destruct W as (_ & _ & _ & Hf). apply Hf.
        intros k Hk. assert (ou' * n + n <= ou * n) by nia. lia.
    + intros j Hj. fold n in Hj.
      destruct W as (_ & _ & _ & Hf). rewrite Hf; [apply Hrest; nia|].
      intros k Hk. simpl in Hj. lia.
Qed.

End DenseForwardFacts.

(** ** The generic forward kernel *)

Section GenericForwardFacts.

Context {data_t : Type} {ops : DataOps data_t}.

Variable self : softmax_t.
Variable data_d : memory_desc_wrapper.

Implicit Types (m : mem data_t) (l : list data_t).

Lemma written_id m B pos val lo hi :
  (forall i, lo <= i < hi -> nth_error (m B) (pos i) = Some (val i)) ->
  written m m B pos val lo hi.
Proof. intros H. split; [auto|now apply lwritten_id]. Qed.

Lemma written_set m m' B pos val lo hi i0 v :
  written m m' B pos val lo hi ->
  lo <= i0 < hi ->
  pos i0 < length (m B) ->
  (forall j, lo <= j < hi -> j <> i0 -> pos j <> pos i0) ->
  written m (set_block m' B (upd (m' B) (pos i0) v)) B pos
          (fun i => if i =? i0 then v else val i) lo hi.
Proof.
  intros (Ho & H) Hi Hb Hinj. split.
  - intros b Hb'. rewrite set_block_ne by assumption. auto.
  - rewrite set_block_eq. now apply lwritten_set.
Qed.

Lemma column_upto_S l ou i k :
  column_upto self data_d l ou i (S k)
  = column_upto self data_d l ou i k ++ [elt l (at_ self data_d ou k i)].
Proof.
  unfold column_upto. rewrite seq_S, map_app. reflexivity.
Qed.

(** The first sweep folds every column of the group into its cell of
    [space_max], starting from what the cell holds. *)
Lemma max_sweep_spec smax ou m :
  p_blk smax <> Src ->
  p_off smax + inner_size_ self <= length (m (p_blk smax)) ->
  (forall c i, c < channels_ self -> i < inner_size_ self ->
               at_ self data_d ou c i < length (m Src)) ->
  runs (max_sweep self data_d smax ou) m
       (fun _ m' =>
          written m m' (p_blk smax) (fun i => p_off smax + i)
                  (fun i => fold_left nstl_max
                              (column self data_d (m Src) ou i)
                              (elt (m (p_blk smax)) (p_off smax + i)))
                  0 (inner_size_ self)).
Proof.
  intros Hsrc Hb Hs. unfold max_sweep.
  set (SB := p_blk smax) in *. set (a := p_off smax) in *.
  set (pmax := fun i k => fold_left nstl_max
                            (column_upto self data_d (m Src) ou i k)
                            (elt (m SB) (a + i))).
  apply (runs_for_loop
           (fun c (_ : unit) m' =>
              written m m' SB (fun i => a + i) (fun i => pmax i c)
                      0 (inner_size_ self))).
  - lia.
  - apply written_id. intros i Hi. apply nth_error_elt. lia.
  - intros c [] m1 Hc W.
    eapply runs_weaken.
    + apply (runs_for_loop
               (fun i' (_ : unit) m' =>
                  written m m' SB (fun i => a + i)
                          (fun i => pmax i (if i <? i' then S c else c))
                          0 (inner_size_ self))).
      * lia.
      * exact W.
      * intros i' [] m2 Hi W2. cbv zeta.
        pose proof (written_length W2) as L2.
        pose proof (written_other W2 (not_eq_sym Hsrc)) as E2.
        apply runs_bind, runs_load; [fold SB a; lia|].
        apply runs_bind, runs_load; [simpl; rewrite E2; apply Hs; lia|].
        apply runs_store; [fold SB a; lia|].
        fold SB a. simpl. rewrite E2.
        rewrite (written_at W2 (i := i')) by lia.
        eapply written_ext.
        -- apply written_set with (i0 := i') (1 := W2); [lia|lia|].
           intros; lia.
        -- intros i Hi'. cbv beta.
           destruct (Nat.eqb_spec i i') as [->|Hne].
           ++ rewrite Nat.ltb_irrefl.
              destruct (Nat.ltb_spec i' (S i')); [|lia].
              unfold pmax. rewrite column_upto_S, fold_left_app.
              reflexivity.
           ++ destruct (Nat.ltb_spec i i'), (Nat.ltb_spec i (S i'));
                try lia; reflexivity.
    + intros [] m2 W2. cbv beta.
      eapply written_ext; [exact W2|].
      intros i Hi. cbv beta.
      destruct (Nat.ltb_spec i (inner_size_ self)); [reflexivity|lia].
Qed.

(** The physical offset of the [k]-th element of outer group [ou]. *)
Lemma at_flat ou c i :
  at_ self data_d ou c i
  = off_l data_d (ou * (channels_ self * inner_size_ self)
                  + (c * inner_size_ self + i)).
Proof. unfold at_. cbv zeta. now rewrite Nat.add_assoc. Qed.

Lemma mod_flat c n i : i < n -> (c * n + i) mod n = i.
Proof.
  intros H. rewrite Nat.add_comm, Nat.Div0.mod_add.
  now apply Nat.mod_small.
Qed.

(** The third sweep divides every element of the group by the
    denominator of its inner index. *)
Lemma div_sweep_spec sden ou m :
  p_blk sden <> Dst ->
  p_off sden + inner_size_ self <= length (m (p_blk sden)) ->
  (forall k, k < channels_ self * inner_size_ self ->
             off_l data_d (ou * (channels_ self * inner_size_ self) + k)
             < length (m Dst)) ->
  (forall k k', k < channels_ self * inner_size_ self ->
                k' < channels_ self * inner_size_ self ->
                off_l data_d (ou * (channels_ self * inner_size_ self) + k)
                = off_l data_d (ou * (channels_ self * inner_size_ self) + k')
                -> k = k') ->
  runs (div_sweep self data_d sden ou) m
       (fun _ m' =>
          written m m' Dst
                  (fun k => off_l data_d
                              (ou * (channels_ self * inner_size_ self) + k))
                  (fun k => d_div
                              (elt (m Dst)
                                   (off_l data_d
                                      (ou * (channels_ self * inner_size_ self)
                                       + k)))
                              (elt (m (p_blk sden))
                                   (p_off sden + k mod inner_size_ self)))
                  0 (channels_ self * inner_size_ self)).
Proof.
  intros Hsb Hb Hd Hinj. unfold div_sweep.
  set (n := inner_size_ self) in *. set (C := channels_ self) in *.
  set (pos := fun k => off_l data_d (ou * (C * n) + k)).
  set (val := fun k => d_div (elt (m Dst) (pos k))
                             (elt (m (p_blk sden)) (p_off sden + k mod n))).
  apply (runs_for_loop
           (fun c (_ : unit) m' => written m m' Dst pos val 0 (c * n))).
  - lia.
  - apply written_refl.
  - intros c [] m1 Hc W.
    eapply runs_weaken.
    + apply (runs_for_loop
               (fun i' (_ : unit) m' =>
                  written m m' Dst pos val 0 (c * n + i'))).
      * lia.
      * rewrite Nat.add_0_r. exact W.
      * intros i' [] m2 Hi W2. cbv zeta.
        assert (Hk : c * n + i' < C * n) by nia.
        pose proof (written_length W2) as L2.
        pose proof (written_other W2 Hsb) as E2.
        rewrite at_flat. fold n C. change (off_l data_d (ou * (C * n) + (c * n + i')))
          with (pos (c * n + i')).
        apply runs_bind, runs_load; [simpl; rewrite L2; apply Hd; lia|].
        apply runs_bind, runs_load; [rewrite E2; lia|].
        apply runs_store; [simpl; rewrite L2; apply Hd; lia|].
        simpl. rewrite E2.
        rewrite (written_frame W2)
          by (intros k Hk' E; apply Hinj in E; lia).
        replace (d_div (elt (m Dst) (pos (c * n + i')))
                       (elt (m (p_blk sden)) (p_off sden + i')))
          with (val (c * n + i'))
          by (unfold val; now rewrite mod_flat by lia).
        replace (c * n + S i') with (S (c * n + i')) by lia.
        apply written_step; [lia|exact W2|apply Hd; lia|].
        intros k Hk' E. apply Hinj in E; lia.
    + intros [] m2 W2. cbv beta.
      replace (S c * n) with (c * n + n) by lia. exact W2.
Qed.

(** The second sweep writes the exponentials to [dst] and adds each to
    the denominator cell of its inner index. *)
Lemma exp_sweep_spec SB a b ou m :
  SB <> Src -> SB <> Dst ->
  a + inner_size_ self <= b ->
  b + inner_size_ self <= length (m SB) ->
  (forall k, k < channels_ self * inner_size_ self ->
             off_l data_d (ou * (channels_ self * inner_size_ self) + k)
             < length (m Src)) ->
  (forall k, k < channels_ self * inner_size_ self ->
             off_l data_d (ou * (channels_ self * inner_size_ self) + k)
             < length (m Dst)) ->
  (forall k k', k < channels_ self * inner_size_ self ->
                k' < channels_ self * inner_size_ self ->
                off_l data_d (ou * (channels_ self * inner_size_ self) + k)
                = off_l data_d (ou * (channels_ self * inner_size_ self) + k')
                -> k = k') ->
  runs (exp_sweep self data_d (mkptr SB a) (mkptr SB b) ou) m
       (fun _ m' =>
          (forall blk, blk <> Dst -> blk <> SB -> m' blk = m blk) /\
          lwritten (m Dst) (m' Dst)
                   (fun k => off_l data_d
                               (ou * (channels_ self * inner_size_ self) + k))
                   (fun k => d_exp
                               (d_sub
                                  (elt (m Src)
                                       (off_l data_d
                                          (ou * (channels_ self
                                                 * inner_size_ self) + k)))
                                  (elt (m SB) (a + k mod inner_size_ self))))
                   0 (channels_ self * inner_size_ self) /\
          lwritten (m SB) (m' SB) (fun i => b + i)
                   (fun i => fold_left d_add
                               (map (fun x => d_exp
                                                (d_sub x (elt (m SB) (a + i))))
                                    (column self data_d (m Src) ou i))
                               (elt (m SB) (b + i)))
                   0 (inner_size_ self)).
Proof.
  intros HsS HsD Hab Hb Hs Hd Hinj. unfold exp_sweep.
  set (n := inner_size_ self) in *. set (C := channels_ self) in *.
  set (pos := fun k => off_l data_d (ou * (C * n) + k)).
  set (vexp := fun k => d_exp (d_sub (elt (m Src) (pos k))
                                     (elt (m SB) (a + k mod n)))).
  set (pden := fun i k =>
                 fold_left d_add
                   (map (fun x => d_exp (d_sub x (elt (m SB) (a + i))))
                        (column_upto self data_d (m Src) ou i k))
                   (elt (m SB) (b + i))).
  set (Inv := fun (k : nat) (cnt : nat -> nat) (m' : mem data_t) =>
                (forall blk, blk <> Dst -> blk <> SB -> m' blk = m blk) /\
                lwritten (m Dst) (m' Dst) pos vexp 0 k /\
                lwritten (m SB) (m' SB) (fun i => b + i)
                         (fun i => pden i (cnt i)) 0 n).
  apply (runs_for_loop (fun c (_ : unit) m' => Inv (c * n) (fun _ => c) m')).
  - lia.
  - split; [auto|split].
    + apply lwritten_refl.
    + apply lwritten_id. intros i Hi. apply nth_error_elt. lia.
  - intros c [] m1 Hc HI.
    eapply runs_weaken.
    + apply (runs_for_loop
               (fun i' (_ : unit) m' =>
                  Inv (c * n + i')
                      (fun i => if i <? i' then S c else c) m')).
      * lia.
      * rewrite Nat.add_0_r. exact HI.
      * intros i' [] m2 Hi (Ho & WD & WS). cbv zeta.
        assert (Hk : c * n + i' < C * n) by nia.
        pose proof (lwritten_length WD) as LD.
        pose proof (lwritten_length WS) as LS.
        assert (ES : m2 Src = m Src) by (apply Ho; congruence).
        rewrite at_flat. fold n C.
        change (off_l data_d (ou * (C * n) + (c * n + i')))
          with (pos (c * n + i')).
        apply runs_bind, runs_load; [simpl; rewrite ES; apply Hs; lia|].
        apply runs_bind, runs_load; [simpl; lia|].
        apply runs_bind, runs_store; [simpl; rewrite LD; apply Hd; lia|].
        apply runs_bind, runs_load;
          [simpl; rewrite set_block_ne by assumption; lia|].
        apply runs_store;
          [simpl; rewrite set_block_ne by assumption; lia|].
        simpl. rewrite ES. rewrite !set_block_ne by assumption.
        rewrite (lwritten_frame WS (j := a + i')) by (intros; lia).
        rewrite (lwritten_at WS (i := i')) by lia.
        rewrite Nat.ltb_irrefl.
        replace (d_exp (d_sub (elt (m Src) (pos (c * n + i')))
                              (elt (m SB) (a + i'))))
          with (vexp (c * n + i'))
          by (unfold vexp; now rewrite mod_flat by lia).
        split; [|split].
        -- intros blk H1 H2. rewrite !set_block_ne by assumption. auto.
        -- rewrite set_block_ne by congruence. rewrite set_block_eq.
           replace (c * n + S i') with (S (c * n + i')) by lia.
           apply lwritten_step; [lia|exact WD|apply Hd; lia|].
           intros k Hk' E. apply Hinj in E; lia.
        -- rewrite set_block_eq.
           eapply lwritten_ext.
           ++ apply lwritten_set with (i0 := i') (1 := WS); [lia|lia|].
              intros; lia.
           ++ intros i Hi'. cbv beta.
              destruct (Nat.eqb_spec i i') as [->|Hne].
              ** destruct (Nat.ltb_spec i' (S i')); [|lia].
                 unfold pden. rewrite column_upto_S, map_app, fold_left_app.
                 simpl. unfold vexp. rewrite mod_flat by lia.
                 rewrite at_flat. reflexivity.
              ** destruct (Nat.ltb_spec i i'), (Nat.ltb_spec i (S i'));
                   try lia; reflexivity.
    + intros [] m2 (Ho & WD & WS). cbv beta.
      split; [exact Ho|split].
      * replace (S c * n) with (c * n + n) by lia. exact WD.
      * eapply lwritten_ext; [exact WS|].
        intros i Hi. cbv beta.
        destruct (Nat.ltb_spec i n); [reflexivity|lia].
Qed.

Lemma array_set_spec arr v size m :
  p_off arr + size <= length (m (p_blk arr)) ->
  runs (array_set arr v size) m
       (fun _ m' => written m m' (p_blk arr) (fun i => p_off arr + i)
                            (fun _ => v) 0 size).
Proof.
  intros Hb. unfold array_set.
  eapply runs_weaken.
  - apply runs_write_loop
      with (step := fun _ (u : unit) => u) (B := p_blk arr)
           (pos := fun i => p_off arr + i) (val := fun _ : nat => v);
      [lia|intros; lia|intros; lia|].
    intros i [] m' Hi W.
    pose proof (written_length W) as L.
    apply runs_store; [lia|]. auto.
  - intros r m' [_ W]. exact W.
Qed.

(** One outer group of the generic kernel. *)
Lemma forward_generic_group_spec SB a b ou m :
  space_max self = mkptr SB a ->
  space_denom self = mkptr SB b ->
  SB <> Src -> SB <> Dst ->
  a + inner_size_ self <= b ->
  b + inner_size_ self <= length (m SB) ->
  (forall k, k < channels_ self * inner_size_ self ->
             off_l data_d (ou * (channels_ self * inner_size_ self) + k)
             < length (m Src)) ->
  (forall k, k < channels_ self * inner_size_ self ->
             off_l data_d (ou * (channels_ self * inner_size_ self) + k)
             < length (m Dst)) ->
  (forall k k', k < channels_ self * inner_size_ self ->
                k' < channels_ self * inner_size_ self ->
                off_l data_d (ou * (channels_ self * inner_size_ self) + k)
                = off_l data_d (ou * (channels_ self * inner_size_ self) + k')
                -> k = k') ->
  runs (forward_generic_group self data_d ou) m
       (fun _ m' =>
          (forall blk, blk <> Dst -> blk <> SB -> m' blk = m blk) /\
          length (m' SB) = length (m SB) /\
          lwritten (m Dst) (m' Dst)
                   (fun k => off_l data_d
                               (ou * (channels_ self * inner_size_ self) + k))
                   (fun k => generic_out
                               (column self data_d (m Src) ou
                                       (k mod inner_size_ self))
                               (elt (m Src)
                                    (off_l data_d
                                       (ou * (channels_ self
                                              * inner_size_ self) + k))))
                   0 (channels_ self * inner_size_ self)).
Proof.
  intros Esm Esd HsS HsD Hab Hb Hs Hd Hinj.
  unfold forward_generic_group, init_scratch. rewrite Esm, Esd.
  set (n := inner_size_ self) in *. set (C := channels_ self) in *.
  apply runs_bind, runs_bind. eapply runs_weaken.
  { apply array_set_spec. simpl. lia. }
  intros [] m1 W1. simpl in W1.
  pose proof (written_length W1) as L1.
  eapply runs_weaken.
  { apply array_set_spec. simpl. lia. }
  intros [] m2 W2. simpl in W2.
  pose proof (written_length W2) as L2.
  assert (S2 : m2 Src = m Src).
  { rewrite (written_other W2), (written_other W1); congruence. }
  assert (D2 : m2 Dst = m Dst).
  { rewrite (written_other W2), (written_other W1); congruence. }
  apply runs_bind. eapply runs_weaken.
  { apply max_sweep_spec; simpl; [exact HsS|lia|].
    intros c i Hc Hi. rewrite at_flat, S2. apply Hs. fold n C. nia. }
  intros [] m3 W3. simpl in W3.
  pose proof (written_length W3) as L3.
  assert (S3 : m3 Src = m Src).
  { rewrite (written_other W3); congruence. }
  assert (D3 : m3 Dst = m Dst).
  { rewrite (written_other W3); congruence. }
  assert (M3 : forall i, i < n ->
             elt (m3 SB) (a + i)
             = generic_max (column self data_d (m Src) ou i)).
  { intros i Hi. rewrite (written_at W3 (i := i)) by (fold n; lia).
    rewrite S2.
    rewrite (written_frame W2 (j := a + i)) by (intros; lia).
    rewrite (written_at W1 (i := i)) by lia. reflexivity. }
  assert (Z3 : forall i, i < n -> elt (m3 SB) (b + i) = d_zero).
  { intros i Hi.
    rewrite (written_frame W3 (j := b + i)) by (intros; lia).
    apply (written_at W2 (i := i)). lia. }
  apply runs_bind. eapply runs_weaken.
  { apply exp_sweep_spec; fold n C; try assumption; try lia.
    - intros k Hk. rewrite S3. now apply Hs.
    - intros k Hk. rewrite D3. now apply Hd. }
  intros [] m4 (Ho4 & WD4 & WS4). fold n C in WD4, WS4.
  pose proof (lwritten_length WD4) as LD4.
  pose proof (lwritten_length WS4) as LS4.
  eapply runs_weaken.
  { apply div_sweep_spec; fold n C; simpl; try assumption; try lia.
    intros k Hk. rewrite LD4, D3. now apply Hd. }
  intros [] m5 W5. simpl in W5. fold n C in W5.
  split; [|split].
  - intros blk H1 H2.
    rewrite (written_other W5 H1), (Ho4 blk H1 H2).
    rewrite (written_other W3 H2), (written_other W2 H2).
    apply (written_other W1 H2).
  - rewrite (written_other W5 HsD). lia.
  - rewrite <- D3.
    eapply lwritten_ext.
    + eapply lwritten_over; [exact WD4|]. destruct W5 as [_ W5]. exact W5.
    + intros k Hk. cbv beta.
      assert (Hn : 0 < n) by nia.
      assert (Hm : k mod n < n) by (apply Nat.mod_upper_bound; lia).
      rewrite (lwritten_at WD4 (i := k)) by lia.
      rewrite (lwritten_at WS4 (i := k mod n)) by lia.
      rewrite S3, M3, Z3 by assumption.
      reflexivity.
Qed.

Lemma group_index_lt (O D ou k : nat) :
  ou < O -> k < D -> ou * D + k < O * D.
Proof.
  intros Hou Hk.
  assert (H : S ou * D <= O * D) by (apply Nat.mul_le_mono_r; lia).
  simpl in H. lia.
Qed.

Lemma group_index_inj (D ou ou' k k' : nat) :
  k < D -> k' < D -> ou * D + k = ou' * D + k' -> ou = ou' /\ k = k'.
Proof.
  intros Hk Hk' E.
  destruct (Nat.lt_trichotomy ou ou') as [H|[H|H]].
  - assert (S ou * D <= ou' * D) by (apply Nat.mul_le_mono_r; lia).
    simpl in *. lia.
  - subst. lia.
  - assert (S ou' * D <= ou * D) by (apply Nat.mul_le_mono_r; lia).
    simpl in *. lia.
Qed.

Lemma cell_index_lt (C n c i : nat) :
  c < C -> i < n -> c * n + i < C * n.
Proof. apply group_index_lt. Qed.

Lemma flat_index_split k :
  0 < inner_size_ self ->
  k < channels_ self * inner_size_ self ->
  k = (k / inner_size_ self) * inner_size_ self + k mod inner_size_ self
  /\ k / inner_size_ self < channels_ self
  /\ k mod inner_size_ self < inner_size_ self.
Proof.
  intros Hn Hk.
  pose proof (Nat.div_mod_eq k (inner_size_ self)) as E.
  pose proof (Nat.mod_upper_bound k (inner_size_ self)) as U.
  split; [lia|split; [|lia]].
  apply Nat.Div0.div_lt_upper_bound. lia.
Qed.

(** The generic forward kernel runs without a fault and leaves
    [generic_out] in every element of the tensor. *)
Lemma execute_forward_generic_spec m :
  (1 < inner_size_ self -> 2 * inner_size_ self <= length (m Scratch)) ->
  layout_ok self data_d (length (m Src)) ->
  layout_ok self data_d (length (m Dst)) ->
  runs (execute_forward_generic self data_d) m
       (fun _ m' => generic_forward_inv self data_d m (outer_size_ self) m').
Proof.
  intros Hscr [HbS Hinj] [HbD _]. cbv zeta in HbS, HbD, Hinj.
  unfold execute_forward_generic, runs. cbv zeta.
  set (mst := set_block m Stack [d_zero; d_zero]).
  change (runs (for_loop 0 (outer_size_ self)
                         (fun ou (_ : unit) =>
                            forward_generic_group self data_d ou) tt) mst
               (fun _ m' =>
                  generic_forward_inv self data_d m (outer_size_ self) m')).
  set (n := inner_size_ self) in *. set (C := channels_ self) in *.
  assert (Hgeom : exists SB a b,
             space_max self = mkptr SB a /\ space_denom self = mkptr SB b /\
             SB <> Src /\ SB <> Dst /\ a + n <= b /\
             b + n <= length (mst SB)).
  { assert (L1 : length (mst Scratch) = length (m Scratch)).
    { unfold mst. rewrite set_block_ne; [reflexivity|discriminate]. }
    assert (L2 : length (mst Stack) = 2).
    { unfold mst. rewrite set_block_eq. reflexivity. }
    unfold space_denom, space_max. fold n.
    destruct (Nat.ltb_spec 1 n) as [H1|H1].
    - exists Scratch, 0, n. specialize (Hscr H1).
      repeat split; try discriminate; simpl; lia.
    - exists Stack, 0, 1.
      repeat split; try discriminate; simpl; lia. }
  destruct Hgeom as (SB & a & b & Esm & Esd & HsS & HsD & Hab & Hb).
  assert (ES : mst Src = m Src) by (unfold mst; now rewrite set_block_ne).
  assert (ED : mst Dst = m Dst) by (unfold mst; now rewrite set_block_ne).
  eapply runs_weaken.
  - apply (runs_for_loop
             (fun ou (_ : unit) m' =>
                length (m' SB) = length (mst SB) /\
                generic_forward_inv self data_d m ou m')).
    + lia.
    + split; [reflexivity|]. split; [exact ES|].
      split; [now rewrite ED|].
      split; [intros; lia|intros; now rewrite ED].
    + intros ou [] m1 Hou (LS & S1 & L1 & Hdone & Hrest).
      eapply runs_weaken.
      * apply forward_generic_group_spec with (SB := SB) (a := a) (b := b);
          fold n C; try assumption; try lia.
        -- intros k Hk. rewrite S1. apply HbS. apply group_index_lt; lia.
        -- intros k Hk. rewrite L1. apply HbD. apply group_index_lt; lia.
        -- intros k k' Hk Hk' E.
           apply Hinj in E; try (apply group_index_lt; lia). lia.
      * intros [] m2 (Ho & LS2 & WD). fold n C in WD. cbv beta.
        split; [lia|]. rewrite S1 in WD.
        split; [|split; [|split]].
        -- rewrite Ho by congruence. exact S1.
        -- rewrite (lwritten_length WD). exact L1.
        -- intros ou' c i Hou' Hc Hi. rewrite !at_flat. fold n C.
           assert (Hk : c * n + i < C * n) by (apply cell_index_lt; lia).
           destruct (Nat.eq_dec ou' ou) as [->|Hne].
           ++ rewrite (lwritten_at WD (i := c * n + i)) by lia.
              rewrite mod_flat by lia. reflexivity.
           ++ rewrite (lwritten_frame WD).
              ** rewrite <- !at_flat. apply Hdone; auto; lia.
              ** intros k Hk' E.
                 apply Hinj in E; try (apply group_index_lt; lia).
                 apply group_index_inj in E; lia.
        -- intros j Hj.
           destruct WD as (_ & _ & WF). rewrite WF.
           ++ apply Hrest. intros ou' c i Hou' Hc Hi. apply Hj; auto.
           ++ intros k Hk E.
              assert (Hn : 0 < n) by (destruct n; lia).
              destruct (@flat_index_split k Hn) as (Ek & Hc & Hi);
                [fold n C; lia|]. fold n C in Ek, Hc, Hi.
              apply (Hj ou (k / n) (k mod n)); auto.
              rewrite at_flat. fold n C. rewrite <- Ek. exact E.
  - intros [] m' [_ H]. exact H.
Qed.

End GenericForwardFacts.

(** ** The dense backward kernel *)

Section DenseBackwardFacts.

Context {data_t : Type} {ops : DataOps data_t}.

Variable self : softmax_t.

Implicit Types (m : mem data_t) (l : list data_t).

Lemma iter_acc_seq (A : Type) (step : nat -> A -> A) n :
  forall lo a,
    iter_acc step lo n a
    = fold_left (fun acc i => step i acc) (seq lo n) a.
Proof.
  induction n as [|n IH]; intros lo a; simpl; auto.
Qed.

Lemma fold_left_map (A B X : Type) (f : A -> B -> A) (g : X -> B) xs :
  forall a, fold_left f (map g xs) a = fold_left (fun acc x => f acc (g x)) xs a.
Proof.
  induction xs as [|x xs IH]; intros a; simpl; auto.
Qed.

Lemma combine_map_seq (f g : nat -> data_t) n lo :
  combine (map f (seq lo n)) (map g (seq lo n))
  = map (fun i => (f i, g i)) (seq lo n).
Proof.
  revert lo. induction n as [|n IH]; intros lo; simpl; [reflexivity|].
  now rewrite IH.
Qed.

(** The accumulator of the first loop is the dot product of the two
    slices. *)
Lemma dot_scan_iter g p off n :
  off + n <= length g -> off + n <= length p ->
  iter_acc (fun c acc => d_add acc (d_mul (elt g (off + c)) (elt p (off + c))))
           0 n d_zero
  = dot_scan (slice g off n) (slice p off n).
Proof.
  intros Hg Hp. unfold dot_scan.
  rewrite (@slice_seq _ _ g), (@slice_seq _ _ p) by assumption.
  rewrite combine_map_seq, fold_left_map, iter_acc_seq. reflexivity.
Qed.

(** One outer group of the dense backward kernel. *)
Lemma dense_backward_body ou m :
  channels_ self * ou + channels_ self <= length (m Data) ->
  channels_ self * ou + channels_ self <= length (m DiffDst) ->
  channels_ self * ou + channels_ self <= length (m DiffSrc) ->
  runs (let off := channels_ self * ou in
        bind (for_loop 0 (channels_ self) (fun c sbr =>
                let loff := off + c in
                bind (load data loff) (fun ldata =>
                bind (load diff_dst loff) (fun g =>
                bind (store diff_src loff ldata) (fun _ =>
                ret (d_add sbr (d_mul g ldata)))))) d_zero)
             (fun sbr =>
                for_loop 0 (channels_ self) (fun c _ =>
                  let loff := off + c in
                  bind (load diff_src loff) (fun ds =>
                  bind (load diff_dst loff) (fun g =>
                  store diff_src loff (d_mul ds (d_sub g sbr))))) tt)) m
       (fun _ m' =>
          written m m' DiffSrc (fun c => channels_ self * ou + c)
                  (dense_bwd_out
                     (slice (m Data) (channels_ self * ou) (channels_ self))
                     (slice (m DiffDst) (channels_ self * ou)
                            (channels_ self)))
                  0 (channels_ self)).
Proof.
  intros HP HG HS. cbv zeta.
  set (n := channels_ self) in *. set (off := n * ou) in *.
  apply runs_bind. eapply runs_weaken.
  { apply runs_write_loop
      with (step := fun c acc =>
                      d_add acc (d_mul (elt (m DiffDst) (off + c))
                                       (elt (m Data) (off + c))))
           (B := DiffSrc) (pos := fun c => off + c)
           (val := fun c => elt (m Data) (off + c));
      [lia|intros; lia|intros; lia|].
    intros c sbr m1 Hc W.
    pose proof (written_length W) as L.
    assert (EP : m1 Data = m Data) by (apply (written_other W); discriminate).
    assert (EG : m1 DiffDst = m DiffDst)
      by (apply (written_other W); discriminate).
    apply runs_bind, runs_load; [simpl; rewrite EP; lia|].
    apply runs_bind, runs_load; [simpl; rewrite EG; lia|].
    apply runs_bind, runs_store; [simpl; lia|].
    apply runs_ret. simpl. rewrite EP, EG. auto. }
  intros sbr m1 [Esbr W1]. cbv beta.
  rewrite Nat.sub_0_r, dot_scan_iter in Esbr by lia.
  pose proof (written_length W1) as L1.
  assert (EG : m1 DiffDst = m DiffDst)
    by (apply (written_other W1); discriminate).
  eapply runs_weaken.
  { apply runs_write_loop
      with (step := fun _ (u : unit) => u)
           (B := DiffSrc) (pos := fun c => off + c)
           (val := fun c => d_mul (elt (m1 DiffSrc) (off + c))
                                  (d_sub (elt (m DiffDst) (off + c)) sbr));
      [lia|intros; lia|intros; lia|].
    intros c [] m2 Hc W.
    pose proof (written_length W) as L.
    assert (EG2 : m2 DiffDst = m DiffDst).
    { rewrite (written_other W); [exact EG|discriminate]. }
    apply runs_bind, runs_load; [simpl; lia|].
    apply runs_bind, runs_load; [simpl; rewrite EG2; lia|].
    apply runs_store; [simpl; lia|].
    simpl. rewrite EG2.
    rewrite (written_frame W (j := off + c)) by (intros; lia). auto. }
  intros [] m2 [_ W2]. cbv beta.
  eapply written_ext.
  - eapply written_over; [exact W1|exact W2].
  - intros c Hc. cbv beta. unfold dense_bwd_out.
    rewrite (written_at W1 (i := c)) by lia.
    rewrite !nth_slice by lia. rewrite Esbr. reflexivity.
Qed.

(** The dense backward kernel runs without a fault and leaves
    [dense_bwd_out] in every slice of [diff_src]. *)
Lemma execute_backward_dense_spec m :
  outer_size_ self * channels_ self <= length (m Data) ->
  outer_size_ self * channels_ self <= length (m DiffDst) ->
  outer_size_ self * channels_ self <= length (m DiffSrc) ->
  runs (execute_backward_dense self) m
       (fun _ m' => dense_backward_inv self m (outer_size_ self) m').
Proof.
  intros HP HG HS. unfold execute_backward_dense, parallel_nd.
  set (n := channels_ self) in *.
  apply (runs_for_loop
           (fun ou (_ : unit) m' => dense_backward_inv self m ou m')).
  - lia.
  - repeat split; auto. intros ou' c H. lia.
  - intros ou [] m1 Hou (Ho & Hl & Hdone & Hrest).
    assert (Hb : n * ou + n <= outer_size_ self * n).
    { pose proof (@group_index_lt (outer_size_ self) n ou 0).
      assert (S ou * n <= outer_size_ self * n)
        by (apply Nat.mul_le_mono_r; lia).
      simpl in *. lia. }
    eapply runs_weaken.
    { apply dense_backward_body; fold n; try lia;
        rewrite Ho by discriminate; lia. }
    intros [] m2 W. cbv beta. fold n in W.
    rewrite !(Ho Data), !(Ho DiffDst) in W by discriminate.
    split; [|split; [|split]].
    + intros b Hb'. rewrite (written_other W Hb'). auto.
    + rewrite (written_length W). exact Hl.
    + intros ou' c Hou' Hc. fold n.
      destruct (Nat.eq_dec ou' ou) as [->|Hne].
      * apply (written_at W (i := c)). lia.
      * rewrite (written_frame W).
        -- apply Hdone; [lia|exact Hc].
        -- intros k Hk.
           assert (S ou' * n <= ou * n) by (apply Nat.mul_le_mono_r; lia).
           simpl in *. lia.
    + intros j Hj. fold n in Hj.
      destruct W as (_ & _ & _ & Hf). rewrite Hf; [apply Hrest; lia|].
      intros k Hk. lia.
Qed.

End DenseBackwardFacts.

(** ** Softmax in exact arithmetic *)

Section ExactFacts.

Local Open Scope R_scope.

Lemma fold_left_Rplus (l : list R) :
  forall a, fold_left Rplus l a = a + Rsum l.
Proof.
  induction l as [|x l IH]; intros a; simpl.
  - lra.
  - rewrite IH. lra.
Qed.

Lemma sum_scan_R (l : list R) : sum_scan l = Rsum l.
Proof. unfold sum_scan. simpl. rewrite fold_left_Rplus. lra. Qed.

Lemma Rsum_drop_nth (l : list R) :
  forall k, (k < length l)%nat -> nth k l 0 + Rsum (drop_nth k l) = Rsum l.
Proof.
  induction l as [|a l IH]; intros [|k] H; simpl in *; try lia.
  - reflexivity.
  - rewrite <- (IH k) by lia. lra.
Qed.

(** In exact arithmetic the order of a reduction does not matter. *)
Lemma reduce_terms_R (order : nat -> nat * nat) (fuel : nat) :
  forall k (l : list R),
    (length l <= S fuel)%nat -> reduce_terms order fuel k l = Rsum l.
Proof.
  induction fuel as [|f IH]; intros k l Hl.
  - destruct l as [|a [|b l]]; simpl in *; try lia; lra.
  - destruct l as [|a [|b l]]; [reflexivity|simpl; lra|].
    set (l0 := a :: b :: l) in *.
    change (reduce_terms order (S f) k l0)
      with (let i := (fst (order k) mod length l0)%nat in
            let l1 := drop_nth i l0 in
            let j := (snd (order k) mod length l1)%nat in
            reduce_terms order f (S k)
                         (d_add (nth i l0 d_zero) (nth j l1 d_zero)
                          :: drop_nth j l1)).
    cbv zeta.
    assert (Ll0 : length l0 = S (S (length l))) by reflexivity.
    assert (Hi : (fst (order k) mod length l0 < length l0)%nat)
      by (apply Nat.mod_upper_bound; lia).
    pose proof (length_drop_nth l0 Hi) as L1.
    assert (Hj : (snd (order k)
                  mod length (drop_nth (fst (order k) mod length l0) l0)
                  < length (drop_nth (fst (order k) mod length l0) l0))%nat).
    { apply Nat.mod_upper_bound. lia. }
    pose proof (length_drop_nth _ Hj) as L2.
    rewrite IH
      by (match goal with
          | |- (length (_ :: ?r) <= _)%nat =>
              change (S (length r) <= S f)%nat
          end; lia).
    cbn [Rsum fold_right]. change (@d_add R R_ops) with Rplus.
    change (@d_zero R R_ops) with 0.
    rewrite <- (Rsum_drop_nth l0 Hi).
    rewrite <- (Rsum_drop_nth _ Hj). unfold Rsum. lra.
Qed.

Lemma reduction_R (order : nat -> nat -> nat * nat) (l : list R) :
  reduction order l = Rsum l.
Proof.
  unfold reduction. rewrite reduce_terms_R by (simpl; lia). simpl. lra.
Qed.

Lemma map_Rabs_nonneg (l : list R) :
  (forall x, In x l -> 0 <= x) -> map Rabs l = l.
Proof.
  intros H. rewrite <- (map_id l) at 2. apply map_ext_in.
  intros x Hx. apply Rabs_right, Rle_ge, H, Hx.
Qed.

Lemma sum_value_R flags (l : list R) :
  (forall x, In x l -> 0 <= x) -> sum_value flags l = Rsum l.
Proof.
  intros H. unfold sum_value. rewrite reduction_R.
  destruct (USE_CBLAS flags); [|reflexivity].
  change (@d_abs R R_ops) with Rabs. now rewrite map_Rabs_nonneg.
Qed.

Lemma Rsum_exp_pos (xs : list R) : xs <> [] -> 0 < Rsum (map exp xs).
Proof.
  intros H. destruct xs as [|x xs]; [congruence|]. clear H.
  revert x. induction xs as [|y xs IH]; intros x; simpl.
  - pose proof (exp_pos x). lra.
  - pose proof (exp_pos x). specialize (IH y). simpl in IH. lra.
Qed.

Lemma Rsum_exp_ge (xs : list R) x : In x xs -> exp x <= Rsum (map exp xs).
Proof.
  induction xs as [|y xs IH]; intros H; simpl in *; [tauto|].
  destruct H as [->|H].
  - destruct xs as [|z xs]; [simpl; lra|].
    assert (0 < Rsum (map exp (z :: xs))) by (apply Rsum_exp_pos; congruence).
    lra.
  - pose proof (exp_pos y). specialize (IH H). lra.
Qed.

Lemma Rsum_map_scale (k : R) (l : list R) :
  Rsum (map (fun e => e * k) l) = Rsum l * k.
Proof.
  induction l as [|x l IH]; simpl; [lra|]. rewrite IH. lra.
Qed.

Lemma Rsum_exp_shift (s : R) (xs : list R) :
  Rsum (map (fun x => exp (x - s)) xs) = Rsum (map exp xs) * exp (- s).
Proof.
  induction xs as [|x xs IH]; simpl; [lra|].
  rewrite IH. unfold Rminus. rewrite exp_plus. lra.
Qed.

(** Subtracting any [s] before exponentiating leaves the quotient
    unchanged. *)
Lemma softmax_R_shift (s : R) (xs : list R) x :
  xs <> [] ->
  exp (x - s) / Rsum (map (fun y => exp (y - s)) xs) = softmax_R xs x.
Proof.
  intros H. unfold softmax_R. rewrite Rsum_exp_shift.
  pose proof (Rsum_exp_pos H). pose proof (exp_pos (- s)).
  unfold Rminus. rewrite exp_plus. field. lra.
Qed.

Lemma softmax_R_range (xs : list R) x :
  In x xs -> 0 < softmax_R xs x <= 1.
Proof.
  intros H. unfold softmax_R.
  assert (Hne : xs <> []) by (intros ->; simpl in H; tauto).
  pose proof (Rsum_exp_pos Hne) as Hp.
  pose proof (Rsum_exp_ge _ _ H) as Hg.
  pose proof (exp_pos x) as Hx.
  split.
  - now apply Rdiv_lt_0_compat.
  - apply Rmult_le_reg_r with (r := Rsum (map exp xs)); [exact Hp|].
    unfold Rdiv. rewrite Rmult_assoc, Rinv_l by lra. lra.
Qed.

Lemma softmax_R_sum (xs : list R) :
  xs <> [] -> Rsum (map (softmax_R xs) xs) = 1.
Proof.
  intros H. pose proof (Rsum_exp_pos H) as Hp.
  unfold softmax_R, Rdiv.
  rewrite <- (map_map exp (fun e => e * / Rsum (map exp xs))).
  rewrite Rsum_map_scale. field. lra.
Qed.

(** The dense kernel computes the mathematical softmax, whatever
    [_max] returned. *)
Lemma softmax_slice_R flags (xs : list R) :
  xs <> [] -> softmax_slice flags xs = map (softmax_R xs) xs.
Proof.
  intros H. unfold softmax_slice. cbv zeta. rewrite !map_map.
  apply map_ext. intros x. simpl d_mul. simpl d_div. simpl d_one.
  rewrite sum_value_R.
  - change (fun x0 : R => d_exp (d_sub x0 (max_value flags xs)))
      with (fun x0 : R => exp (x0 - max_value flags xs)).
    rewrite <- (softmax_R_shift (max_value flags xs) x H).
    simpl. unfold Rdiv. lra.
  - intros e He. apply in_map_iff in He. destruct He as (y & <- & _).
    simpl. left. apply exp_pos.
Qed.

(** So does the generic kernel, whatever the seed of the maximum. *)
Lemma generic_out_R (col : list R) x :
  col <> [] -> generic_out col x = softmax_R col x.
Proof.
  intros H. unfold generic_out, generic_denom.
  change (fold_left d_add ?l d_zero) with (sum_scan l).
  rewrite sum_scan_R.
  apply (softmax_R_shift (generic_max col) x H).
Qed.

End ExactFacts.

(** ** Maxima *)

Section OrderFacts.

Context {data_t : Type} {ops : DataOps data_t}.
Context (ok : data_t -> Prop) {laws : OrderLaws ok}.

Lemma ltb_irrefl a : ok a -> d_ltb a a = false.
Proof.
  intros H. destruct (d_ltb a a) eqn:E; [|reflexivity].
  rewrite <- E. now apply ltb_asym.
Qed.

Lemma nstl_max_cases (a b : data_t) : nstl_max a b = a \/ nstl_max a b = b.
Proof. unfold nstl_max. destruct (d_ltb b a); auto. Qed.

Lemma nstl_max_ub a b :
  ok a -> ok b -> d_le a (nstl_max a b) /\ d_le b (nstl_max a b).
Proof.
  intros Ha Hb. unfold nstl_max, d_le.
  destruct (d_ltb b a) eqn:E.
  - split; [now apply ltb_irrefl|now apply ltb_asym].
  - split; [exact E|now apply ltb_irrefl].
Qed.

Lemma d_le_trans a b c : ok a -> ok b -> ok c -> d_le a b -> d_le b c -> d_le a c.
Proof.
  unfold d_le. intros Ha Hb Hc H1 H2.
  now apply ltb_negtrans with (b := b).
Qed.

(** The running maximum is its seed or an element of the list, and
    nothing in the list or the seed is greater. *)
Lemma fold_nstl_max xs :
  forall seed,
    ok seed -> Forall ok xs ->
    let r := fold_left nstl_max xs seed in
    ok r /\ (r = seed \/ In r xs) /\ d_le seed r /\
    (forall x, In x xs -> d_le x r).
Proof.
  induction xs as [|x xs IH]; intros seed Hs Hxs; simpl.
  - repeat split; auto.
    + unfold d_le. now apply ltb_irrefl.
    + intros x [].
  - inversion Hxs as [|? ? Hx Hxs']; subst.
    assert (Hm : ok (nstl_max seed x))
      by (destruct (nstl_max_cases seed x) as [-> | ->]; assumption).
    destruct (IH (nstl_max seed x) Hm Hxs') as (Hr & Hin & Hle & Hub).
    destruct (nstl_max_ub Hs Hx) as [L1 L2].
    split; [exact Hr|]. split; [|split].
    + destruct Hin as [E|Hin]; [|auto].
      rewrite E. destruct (nstl_max_cases seed x) as [-> | ->]; auto.
    + apply d_le_trans with (b := nstl_max seed x); assumption.
    + intros y [<-|Hy]; [|now apply Hub].
      apply d_le_trans with (b := nstl_max seed x); assumption.
Qed.

(** The linear scan of [_max] returns a maximum of its slice. *)
Lemma max_scan_is_max xs :
  xs <> [] -> Forall ok xs ->
  In (max_scan xs) xs /\ (forall x, In x xs -> d_le x (max_scan xs)).
Proof.
  intros Hne Hok. destruct xs as [|x0 r]; [congruence|].
  inversion Hok as [|? ? H0 Hr]; subst. simpl max_scan.
  destruct (fold_nstl_max H0 Hr) as (_ & Hin & Hle & Hub).
  split.
  - destruct Hin as [-> | Hin]; [now left|now right].
  - intros x [<-|Hx]; [exact Hle|now apply Hub].
Qed.

End OrderFacts.

(** Seeding the scan with [-FLT_MAX] changes nothing when the first
    element is not below it. *)
Lemma generic_max_scan (data_t : Type) (ops : DataOps data_t)
      (x0 : data_t) (r : list data_t) :
  d_ltb x0 d_neg_flt_max = false ->
  generic_max (x0 :: r) = max_scan (x0 :: r).
Proof.
  intros H. unfold generic_max, max_scan. simpl.
  unfold nstl_max at 2. rewrite H. reflexivity.
Qed.

#[export] Instance R_order : OrderLaws (ops := R_ops) (fun _ => True).
Proof.
  split; simpl.
  - intros a b _ _. destruct (Rlt_dec a b), (Rlt_dec b a);
      try reflexivity; try discriminate. lra.
  - intros a b c _ _ _.
    destruct (Rlt_dec a b), (Rlt_dec b c), (Rlt_dec a c);
      try reflexivity; try discriminate. lra.
Qed.

(** The comparison of binary32 orders everything but NaN. *)
Lemma SFltb_asym (a b : f32) :
  f32_ordered a -> f32_ordered b -> SFltb a b = true -> SFltb b a = false.
Proof.
  unfold f32_ordered, SFltb, SFcompare. intros Ha Hb.
  destruct a as [[|]|[|]| |[|] ma ea], b as [[|]|[|]| |[|] mb eb];
    try congruence; try reflexivity; try discriminate;
    change (Pos.compare_cont Eq ma mb) with (Pos.compare ma mb);
    change (Pos.compare_cont Eq mb ma) with (Pos.compare mb ma);
    destruct (Z.compare_spec ea eb), (Z.compare_spec eb ea); try lia;
    try discriminate; try reflexivity;
    destruct (Pos.compare_spec ma mb), (Pos.compare_spec mb ma);
    simpl; try lia; try discriminate; try reflexivity.
Qed.

Lemma SFltb_negtrans (a b c : f32) :
  f32_ordered a -> f32_ordered b -> f32_ordered c ->
  SFltb a b = false -> SFltb b c = false -> SFltb a c = false.
Proof.
  unfold f32_ordered, SFltb, SFcompare. intros Ha Hb Hc.
  destruct a as [[|]|[|]| |[|] ma ea], b as [[|]|[|]| |[|] mb eb],
           c as [[|]|[|]| |[|] mc ec];
    try congruence; try reflexivity; try discriminate;
    change (Pos.compare_cont Eq ma mb) with (Pos.compare ma mb);
    change (Pos.compare_cont Eq mb mc) with (Pos.compare mb mc);
    change (Pos.compare_cont Eq ma mc) with (Pos.compare ma mc);
    try (destruct (Z.compare_spec ea eb); try discriminate);
    try (destruct (Z.compare_spec eb ec); try discriminate);
    try (destruct (Z.compare_spec ea ec); try discriminate);
    try lia; try reflexivity;
    try (destruct (Pos.compare_spec ma mb); simpl; try discriminate);
    try (destruct (Pos.compare_spec mb mc); simpl; try discriminate);
    try (destruct (Pos.compare_spec ma mc); simpl; try discriminate);
    try lia; try reflexivity; intros; try discriminate; try lia.
Qed.

#[export] Instance f32_order (expf : f32 -> f32) :
  OrderLaws (ops := f32_ops expf) f32_ordered.
Proof.
  split; simpl.
  - exact SFltb_asym.
  - exact SFltb_negtrans.
Qed.

(** ** The first sweep of the generic forward kernel *)

Section FirstSweepFacts.

Context {data_t : Type} {ops : DataOps data_t}.

Variable self : softmax_t.
Variable data_d : memory_desc_wrapper.

Implicit Types (m : mem data_t).

(** Where [space_max] and [space_denom] live, given enough scratch. *)
Lemma scratch_geometry m :
  (1 < inner_size_ self -> 2 * inner_size_ self <= length (m Scratch)) ->
  (inner_size_ self <= 1 -> 2 <= length (m Stack)) ->
  exists SB a b,
    space_max self = mkptr SB a /\ space_denom self = mkptr SB b /\
    SB <> Src /\ SB <> Dst /\ a + inner_size_ self <= b /\
    b + inner_size_ self <= length (m SB).
Proof.
  intros H1 H2. unfold space_denom, space_max.
  destruct (Nat.ltb_spec 1 (inner_size_ self)) as [H|H].
  - exists Scratch, 0, (inner_size_ self). specialize (H1 H).
    repeat split; try discriminate; simpl; lia.
  - exists Stack, 0, 1. specialize (H2 H).
    repeat split; try discriminate; simpl; lia.
Qed.

Lemma value_of_load (p : ptr) i m :
  p_off p + i < length (m (p_blk p)) ->
  value_of (load p i m) = Some (elt (m (p_blk p)) (p_off p + i)).
Proof.
  intros H. unfold value_of, load. now rewrite (nth_error_elt _ H).
Qed.

(** After the initialisation every cell of [space_max] holds
    [-FLT_MAX] and every cell of [space_denom] zero; after the sweep
    every cell of [space_max] holds [generic_max] of its column. *)
Lemma first_sweep_spec ou m :
  (1 < inner_size_ self -> 2 * inner_size_ self <= length (m Scratch)) ->
  (inner_size_ self <= 1 -> 2 <= length (m Stack)) ->
  (forall c i, c < channels_ self -> i < inner_size_ self ->
               at_ self data_d ou c i < length (m Src)) ->
  exists m1 m2,
    init_scratch self m = Some (tt, m1) /\
    max_sweep self data_d (space_max self) ou m1 = Some (tt, m2) /\
    forall i, i < inner_size_ self ->
      value_of (load (space_max self) i m1) = Some d_neg_flt_max /\
      value_of (load (space_denom self) i m1) = Some d_zero /\
      value_of (load (space_max self) i m2)
      = Some (generic_max (column self data_d (m Src) ou i)).
Proof.
  intros H1 H2 Hs.
  destruct (scratch_geometry m H1 H2)
    as (SB & a & b & Esm & Esd & HsS & HsD & Hab & Hb).
  set (n := inner_size_ self) in *.
  assert (R1 : runs (init_scratch self) m
                 (fun _ m1 =>
                    m1 Src = m Src /\ length (m1 SB) = length (m SB) /\
                    forall i, i < n ->
                      elt (m1 SB) (a + i) = d_neg_flt_max /\
                      elt (m1 SB) (b + i) = d_zero)).
  { unfold init_scratch. rewrite Esm, Esd. fold n.
    apply runs_bind. eapply runs_weaken.
    { apply array_set_spec. simpl. lia. }
    intros [] m1 W1. simpl in W1.
    pose proof (written_length W1) as L1.
    eapply runs_weaken.
    { apply array_set_spec. simpl. lia. }
    intros [] m2 W2. simpl in W2.
    split; [|split].
    - rewrite (written_other W2), (written_other W1); congruence.
    - rewrite (written_length W2). exact L1.
    - intros i Hi. split.
      + rewrite (written_frame W2 (j := a + i)) by (intros; lia).
        apply (written_at W1 (i := i)). lia.
      + apply (written_at W2 (i := i)). lia. }
  apply runs_elim in R1.
  destruct R1 as ([] & m1 & Hrun1 & S1 & L1 & Hinit).
  assert (R2 : runs (max_sweep self data_d (space_max self) ou) m1
                 (fun _ m2 =>
                    length (m2 SB) = length (m1 SB) /\
                    forall i, i < n ->
                      elt (m2 SB) (a + i)
                      = generic_max (column self data_d (m Src) ou i))).
  { rewrite Esm. eapply runs_weaken.
    { apply max_sweep_spec; simpl; [exact HsS|fold n; lia|].
      intros c i Hc Hi. rewrite S1. now apply Hs. }
    intros [] m2 W. simpl in W. fold n in W.
    split; [apply (written_length W)|].
    intros i Hi. rewrite (written_at W (i := i)) by lia.
    rewrite S1. destruct (Hinit i Hi) as [-> _]. reflexivity. }
  apply runs_elim in R2.
  destruct R2 as ([] & m2 & Hrun2 & L2 & Hmax).
  exists m1, m2. split; [exact Hrun1|]. split; [exact Hrun2|].
  intros i Hi. rewrite Esm, Esd.
  rewrite !value_of_load by (simpl; lia). simpl.
  destruct (Hinit i Hi) as [-> ->]. rewrite (Hmax i Hi). auto.
Qed.

End FirstSweepFacts.

(** ** Shifting a slice *)

Section ShiftFacts.

Context {data_t : Type} {ops : DataOps data_t}.

Variable sh : data_t -> data_t.

Lemma fold_nstl_max_in (r : list data_t) :
  forall acc, In (fold_left nstl_max r acc) (acc :: r).
Proof.
  induction r as [|x r IH]; intros acc; simpl; [now left|].
  destruct (IH (nstl_max acc x)) as [E|H]; [|now right; right].
  rewrite <- E. destruct (nstl_max_cases acc x) as [-> | ->]; auto.
Qed.

Lemma max_scan_in (xs : list data_t) : xs <> [] -> In (max_scan xs) xs.
Proof.
  destruct xs as [|x0 r]; [congruence|]. intros _. apply fold_nstl_max_in.
Qed.

(** A map that preserves the comparison commutes with the scan. *)
Lemma fold_nstl_max_map (r : list data_t) :
  forall acc,
    (forall a b, In a (acc :: r) -> In b (acc :: r) ->
                 d_ltb (sh a) (sh b) = d_ltb a b) ->
    fold_left nstl_max (map sh r) (sh acc) = sh (fold_left nstl_max r acc).
Proof.
  induction r as [|x r IH]; intros acc H; simpl; [reflexivity|].
  assert (E : nstl_max (sh acc) (sh x) = sh (nstl_max acc x)).
  { unfold nstl_max. rewrite H by (simpl; auto).
    destruct (d_ltb x acc); reflexivity. }
  rewrite E. apply IH. intros a b Ha Hb.
  apply H.
  - destruct Ha as [<-|Ha]; [|now right; right].
    destruct (nstl_max_cases acc x) as [-> | ->]; simpl; auto.
  - destruct Hb as [<-|Hb]; [|now right; right].
    destruct (nstl_max_cases acc x) as [-> | ->]; simpl; auto.
Qed.

(** If the shift preserves the comparison and the differences of the
    elements of a slice, the reference softmax of the shifted slice is
    that of the slice. *)
Lemma softmax_slice_shift (flags : build_flags) (xs : list data_t) :
  USE_CBLAS flags = false ->
  xs <> [] ->
  (forall a b, In a xs -> In b xs -> d_ltb (sh a) (sh b) = d_ltb a b) ->
  (forall a b, In a xs -> In b xs -> d_sub (sh a) (sh b) = d_sub a b) ->
  softmax_slice flags (map sh xs) = softmax_slice flags xs.
Proof.
  intros Href Hne Hlt Hsub.
  assert (Emax : max_scan (map sh xs) = sh (max_scan xs)).
  { destruct xs as [|x0 r]; [congruence|]. simpl.
    now apply fold_nstl_max_map. }
  unfold softmax_slice, max_value. rewrite Href. cbv zeta.
  rewrite Emax.
  rewrite (map_map sh (fun x => d_sub x (sh (max_scan xs)))).
  assert (E1 : map (fun x => d_sub (sh x) (sh (max_scan xs))) xs
               = map (fun x => d_sub x (max_scan xs)) xs).
  { apply map_ext_in. intros x Hx. apply Hsub; [exact Hx|].
    now apply max_scan_in. }
  rewrite E1. reflexivity.
Qed.

End ShiftFacts.

(** ** Single precision *)

Section SingleFacts.

Local Open Scope Z_scope.

(** The difference of a finite number with itself is [+0]. *)
Lemma SFsub_diag (x : f32) :
  f32_finite x = true -> SFsub 24 128 x x = S754_zero false.
Proof.
  intros H.
  destruct x as [[|]|[|]| |s m e]; try discriminate; try reflexivity.
  simpl. rewrite Z.sub_diag. reflexivity.
Qed.

(** The product of a finite number with [1.0f] is that number: the
    23 low zero bits of the integer product are shifted out again. *)
Lemma SFmul_one_r (x : f32) :
  f32_finite x = true ->
  SFmul 24 128 x (S754_finite false 8388608 (-23)) = x.
Proof.
  intros H. destruct x as [[|]|[|]| |s m e]; try discriminate;
    try reflexivity.
  unfold f32_finite in H. simpl in H. rewrite andb_true_r in H.
  unfold bounded, canonical_mantissa in H.
  apply andb_prop in H. destruct H as [Hc He].
  apply Z.eqb_eq in Hc. apply Z.leb_le in He.
  unfold SFmul. rewrite xorb_false_r, Pos.mul_comm.
  cbn [Pos.mul].
  unfold binary_round_aux, shr_fexp.
  cbn [Zdigits2 digits2_pos shr_record_of_loc].
  match goal with
  | |- context [fexp 24 128 (Z.pos ?d + (e + -23)) - (e + -23)] =>
      replace (fexp 24 128 (Z.pos d + (e + -23)) - (e + -23)) with 23
  end.
  2:{ match goal with
      | |- context [fexp 24 128 (?a + (e + -23))] =>
          replace (a + (e + -23)) with (Z.pos (digits2_pos m) + e) by lia
      end.
      rewrite Hc. lia. }
  cbn [shr iter_pos shr_1 orb shr_m loc_of_shr_record round_nearest_even].
  replace (e + -23 + 23) with e by lia.
  cbn [Zdigits2]. rewrite Hc, Z.sub_diag. cbn [shr shr_m].
  destruct (Z.leb_spec e (128 - 24)); [reflexivity|lia].
Qed.

Lemma digits2_pos_bound (m : positive) :
  Z.pos m < 2 ^ Z.pos (digits2_pos m).
Proof.
  induction m as [m IH|m IH|]; simpl digits2_pos;
    try rewrite Pos2Z.inj_succ, Z.pow_succ_r by lia; lia.
Qed.

(** No single-precision value but minus infinity is below [-FLT_MAX]. *)
Lemma SFltb_neg_flt_max (x : f32) :
  valid_binary 24 128 x = true ->
  x <> S754_infinity true ->
  SFltb x (S754_finite true 16777215 104) = false.
Proof.
  intros Hv Hx.
  destruct x as [[|]|[|]| |[|] m e]; try congruence; try reflexivity.
  simpl in Hv. unfold bounded, canonical_mantissa in Hv.
  apply andb_prop in Hv. destruct Hv as [Hc He].
  apply Z.eqb_eq in Hc. apply Z.leb_le in He.
  unfold SFltb, SFcompare.
  destruct (Z.compare_spec e 104) as [E|E|E]; [|reflexivity|lia].
  subst e.
  pose proof (digits2_pos_bound m) as Hd.
  unfold fexp, emin in Hc.
  assert (Ed : Z.pos (digits2_pos m) = 24) by lia.
  rewrite Ed in Hd.
  destruct (Pos.compare_cont Eq m 16777215) eqn:Ec; try reflexivity.
  exfalso. rewrite Pos.compare_cont_spec in Ec. cbn [Pos.switch_Eq] in Ec.
  destruct (Pos.compare_spec m 16777215) as [Hq|Hq|Hq]; try discriminate.
  change (2 ^ 24) with 16777216 in Hd. lia.
Qed.

End SingleFacts.

Unset Implicit Arguments.

(** The slices of [dst] after the dense forward kernel. *)
Lemma dense_forward_slices :
  forall (data_t : Type) (ops : DataOps data_t) (flags : build_flags)
         (self : softmax_t) (m : mem data_t) (ou : nat),
    1 <= channels_ self ->
    outer_size_ self * channels_ self <= length (m Src) ->
    outer_size_ self * channels_ self <= length (m Dst) ->
    ou < outer_size_ self ->
    exists m',
      execute_forward_dense flags self m = Some (tt, m') /\
      let xs := slice (m Src) (ou * channels_ self) (channels_ self) in
      slice (m' Dst) (ou * channels_ self) (channels_ self)
      = softmax_slice flags xs /\
      (USE_CBLAS flags = false ->
       forall c, c < channels_ self ->
         let mx := max_scan xs in
         let denom := reduction (REDUCTION_ORDER flags)
                                (map (fun x => d_exp (d_sub x mx)) xs) in
         elt (m' Dst) (ou * channels_ self + c)
         = d_mul (d_exp (d_sub (elt (m Src) (ou * channels_ self + c)) mx))
                 (d_div d_one denom)).
Proof.
  intros data_t ops flags self m ou Hn Hs Hd Hou.
  pose proof (execute_forward_dense_spec flags self m Hn Hs Hd) as H.
  apply runs_elim in H.
  destruct H as ([] & m' & Hrun & _ & Hl & Hdone & _).
  exists m'. split; [exact Hrun|]. cbv zeta.
  assert (Hb : ou * channels_ self + channels_ self
               <= outer_size_ self * channels_ self).
  { pose proof (@group_index_lt (outer_size_ self) (channels_ self) ou 0).
    assert (S ou * channels_ self <= outer_size_ self * channels_ self)
      by (apply Nat.mul_le_mono_r; lia).
    simpl in *. lia. }
  split; [apply Hdone; exact Hou|].
  intros Href c Hc.
  rewrite <- (@nth_slice _ _ (m' Dst) _ (channels_ self)) by lia.
  rewrite (Hdone ou Hou), softmax_slice_seq, length_slice by lia.
  assert (E : nth_error (map (dense_out flags
                                (slice (m Src) (ou * channels_ self)
                                       (channels_ self)))
                             (seq 0 (channels_ self))) c
              = Some (dense_out flags
                        (slice (m Src) (ou * channels_ self)
                               (channels_ self)) c)).
  { rewrite nth_error_map, nth_error_seq.
    destruct (Nat.ltb_spec c (channels_ self)); [reflexivity|lia]. }
  rewrite (nth_error_nth _ _ _ E).
  unfold dense_out, max_value, sum_value. rewrite Href.
  rewrite nth_slice by lia. reflexivity.
Qed.


(** The elements of [diff_src] after the dense backward kernel. *)
Lemma dense_backward_elements :
  forall (data_t : Type) (ops : DataOps data_t) (self : softmax_t)
         (m : mem data_t) (ou c : nat),
    outer_size_ self * channels_ self <= length (m Data) ->
    outer_size_ self * channels_ self <= length (m DiffDst) ->
    outer_size_ self * channels_ self <= length (m DiffSrc) ->
    ou < outer_size_ self -> c < channels_ self ->
    exists m',
      execute_backward_dense self m = Some (tt, m') /\
      let ps := slice (m Data) (channels_ self * ou) (channels_ self) in
      let gs := slice (m DiffDst) (channels_ self * ou) (channels_ self) in
      let sbr := dot_scan gs ps in
      elt (m' DiffSrc) (channels_ self * ou + c)
      = d_mul (elt (m Data) (channels_ self * ou + c))
              (d_sub (elt (m DiffDst) (channels_ self * ou + c)) sbr).
Proof.
  intros data_t ops self m ou c HP HG HS Hou Hc.
  pose proof (execute_backward_dense_spec self m HP HG HS) as H.
  apply runs_elim in H.
  destruct H as ([] & m' & Hrun & _ & _ & Hdone & _).
  exists m'. split; [exact Hrun|]. cbv zeta.
  rewrite (Hdone ou c Hou Hc). unfold dense_bwd_out.
  assert (Hb : channels_ self * ou + channels_ self
               <= outer_size_ self * channels_ self).
  { assert (S ou * channels_ self <= outer_size_ self * channels_ self)
      by (apply Nat.mul_le_mono_r; lia).
    simpl in *. lia. }
  rewrite !nth_slice by lia. reflexivity.
Qed.

(** Whatever store a run of the dense kernels ends in satisfies their
    postconditions. *)
Lemma dense_forward_post :
  forall (data_t : Type) (ops : DataOps data_t) (flags : build_flags)
         (self : softmax_t) (m m' : mem data_t),
    1 <= channels_ self ->
    outer_size_ self * channels_ self <= length (m Src) ->
    outer_size_ self * channels_ self <= length (m Dst) ->
    execute_forward_dense flags self m = Some (tt, m') ->
    dense_forward_inv flags self m (outer_size_ self) m'.
Proof.
  intros data_t ops flags self m m' Hn Hs Hd Hrun.
  pose proof (execute_forward_dense_spec flags self m Hn Hs Hd) as H.
  unfold runs in H. now rewrite Hrun in H.
Qed.

Lemma dense_backward_post :
  forall (data_t : Type) (ops : DataOps data_t) (self : softmax_t)
         (m m' : mem data_t),
    outer_size_ self * channels_ self <= length (m Data) ->
    outer_size_ self * channels_ self <= length (m DiffDst) ->
    outer_size_ self * channels_ self <= length (m DiffSrc) ->
    execute_backward_dense self m = Some (tt, m') ->
    dense_backward_inv self m (outer_size_ self) m'.
Proof.
  intros data_t ops self m m' HP HG HS Hrun.
  pose proof (execute_backward_dense_spec self m HP HG HS) as H.
  unfold runs in H. now rewrite Hrun in H.
Qed.

(** With one channel and a finite input, single precision gives
    exactly [1.0f]: [x - x] is [+0], [exp(+0)] is [1], and the sum and
    the scaling are exact. *)
Lemma single_channel_forward_f32 :
  forall (expf : f32 -> f32) (flags : build_flags) (self : softmax_t)
         (m : mem f32) (ou : nat) (x : f32),
    expf (S754_zero false) = f32_of_Z 1 ->
    channels_ self = 1 ->
    outer_size_ self <= length (m Src) ->
    outer_size_ self <= length (m Dst) ->
    ou < outer_size_ self ->
    nth_error (m Src) ou = Some x -> f32_finite x = true ->
    exists m',
      execute_forward_dense (ops := f32_ops expf) flags self m
      = Some (tt, m') /\
      nth_error (m' Dst) ou = Some (f32_of_Z 1).
Proof.
  intros expf flags self m ou x H0 HC Hs Hd Hou Hx Hfin.
  assert (Hn : 1 <= channels_ self) by lia.
  assert (Hs' : outer_size_ self * channels_ self <= length (m Src))
    by (rewrite HC; lia).
  assert (Hd' : outer_size_ self * channels_ self <= length (m Dst))
    by (rewrite HC; lia).
  destruct (dense_forward_slices f32 (f32_ops expf) flags self m ou
              Hn Hs' Hd' Hou) as (m' & Hrun & Hsl & _).
  exists m'. split; [exact Hrun|]. cbv zeta in Hsl.
  rewrite HC, Nat.mul_1_r in Hsl.
  rewrite <- (Nat.add_0_r ou) at 1.
  rewrite <- (@nth_error_slice f32 (m' Dst) ou 1 0) by lia.
  rewrite Hsl.
  rewrite (@slice_cons f32 (f32_ops expf)) by lia.
  rewrite (@elt_of_nth_error f32 (f32_ops expf) _ _ _ Hx).
  unfold slice. simpl firstn.
  unfold softmax_slice, max_value, sum_value, amax_elt, max_scan.
  cbv zeta.
  replace (if USE_CBLAS flags
           then nth (isamax_scan (ops := f32_ops expf) [] 1 0 (d_abs x))
                    [x] d_zero
           else fold_left nstl_max [] x) with x
    by (destruct (USE_CBLAS flags); reflexivity).
  cbn [map d_sub d_exp f32_ops].
  rewrite (SFsub_diag x Hfin), H0.
  replace (if USE_CBLAS flags
           then [d_abs (DataOps := f32_ops expf) (f32_of_Z 1)]
           else [f32_of_Z 1]) with [f32_of_Z 1]
    by (destruct (USE_CBLAS flags); reflexivity).
  destruct (reduction_single (ops := f32_ops expf)
              (REDUCTION_ORDER flags) (f32_of_Z 1)) as [E|E];
    rewrite E; vm_compute; reflexivity.
Qed.

(** With one channel, [data] equal to [1.0f] and a finite gradient,
    single precision gives a zero. *)
Lemma single_channel_backward_f32 :
  forall (expf : f32 -> f32) (self : softmax_t) (m : mem f32) (ou : nat)
         (g : f32),
    channels_ self = 1 ->
    outer_size_ self <= length (m Data) ->
    outer_size_ self <= length (m DiffDst) ->
    outer_size_ self <= length (m DiffSrc) ->
    ou < outer_size_ self ->
    nth_error (m Data) ou = Some (f32_of_Z 1) ->
    nth_error (m DiffDst) ou = Some g -> f32_finite g = true ->
    exists m' s,
      execute_backward_dense (ops := f32_ops expf) self m = Some (tt, m') /\
      nth_error (m' DiffSrc) ou = Some (S754_zero s).
Proof.
  intros expf self m ou g HC HP HG HS Hou Hone Hg Hfin.
  assert (HP' : outer_size_ self * channels_ self <= length (m Data))
    by (rewrite HC; lia).
  assert (HG' : outer_size_ self * channels_ self <= length (m DiffDst))
    by (rewrite HC; lia).
  assert (HS' : outer_size_ self * channels_ self <= length (m DiffSrc))
    by (rewrite HC; lia).
  assert (H0 : 0 < channels_ self) by lia.
  destruct (dense_backward_elements f32 (f32_ops expf) self m ou 0
              HP' HG' HS' Hou H0) as (m' & Hrun & Hv).
  destruct (dense_backward_post f32 (f32_ops expf) self m m'
              HP' HG' HS' Hrun) as (_ & Hl & _).
  cbv zeta in Hv. rewrite HC, Nat.mul_1_l, Nat.add_0_r in Hv.
  rewrite !(@slice_cons f32 (f32_ops expf)) in Hv by lia.
  rewrite (@elt_of_nth_error f32 (f32_ops expf) _ _ _ Hone) in Hv.
  rewrite (@elt_of_nth_error f32 (f32_ops expf) _ _ _ Hg) in Hv.
  unfold dot_scan, slice in Hv.
  cbn [combine firstn skipn fold_left fst snd
       d_mul d_sub d_add d_zero f32_ops] in Hv.
  exists m'.
  assert (E : exists s,
             SFmul 24 128 (f32_of_Z 1)
                   (SFsub 24 128 g
                          (SFadd 24 128 (S754_zero false)
                                 (SFmul 24 128 g (f32_of_Z 1))))
             = S754_zero s).
  { change (f32_of_Z 1) with (S754_finite false 8388608 (-23)).
    rewrite (SFmul_one_r g Hfin).
    destruct g as [[|]|[|]| |s mg eg]; try discriminate.
    - exists true. reflexivity.
    - exists false. reflexivity.
    - exists false.
      change (SFadd 24 128 (S754_zero false) (S754_finite s mg eg))
        with (S754_finite s mg eg).
      rewrite (SFsub_diag _ Hfin). reflexivity. }
  destruct E as [s E]. exists s. split; [exact Hrun|].
  rewrite <- E, <- Hv.
  apply (@nth_error_elt f32 (f32_ops expf)). lia.
Qed.

(** ** One group of four values in single precision *)

Lemma reduce_terms_in_all (data_t : Type) (ops : DataOps data_t)
      (order : nat -> nat * nat) (fuel k : nat) (l : list data_t) :
  In (reduce_terms order fuel k l) (all_reductions fuel l).
Proof.
  revert k l. induction fuel as [|f IH]; intros k l.
  - destruct l as [|a [|b r]]; simpl; auto.
  - destruct l as [|a [|b r]]; [simpl; auto..|].
    set (l0 := a :: b :: r).
    change (reduce_terms order (S f) k l0)
      with (let i := fst (order k) mod length l0 in
            let l1 := drop_nth i l0 in
            let j := snd (order k) mod length l1 in
            reduce_terms order f (S k)
                         (d_add (nth i l0 d_zero) (nth j l1 d_zero)
                          :: drop_nth j l1)).
    change (all_reductions (S f) l0)
      with (flat_map
              (fun i =>
                 let l1 := drop_nth i l0 in
                 flat_map
                   (fun j =>
                      all_reductions f
                        (d_add (nth i l0 d_zero) (nth j l1 d_zero)
                         :: drop_nth j l1))
                   (seq 0 (length l1)))
              (seq 0 (length l0))).
    cbv zeta.
    assert (L0 : length l0 = S (S (length r))) by reflexivity.
    assert (Hi : fst (order k) mod length l0 < length l0)
      by (apply Nat.mod_upper_bound; lia).
    set (i := fst (order k) mod length l0) in *.
    assert (L1 : length (drop_nth i l0) = S (length r)).
    { pose proof (@length_drop_nth _ l0 i Hi). lia. }
    assert (Hj : snd (order k) mod length (drop_nth i l0)
                 < length (drop_nth i l0))
      by (apply Nat.mod_upper_bound; lia).
    apply in_flat_map. exists i. split; [apply in_seq; lia|].
    apply in_flat_map. exists (snd (order k) mod length (drop_nth i l0)).
    split; [apply in_seq; lia|]. apply IH.
Qed.

Lemma f32_eqb_eq (a b : f32) : f32_eqb a b = true -> a = b.
Proof.
  destruct a as [s|s| |s m e], b as [t|t| |t n f]; simpl; try discriminate.
  - intros H. apply Bool.eqb_prop in H. now subst.
  - intros H. apply Bool.eqb_prop in H. now subst.
  - reflexivity.
  - intros H. apply andb_prop in H. destruct H as [H He].
    apply andb_prop in H. destruct H as [Hs Hm].
    apply Bool.eqb_prop in Hs. apply Pos.eqb_eq in Hm. apply Z.eqb_eq in He.
    now subst.
Qed.

(** A reduction all of whose orders give [v] gives [v]. *)
Lemma reduction_f32_any_order (expf : f32 -> f32)
      (order : nat -> nat -> nat * nat) (xs : list f32) (v : f32) :
  forallb (fun r => f32_eqb r v)
          (all_reductions (ops := f32_ops expf) (length xs)
                          (S754_zero false :: xs)) = true ->
  reduction (ops := f32_ops expf) order xs = v.
Proof.
  intros H. rewrite forallb_forall in H.
  apply f32_eqb_eq, H. unfold reduction.
  apply (reduce_terms_in_all f32 (f32_ops expf)).
Qed.

Lemma slice_whole (data_t : Type) (l : list data_t) (n : nat) :
  length l = n -> slice l 0 n = l.
Proof. intros <-. unfold slice. simpl skipn. apply firstn_all. Qed.

Lemma list_of_four (data_t : Type) (ops : DataOps data_t) (l : list data_t) :
  length l = 4 -> l = [elt l 0; elt l 1; elt l 2; elt l 3].
Proof.
  intros H. destruct l as [|a [|b [|c [|d [|e l]]]]]; try discriminate.
  reflexivity.
Qed.

(** The dense forward kernel on one group of four values: [dst] holds
    the five-step result of the group. *)
Lemma dense_forward_f32_group (expf : f32 -> f32) (flags : build_flags)
      (xs : list f32) :
  length xs = 4 ->
  exists m',
    execute_forward_dense (ops := f32_ops expf) flags
      {| outer_size_ := 1; channels_ := 4; inner_size_ := 1 |}
      (fwd_mem xs [f32_of_Z 0; f32_of_Z 0; f32_of_Z 0; f32_of_Z 0])
    = Some (tt, m') /\
    m' Dst = softmax_slice (ops := f32_ops expf) flags xs.
Proof.
  intros Hx.
  set (self := {| outer_size_ := 1; channels_ := 4; inner_size_ := 1 |}).
  set (m := fwd_mem xs [f32_of_Z 0; f32_of_Z 0; f32_of_Z 0; f32_of_Z 0]).
  assert (Hs : outer_size_ self * channels_ self <= length (m Src))
    by (simpl; lia).
  assert (Hd : outer_size_ self * channels_ self <= length (m Dst))
    by (simpl; lia).
  assert (Hn : 1 <= channels_ self) by (simpl; lia).
  assert (Hou : 0 < outer_size_ self) by (simpl; lia).
  destruct (dense_forward_slices f32 (f32_ops expf) flags self m 0
              Hn Hs Hd Hou) as (m' & Hrun & Hsl & _).
  destruct (dense_forward_post f32 (f32_ops expf) flags self m m'
              Hn Hs Hd Hrun) as (_ & L & _).
  exists m'. split; [exact Hrun|].
  cbv zeta in Hsl. simpl in Hsl, L.
  rewrite (slice_whole f32 (m' Dst) 4 L) in Hsl.
  rewrite (slice_whole f32 xs 4 Hx) in Hsl. exact Hsl.
Qed.

(** The generic forward kernel on the same tensor, laid out
    contiguously. *)
Lemma generic_forward_f32_group (expf : f32 -> f32) (x0 x1 x2 x3 : f32) :
  exists m',
    execute_forward_generic (ops := f32_ops expf)
      {| outer_size_ := 1; channels_ := 4; inner_size_ := 1 |}
      {| off_l := fun k => k |}
      (fwd_mem [x0; x1; x2; x3]
               [f32_of_Z 0; f32_of_Z 0; f32_of_Z 0; f32_of_Z 0])
    = Some (tt, m') /\
    m' Dst = map (generic_out (ops := f32_ops expf) [x0; x1; x2; x3])
                 [x0; x1; x2; x3].
Proof.
  set (self := {| outer_size_ := 1; channels_ := 4; inner_size_ := 1 |}).
  set (d := {| off_l := fun k => k |}).
  set (m := fwd_mem [x0; x1; x2; x3]
                    [f32_of_Z 0; f32_of_Z 0; f32_of_Z 0; f32_of_Z 0]).
  assert (HL : layout_ok self d 4).
  { split; cbv zeta; simpl; intros; lia. }
  pose proof (@execute_forward_generic_spec f32 (f32_ops expf) self d m) as H.
  apply runs_elim in H; [|simpl; lia|exact HL|exact HL].
  destruct H as ([] & m' & Hrun & _ & L & Hdone & _).
  exists m'. split; [exact Hrun|].
  simpl in L.
  rewrite (list_of_four f32 (f32_ops expf) (m' Dst) L).
  pose proof (Hdone 0 0 0) as E0. pose proof (Hdone 0 1 0) as E1.
  pose proof (Hdone 0 2 0) as E2. pose proof (Hdone 0 3 0) as E3.
  simpl in E0, E1, E2, E3.
  rewrite E0, E1, E2, E3 by lia. reflexivity.
Qed.

(** The five steps on a slice of single-precision values, when every
    order of the reduction gives the same denominator [v]. *)
Lemma softmax_slice_f32 (expf : f32 -> f32) (flags : build_flags)
      (xs es : list f32) (v : f32) :
  map (fun x => expf (SFsub 24 128 x
                        (max_value (ops := f32_ops expf) flags xs))) xs
  = es ->
  forallb (fun r => f32_eqb r v)
          (all_reductions (ops := f32_ops expf) (length es)
             (S754_zero false
              :: (if USE_CBLAS flags then map SFabs es else es))) = true ->
  softmax_slice (ops := f32_ops expf) flags xs
  = map (fun e => SFmul 24 128 e (SFdiv 24 128 (f32_of_Z 1) v)) es.
Proof.
  intros Ees Hall.
  assert (E2 : map (d_exp (DataOps := f32_ops expf))
                   (map (fun x => d_sub (DataOps := f32_ops expf) x
                            (max_value (ops := f32_ops expf) flags xs))
                        xs) = es)
    by (rewrite map_map; exact Ees).
  unfold softmax_slice, sum_value. cbv zeta. rewrite E2.
  rewrite (reduction_f32_any_order expf (REDUCTION_ORDER flags) _ v).
  - reflexivity.
  - destruct (USE_CBLAS flags).
    + rewrite length_map. exact Hall.
    + exact Hall.
Qed.

(** The five steps on [[0, 0, 0, -200]] in a [USE_CBLAS] build:
    [cblas_isamax] picks [-200], the differences are [200] and [+0],
    [exp(200)] overflows, the sum is [+inf] in whatever order it is
    taken, its reciprocal is [+0], and [inf * 0] is NaN. *)
Lemma softmax_slice_cblas_overflow (expf : f32 -> f32)
      (flags : build_flags) :
  USE_CBLAS flags = true ->
  expf (f32_of_Z 0) = f32_of_Z 1 ->
  expf (f32_of_Z 200) = S754_infinity false ->
  softmax_slice (ops := f32_ops expf) flags
    [f32_of_Z 0; f32_of_Z 0; f32_of_Z 0; f32_of_Z (-200)]
  = [S754_nan; S754_nan; S754_nan; S754_zero false].
Proof.
  intros Hc H0 H200.
  rewrite (softmax_slice_f32 expf flags _
             [S754_infinity false; S754_infinity false; S754_infinity false;
              f32_of_Z 1] (S754_infinity false)).
  - vm_compute. reflexivity.
  - unfold max_value. rewrite Hc.
    change (map _ _)
      with [expf (f32_of_Z 200); expf (f32_of_Z 200); expf (f32_of_Z 200);
            expf (f32_of_Z 0)].
    rewrite H0, H200. reflexivity.
  - rewrite Hc. vm_compute. reflexivity.
Qed.

(** The five steps on a slice whose exponentials are [1, 1, 1] and an
    underflowing [exp(-200)]: the sum is [3] in whatever order it is
    taken, and the result a third each, and [+0]. *)
Lemma softmax_slice_thirds (expf : f32 -> f32) (flags : build_flags)
      (xs : list f32) :
  map (fun x => SFsub 24 128 x (max_value (ops := f32_ops expf) flags xs)) xs
  = [f32_of_Z 0; f32_of_Z 0; f32_of_Z 0; f32_of_Z (-200)] ->
  expf (f32_of_Z 0) = f32_of_Z 1 ->
  expf (f32_of_Z (-200)) = S754_zero false \/
  expf (f32_of_Z (-200)) = S754_finite false 1 (-149) ->
  softmax_slice (ops := f32_ops expf) flags xs
  = [SFdiv 24 128 (f32_of_Z 1) (f32_of_Z 3);
     SFdiv 24 128 (f32_of_Z 1) (f32_of_Z 3);
     SFdiv 24 128 (f32_of_Z 1) (f32_of_Z 3); S754_zero false].
Proof.
  intros E1 H0 Hm.
  rewrite (softmax_slice_f32 expf flags xs
             [f32_of_Z 1; f32_of_Z 1; f32_of_Z 1; expf (f32_of_Z (-200))]
             (f32_of_Z 3)).
  - destruct Hm as [-> | ->]; vm_compute; reflexivity.
  - rewrite <- (map_map (fun x => SFsub 24 128 x
                                   (max_value (ops := f32_ops expf) flags xs))
                        expf), E1.
    cbn [map]. rewrite H0. reflexivity.
  - destruct (USE_CBLAS flags); destruct Hm as [-> | ->];
      vm_compute; reflexivity.
Qed.

(** The generic kernel on [[0, 0, 0, -200]]: the maximum is [0], and
    the outputs are a third each, and [+0]. *)
Lemma generic_out_thirds (expf : f32 -> f32) :
  expf (f32_of_Z 0) = f32_of_Z 1 ->
  expf (f32_of_Z (-200)) = S754_zero false \/
  expf (f32_of_Z (-200)) = S754_finite false 1 (-149) ->
  map (generic_out (ops := f32_ops expf)
         [f32_of_Z 0; f32_of_Z 0; f32_of_Z 0; f32_of_Z (-200)])
      [f32_of_Z 0; f32_of_Z 0; f32_of_Z 0; f32_of_Z (-200)]
  = [SFdiv 24 128 (f32_of_Z 1) (f32_of_Z 3);
     SFdiv 24 128 (f32_of_Z 1) (f32_of_Z 3);
     SFdiv 24 128 (f32_of_Z 1) (f32_of_Z 3); S754_zero false].
Proof.
  intros H0 Hm.
  set (xs := [f32_of_Z 0; f32_of_Z 0; f32_of_Z 0; f32_of_Z (-200)]).
  assert (Emax : generic_max (ops := f32_ops expf) xs = f32_of_Z 0)
    by (vm_compute; reflexivity).
  assert (Ed : generic_denom (ops := f32_ops expf) xs
               = fold_left (SFadd 24 128)
                           [expf (f32_of_Z 0); expf (f32_of_Z 0);
                            expf (f32_of_Z 0); expf (f32_of_Z (-200))]
                           (S754_zero false)).
  { unfold generic_denom. rewrite Emax. reflexivity. }
  unfold generic_out. rewrite Ed, Emax.
  change (map (fun x => d_div (d_exp (d_sub x (f32_of_Z 0))) ?D) xs)
    with [SFdiv 24 128 (expf (f32_of_Z 0)) D;
          SFdiv 24 128 (expf (f32_of_Z 0)) D;
          SFdiv 24 128 (expf (f32_of_Z 0)) D;
          SFdiv 24 128 (expf (f32_of_Z (-200))) D].
  rewrite H0. destruct Hm as [-> | ->]; vm_compute; reflexivity.
Qed.

(** With one channel, [data] equal to [1.0f] and a gradient that is
    infinite or NaN, single precision gives NaN: [sbr] is the gradient
    itself, and [inf - inf] is NaN. *)
Lemma single_channel_backward_nonfinite_f32 :
  forall (expf : f32 -> f32) (self : softmax_t) (m : mem f32) (ou : nat)
         (g : f32),
    channels_ self = 1 ->
    outer_size_ self <= length (m Data) ->
    outer_size_ self <= length (m DiffDst) ->
    outer_size_ self <= length (m DiffSrc) ->
    ou < outer_size_ self ->
    nth_error (m Data) ou = Some (f32_of_Z 1) ->
    nth_error (m DiffDst) ou = Some g ->
    (g = S754_nan \/ exists s, g = S754_infinity s) ->
    exists m',
      execute_backward_dense (ops := f32_ops expf) self m = Some (tt, m') /\
      nth_error (m' DiffSrc) ou = Some S754_nan.
Proof.
  intros expf self m ou g HC HP HG HS Hou Hone Hg Hnf.
  assert (HP' : outer_size_ self * channels_ self <= length (m Data))
    by (rewrite HC; lia).
  assert (HG' : outer_size_ self * channels_ self <= length (m DiffDst))
    by (rewrite HC; lia).
  assert (HS' : outer_size_ self * channels_ self <= length (m DiffSrc))
    by (rewrite HC; lia).
  assert (H0 : 0 < channels_ self) by lia.
  destruct (dense_backward_elements f32 (f32_ops expf) self m ou 0
              HP' HG' HS' Hou H0) as (m' & Hrun & Hv).
  destruct (dense_backward_post f32 (f32_ops expf) self m m'
              HP' HG' HS' Hrun) as (_ & Hl & _).
  cbv zeta in Hv. rewrite HC, Nat.mul_1_l, Nat.add_0_r in Hv.
  rewrite !(@slice_cons f32 (f32_ops expf)) in Hv by lia.
  rewrite (@elt_of_nth_error f32 (f32_ops expf) _ _ _ Hone) in Hv.
  rewrite (@elt_of_nth_error f32 (f32_ops expf) _ _ _ Hg) in Hv.
  unfold dot_scan, slice in Hv.
  cbn [combine firstn skipn fold_left fst snd
       d_mul d_sub d_add d_zero f32_ops] in Hv.
  exists m'. split; [exact Hrun|].
  rewrite (@nth_error_elt f32 (f32_ops expf)) by lia.
  rewrite Hv. destruct Hnf as [-> | [[|] ->]]; reflexivity.
Qed.

(** * The claims *)

(** C1.  The dense forward kernel performs the five steps with the
    value [_max] returns, and in a [USE_CBLAS] build that value is not
    the maximum of the slice.  On the finite group [[0, 0, 0, -200]],
    in single precision, for every exponential with [exp(0) = 1] that
    overflows at [200] and underflows at [-200], with or without
    [USE_MKL] and whatever the order in which the build adds up the
    sum: [_max] returns [-200] where the linear scan of the same
    function returns the maximum [0]; the kernel then exponentiates
    [0 - (-200)], and the group's result is [[NaN, NaN, NaN, 0]].
    Without [USE_CBLAS] the same input gives [exp(src[c] - max(src))]
    over the sum: a third each, and [0]. *)
Theorem forward_dense_cblas_subtracts_wrong_maximum :
  forall (expf : f32 -> f32) (mkl : bool)
         (order : nat -> nat -> nat * nat),
    expf (f32_of_Z 0) = f32_of_Z 1 ->
    expf (f32_of_Z 200) = S754_infinity false ->
    expf (f32_of_Z (-200)) = S754_zero false \/
    expf (f32_of_Z (-200)) = S754_finite false 1 (-149) ->
    let cblas := {| USE_CBLAS := true; USE_MKL := mkl;
                    REDUCTION_ORDER := order |} in
    let plain := {| USE_CBLAS := false; USE_MKL := mkl;
                    REDUCTION_ORDER := order |} in
    let self := {| outer_size_ := 1; channels_ := 4; inner_size_ := 1 |} in
    let m := fwd_mem [f32_of_Z 0; f32_of_Z 0; f32_of_Z 0; f32_of_Z (-200)]
                     [f32_of_Z 0; f32_of_Z 0; f32_of_Z 0; f32_of_Z 0] in
    value_of (_max (ops := f32_ops expf) cblas 4 src m)
    = Some (f32_of_Z (-200)) /\
    value_of (_max (ops := f32_ops expf) plain 4 src m)
    = Some (f32_of_Z 0) /\
    (exists m',
       execute_forward_dense (ops := f32_ops expf) cblas self m
       = Some (tt, m') /\
       m' Dst = [S754_nan; S754_nan; S754_nan; S754_zero false]) /\
    (exists m',
       execute_forward_dense (ops := f32_ops expf) plain self m
       = Some (tt, m') /\
       m' Dst = [SFdiv 24 128 (f32_of_Z 1) (f32_of_Z 3);
                 SFdiv 24 128 (f32_of_Z 1) (f32_of_Z 3);
                 SFdiv 24 128 (f32_of_Z 1) (f32_of_Z 3); S754_zero false]).
Proof.
  intros expf mkl order H0 H200 Hm cblas plain self m.
  split; [vm_compute; reflexivity|]. split; [vm_compute; reflexivity|].
  split.
  - destruct (dense_forward_f32_group expf cblas
                [f32_of_Z 0; f32_of_Z 0; f32_of_Z 0; f32_of_Z (-200)]
                eq_refl) as (m' & Hrun & E).
    exists m'. split; [exact Hrun|]. rewrite E.
    now apply softmax_slice_cblas_overflow.
  - destruct (dense_forward_f32_group expf plain
                [f32_of_Z 0; f32_of_Z 0; f32_of_Z 0; f32_of_Z (-200)]
                eq_refl) as (m' & Hrun & E).
    exists m'. split; [exact Hrun|]. rewrite E.
    apply softmax_slice_thirds; auto; vm_compute; reflexivity.
Qed.

(** The theorem for an exponential that is right at the three
    arguments. *)
Lemma forward_dense_cblas_subtracts_wrong_maximum_witness :
  let cblas := {| USE_CBLAS := true; USE_MKL := false;
                  REDUCTION_ORDER := in_order |} in
  let self := {| outer_size_ := 1; channels_ := 4; inner_size_ := 1 |} in
  let m := fwd_mem [f32_of_Z 0; f32_of_Z 0; f32_of_Z 0; f32_of_Z (-200)]
                   [f32_of_Z 0; f32_of_Z 0; f32_of_Z 0; f32_of_Z 0] in
  value_of (_max (ops := f32_ops expf_tails) cblas 4 src m)
  = Some (f32_of_Z (-200)) /\
  exists m',
    execute_forward_dense (ops := f32_ops expf_tails) cblas self m
    = Some (tt, m') /\
    m' Dst = [S754_nan; S754_nan; S754_nan; S754_zero false].
Proof.
  intros cblas self m.
  destruct (forward_dense_cblas_subtracts_wrong_maximum expf_tails false in_order)
    as (Hmax & _ & Hrun & _).
  - reflexivity.
  - reflexivity.
  - left. reflexivity.
  - split; [exact Hmax|exact Hrun].
Defined.



(** C5.  The reference path of [_max] returns the running maximum
    [max_scan] of the slice, but the [USE_CBLAS] path returns the
    element of largest magnitude: on [x = [1, -5]] in single precision
    the first gives [1] and the second [-5]. *)
Theorem max_cblas_differs_from_scan :
  forall expf : f32 -> f32,
    let ops := f32_ops expf in
    let x := [f32_of_Z 1; f32_of_Z (-5)] in
    value_of (_max {| USE_CBLAS := false; USE_MKL := false;
                 REDUCTION_ORDER := in_order |} 2 src
                   (fwd_mem x []))
    = Some (f32_of_Z 1) /\
    value_of (_max {| USE_CBLAS := true; USE_MKL := false;
                 REDUCTION_ORDER := in_order |} 2 src
                   (fwd_mem x []))
    = Some (f32_of_Z (-5)) /\
    SFltb (f32_of_Z (-5)) (f32_of_Z 1) = true.
Proof.
  intros expf. cbv zeta. repeat split; vm_compute; reflexivity.
Qed.

(** C6.  The reduction sweep of the generic backward kernel reads
    [data] through the gradient descriptor [diff_d], not through the
    forward-output descriptor [data_d].  With two channels, [diff_d] the
    identity and [data_d] the exchange of the two offsets, the kernel
    leaves [[0.5625, -0.0625]] in [diff_src], where the computation the
    claim describes leaves [[0.1875, -0.1875]]. *)
Theorem execute_backward_generic_mixes_descriptors :
  forall expf : f32 -> f32,
    let ops := f32_ops expf in
    let self := {| outer_size_ := 1; channels_ := 2; inner_size_ := 1 |} in
    let diff_d := {| off_l := fun k => k |} in
    let data_d := {| off_l := fun k => 1 - k |} in
    let m := bwd_mem [f32_dec 25 2; f32_dec 75 2]
                     [f32_of_Z 1; f32_of_Z 0]
                     [f32_of_Z 0; f32_of_Z 0] in
    block_after (execute_backward_generic self data_d diff_d m) DiffSrc
    = Some [f32_dec 5625 4; SFopp (f32_dec 625 4)] /\
    block_after (backward_generic_as_specified self data_d diff_d m) DiffSrc
    = Some [f32_dec 1875 4; SFopp (f32_dec 1875 4)].
Proof.
  intros expf. cbv zeta. split; vm_compute; reflexivity.
Qed.



(** C10 (amended).  In the generic forward path every outer group
    starts by setting [space_max[in]] to [-FLT_MAX] (not to minus
    infinity) and [space_denom[in]] to zero, for every inner index; and
    after the first sweep [space_max[in]] is the running [nstl::max],
    from [-FLT_MAX], of the source values of that inner index over the
    channel axis.  With at least one channel, ordered values (no NaN)
    and no source value of the column below [-FLT_MAX] (every finite
    input), that is a maximum of the column: one of its values, and not
    exceeded by any. *)
Theorem generic_first_sweep_invariant :
  forall (data_t : Type) (ops : DataOps data_t) (self : softmax_t)
         (data_d : memory_desc_wrapper) (m : mem data_t) (ou : nat),
    (1 < inner_size_ self -> 2 * inner_size_ self <= length (m Scratch)) ->
    (inner_size_ self <= 1 -> 2 <= length (m Stack)) ->
    (forall c i, c < channels_ self -> i < inner_size_ self ->
                 at_ self data_d ou c i < length (m Src)) ->
    exists m1 m2,
      init_scratch self m = Some (tt, m1) /\
      max_sweep self data_d (space_max self) ou m1 = Some (tt, m2) /\
      forall i, i < inner_size_ self ->
        let col := column self data_d (m Src) ou i in
        value_of (load (space_max self) i m1) = Some d_neg_flt_max /\
        value_of (load (space_denom self) i m1) = Some d_zero /\
        value_of (load (space_max self) i m2) = Some (generic_max col) /\
        generic_max col = fold_left nstl_max col d_neg_flt_max /\
        (forall ok : data_t -> Prop,
           OrderLaws ok -> Forall ok col ->
           (forall x, In x col -> d_le d_neg_flt_max x) ->
           1 <= channels_ self ->
           In (generic_max col) col /\
           (forall x, In x col -> d_le x (generic_max col))).
Proof.
  intros data_t ops self data_d m ou H1 H2 Hs.
  destruct (first_sweep_spec self data_d ou m H1 H2 Hs)
    as (m1 & m2 & Hrun1 & Hrun2 & Hv).
  exists m1, m2. split; [exact Hrun1|]. split; [exact Hrun2|].
  intros i Hi. cbv zeta.
  destruct (Hv i Hi) as (V1 & V2 & V3).
  split; [exact V1|]. split; [exact V2|]. split; [exact V3|].
  split; [reflexivity|].
  intros ok laws Hok Hge Hc.
  unfold column, column_upto in *.
  destruct (channels_ self) as [|k]; [lia|].
  simpl seq in *. simpl map in *.
  rewrite generic_max_scan by (apply Hge; now left).
  apply (max_scan_is_max (ok := ok)); [discriminate|exact Hok].
Qed.

(** The theorem at a concrete store in single precision: two channels
    at one inner index. *)
Lemma generic_first_sweep_invariant_witness :
  let ops := f32_ops (fun x => x) in
  let self := {| outer_size_ := 1; channels_ := 2; inner_size_ := 1 |} in
  let d := {| off_l := fun k => k |} in
  let m := set_block (fwd_mem [f32_of_Z (-3); f32_of_Z 2]
                              [f32_of_Z 0; f32_of_Z 0])
                     Stack [f32_of_Z 0; f32_of_Z 0] in
  exists m1 m2,
    init_scratch self m = Some (tt, m1) /\
    max_sweep self d (space_max self) 0 m1 = Some (tt, m2) /\
    value_of (load (space_max self) 0 m1) = Some (S754_finite true 16777215 104) /\
    value_of (load (space_max self) 0 m2) = Some (f32_of_Z 2) /\
    forall x, In x [f32_of_Z (-3); f32_of_Z 2] -> SFltb (f32_of_Z 2) x = false.
Proof.
  intros ops self d m.
  destruct (@generic_first_sweep_invariant f32 ops self d m 0)
    as (m1 & m2 & Hrun1 & Hrun2 & Hv).
  - simpl. lia.
  - simpl. lia.
  - intros c i Hc Hi. simpl in *. unfold at_. simpl. lia.
  - exists m1, m2. split; [exact Hrun1|]. split; [exact Hrun2|].
    destruct (Hv 0) as (V1 & _ & V3 & _ & Hmax); [simpl; lia|].
    split; [exact V1|]. split; [exact V3|].
    destruct (Hmax f32_ordered (f32_order (fun x => x))) as [_ Hub].
    + repeat constructor; discriminate.
    + intros x [<-|[<-|[]]]; reflexivity.
    + simpl. lia.
    + exact Hub.
Defined.

(** In single precision the initial value of [space_max] is the finite
    [-FLT_MAX], not minus infinity; and on a column whose only source
    value is minus infinity the first sweep leaves [-FLT_MAX], not that
    value. *)
Lemma generic_seed_is_not_infinity :
  let ops := f32_ops (fun x => x) in
  let self := {| outer_size_ := 1; channels_ := 1; inner_size_ := 1 |} in
  let d := {| off_l := fun k => k |} in
  let m := set_block (fwd_mem [S754_infinity true] [f32_of_Z 0])
                     Stack [f32_of_Z 0; f32_of_Z 0] in
  exists m1 m2,
    init_scratch self m = Some (tt, m1) /\
    max_sweep self d (space_max self) 0 m1 = Some (tt, m2) /\
    value_of (load (space_max self) 0 m1) <> Some (S754_infinity true) /\
    value_of (load (space_max self) 0 m1)
    = Some (S754_finite true 16777215 104) /\
    column self d (m Src) 0 0 = [S754_infinity true] /\
    value_of (load (space_max self) 0 m2)
    = Some (S754_finite true 16777215 104).
Proof.
  intros ops self d m.
  eexists _, _.
  split; [vm_compute; reflexivity|].
  split; [vm_compute; reflexivity|].
  split; [vm_compute; discriminate|].
  repeat split; vm_compute; reflexivity.
Qed.

(** The outputs of one outer group of the dense kernel, in exact
    arithmetic: the mathematical softmax of the group's inputs. *)
Lemma dense_forward_R flags self (m : mem R) ou :
  1 <= channels_ self ->
  outer_size_ self * channels_ self <= length (m Src) ->
  outer_size_ self * channels_ self <= length (m Dst) ->
  ou < outer_size_ self ->
  exists m',
    execute_forward_dense flags self m = Some (tt, m') /\
    let xs := slice (m Src) (ou * channels_ self) (channels_ self) in
    xs <> [] /\
    slice (m' Dst) (ou * channels_ self) (channels_ self)
    = map (softmax_R xs) xs.
Proof.
  intros Hn Hs Hd Hou.
  destruct (dense_forward_slices R R_ops flags self m ou
              Hn Hs Hd Hou) as (m' & Hrun & Hsl & _).
  exists m'. split; [exact Hrun|]. cbv zeta in *.
  assert (Hb : ou * channels_ self + channels_ self
               <= outer_size_ self * channels_ self).
  { assert (S ou * channels_ self <= outer_size_ self * channels_ self)
      by (apply Nat.mul_le_mono_r; lia).
    simpl in *. lia. }
  assert (Hne : slice (m Src) (ou * channels_ self) (channels_ self) <> []).
  { intros E. apply (f_equal (@length R)) in E.
    rewrite length_slice in E by lia. simpl in E. lia. }
  split; [exact Hne|]. rewrite Hsl. now apply softmax_slice_R.
Qed.

(** The outputs of one column of the generic kernel, in exact
    arithmetic: the mathematical softmax of the column's inputs. *)
Lemma generic_forward_R self data_d (m : mem R) ou i :
  1 <= channels_ self ->
  (1 < inner_size_ self -> 2 * inner_size_ self <= length (m Scratch)) ->
  layout_ok self data_d (length (m Src)) ->
  layout_ok self data_d (length (m Dst)) ->
  ou < outer_size_ self -> i < inner_size_ self ->
  exists m',
    execute_forward_generic self data_d m = Some (tt, m') /\
    let xs := column self data_d (m Src) ou i in
    xs <> [] /\
    column self data_d (m' Dst) ou i = map (softmax_R xs) xs.
Proof.
  intros Hn Hscr HlS HlD Hou Hi.
  pose proof (@execute_forward_generic_spec R R_ops self data_d m
                Hscr HlS HlD) as H.
  apply runs_elim in H. destruct H as ([] & m' & Hrun & _ & _ & Hdone & _).
  exists m'. split; [exact Hrun|]. cbv zeta.
  assert (Hne : column self data_d (m Src) ou i <> []).
  { unfold column, column_upto.
    destruct (channels_ self); [lia|discriminate]. }
  split; [exact Hne|].
  unfold column, column_upto. rewrite map_map.
  apply map_ext_in. intros c Hc. apply in_seq in Hc.
  rewrite Hdone by lia.
  now apply generic_out_R.
Qed.

(** For a contiguous tensor ([inner_size == 1], identity offsets) the
    column of outer group [ou] is the group's slice. *)
Lemma column_contiguous (data_t : Type) (ops : DataOps data_t)
      (self : softmax_t) (data_d : memory_desc_wrapper) (l : list data_t)
      (ou : nat) :
  inner_size_ self = 1 ->
  (forall k, off_l data_d k = k) ->
  ou * channels_ self + channels_ self <= length l ->
  column self data_d l ou 0 = slice l (ou * channels_ self) (channels_ self)
  /\ forall c, at_ self data_d ou c 0 = ou * channels_ self + c.
Proof.
  intros Hin Hid Hb.
  assert (A : forall c, at_ self data_d ou c 0 = ou * channels_ self + c).
  { intros c. unfold at_. cbv zeta. rewrite Hid, Hin. lia. }
  split; [|exact A].
  rewrite (@slice_seq data_t ops) by exact Hb.
  unfold column, column_upto. apply map_ext. intros c. now rewrite A.
Qed.

Lemma layout_contiguous (self : softmax_t) (data_d : memory_desc_wrapper)
      (len : nat) :
  inner_size_ self = 1 ->
  (forall k, off_l data_d k = k) ->
  outer_size_ self * channels_ self <= len ->
  layout_ok self data_d len.
Proof.
  intros Hin Hid Hb. unfold layout_ok. cbv zeta. rewrite Hin.
  split.
  - intros k Hk. rewrite Hid. lia.
  - intros k k' _ _. now rewrite !Hid.
Qed.

Lemma group_end_le (O C ou : nat) : ou < O -> ou * C + C <= O * C.
Proof.
  intros H. assert (S ou * C <= O * C) by (apply Nat.mul_le_mono_r; lia).
  simpl in *. lia.
Qed.

(** C3.  On a finite input the outputs of the dense forward kernel need
    not sum to one nor lie in (0, 1].  In a [USE_CBLAS] build, whatever
    the order of the sum, the group [[0, 0, 0, -200]] gives
    [[NaN, NaN, NaN, 0]]: no output is greater than zero, and the sum
    of the outputs is NaN.  Without [USE_CBLAS] the last output of that
    group is an exact [+0], for [exp(-200)] underflows: the lower bound
    of the interval is attained. *)
Theorem forward_dense_cblas_not_normalized :
  forall (expf : f32 -> f32) (mkl : bool)
         (order : nat -> nat -> nat * nat),
    expf (f32_of_Z 0) = f32_of_Z 1 ->
    expf (f32_of_Z 200) = S754_infinity false ->
    expf (f32_of_Z (-200)) = S754_zero false \/
    expf (f32_of_Z (-200)) = S754_finite false 1 (-149) ->
    let cblas := {| USE_CBLAS := true; USE_MKL := mkl;
                    REDUCTION_ORDER := order |} in
    let plain := {| USE_CBLAS := false; USE_MKL := mkl;
                    REDUCTION_ORDER := order |} in
    let self := {| outer_size_ := 1; channels_ := 4; inner_size_ := 1 |} in
    let x := [f32_of_Z 0; f32_of_Z 0; f32_of_Z 0; f32_of_Z (-200)] in
    let m := fwd_mem x [f32_of_Z 0; f32_of_Z 0; f32_of_Z 0; f32_of_Z 0] in
    Forall (fun v => f32_finite v = true) x /\
    (exists m',
       execute_forward_dense (ops := f32_ops expf) cblas self m
       = Some (tt, m') /\
       (forall y, In y (m' Dst) -> SFltb (S754_zero false) y = false) /\
       fold_left (SFadd 24 128) (m' Dst) (S754_zero false) = S754_nan) /\
    (exists m',
       execute_forward_dense (ops := f32_ops expf) plain self m
       = Some (tt, m') /\
       nth_error (m' Dst) 3 = Some (S754_zero false) /\
       SFltb (S754_zero false) (S754_zero false) = false).
Proof.
  intros expf mkl order H0 H200 Hm cblas plain self x m.
  split; [repeat constructor|]. split.
  - destruct (dense_forward_f32_group expf cblas x eq_refl)
      as (m' & Hrun & E).
    exists m'. split; [exact Hrun|]. rewrite E.
    unfold x.
    rewrite (softmax_slice_cblas_overflow expf cblas eq_refl H0 H200).
    split; [|vm_compute; reflexivity].
    intros y [<-|[<-|[<-|[<-|[]]]]]; reflexivity.
  - destruct (dense_forward_f32_group expf plain x eq_refl)
      as (m' & Hrun & E).
    exists m'. split; [exact Hrun|]. rewrite E.
    unfold x. rewrite (softmax_slice_thirds expf plain);
      auto; vm_compute; reflexivity.
Qed.

(** The theorem for an exponential that is right at the three
    arguments. *)
Lemma forward_dense_cblas_not_normalized_witness :
  let cblas := {| USE_CBLAS := true; USE_MKL := false;
                  REDUCTION_ORDER := in_order |} in
  let self := {| outer_size_ := 1; channels_ := 4; inner_size_ := 1 |} in
  let x := [f32_of_Z 0; f32_of_Z 0; f32_of_Z 0; f32_of_Z (-200)] in
  let m := fwd_mem x [f32_of_Z 0; f32_of_Z 0; f32_of_Z 0; f32_of_Z 0] in
  exists m',
    execute_forward_dense (ops := f32_ops expf_tails) cblas self m
    = Some (tt, m') /\
    (forall y, In y (m' Dst) -> SFltb (S754_zero false) y = false) /\
    fold_left (SFadd 24 128) (m' Dst) (S754_zero false) = S754_nan.
Proof.
  intros cblas self x m.
  destruct (forward_dense_cblas_not_normalized expf_tails false in_order)
    as (_ & Hrun & _).
  - reflexivity.
  - reflexivity.
  - left. reflexivity.
  - exact Hrun.
Defined.


(** C4.  On a contiguous tensor with [inner_size == 1] the dense and
    the generic forward kernels need not agree.  In a [USE_CBLAS]
    build, whatever the order of the sum, the dense kernel subtracts the
    element of largest magnitude and the generic kernel the maximum: on
    the finite group [[0, 0, 0, -200]] the dense result is
    [[NaN, NaN, NaN, 0]] and the generic result a third each, and
    [0]. *)
Theorem forward_dense_generic_differ_with_cblas :
  forall (expf : f32 -> f32) (mkl : bool)
         (order : nat -> nat -> nat * nat),
    expf (f32_of_Z 0) = f32_of_Z 1 ->
    expf (f32_of_Z 200) = S754_infinity false ->
    expf (f32_of_Z (-200)) = S754_zero false \/
    expf (f32_of_Z (-200)) = S754_finite false 1 (-149) ->
    let cblas := {| USE_CBLAS := true; USE_MKL := mkl;
                    REDUCTION_ORDER := order |} in
    let self := {| outer_size_ := 1; channels_ := 4; inner_size_ := 1 |} in
    let data_d := {| off_l := fun k => k |} in
    let m := fwd_mem [f32_of_Z 0; f32_of_Z 0; f32_of_Z 0; f32_of_Z (-200)]
                     [f32_of_Z 0; f32_of_Z 0; f32_of_Z 0; f32_of_Z 0] in
    exists md mg,
      execute_forward_dense (ops := f32_ops expf) cblas self m
      = Some (tt, md) /\
      execute_forward_generic (ops := f32_ops expf) self data_d m
      = Some (tt, mg) /\
      md Dst = [S754_nan; S754_nan; S754_nan; S754_zero false] /\
      mg Dst = [SFdiv 24 128 (f32_of_Z 1) (f32_of_Z 3);
                SFdiv 24 128 (f32_of_Z 1) (f32_of_Z 3);
                SFdiv 24 128 (f32_of_Z 1) (f32_of_Z 3); S754_zero false].
Proof.
  intros expf mkl order H0 H200 Hm cblas self data_d m.
  destruct (dense_forward_f32_group expf cblas
              [f32_of_Z 0; f32_of_Z 0; f32_of_Z 0; f32_of_Z (-200)]
              eq_refl) as (md & Hrd & Ed).
  destruct (generic_forward_f32_group expf (f32_of_Z 0) (f32_of_Z 0)
              (f32_of_Z 0) (f32_of_Z (-200))) as (mg & Hrg & Eg).
  exists md, mg. split; [exact Hrd|]. split; [exact Hrg|].
  rewrite Ed, Eg. split.
  - now apply softmax_slice_cblas_overflow.
  - now apply generic_out_thirds.
Qed.

(** The theorem for an exponential that is right at the three
    arguments. *)
Lemma forward_dense_generic_differ_with_cblas_witness :
  let cblas := {| USE_CBLAS := true; USE_MKL := false;
                  REDUCTION_ORDER := in_order |} in
  let self := {| outer_size_ := 1; channels_ := 4; inner_size_ := 1 |} in
  let data_d := {| off_l := fun k => k |} in
  let m := fwd_mem [f32_of_Z 0; f32_of_Z 0; f32_of_Z 0; f32_of_Z (-200)]
                   [f32_of_Z 0; f32_of_Z 0; f32_of_Z 0; f32_of_Z 0] in
  exists md mg,
    execute_forward_dense (ops := f32_ops expf_tails) cblas self m
    = Some (tt, md) /\
    execute_forward_generic (ops := f32_ops expf_tails) self data_d m
    = Some (tt, mg) /\
    md Dst = [S754_nan; S754_nan; S754_nan; S754_zero false] /\
    mg Dst = [SFdiv 24 128 (f32_of_Z 1) (f32_of_Z 3);
              SFdiv 24 128 (f32_of_Z 1) (f32_of_Z 3);
              SFdiv 24 128 (f32_of_Z 1) (f32_of_Z 3); S754_zero false].
Proof.
  intros cblas self data_d m.
  apply (forward_dense_generic_differ_with_cblas expf_tails false in_order).
  - reflexivity.
  - reflexivity.
  - left. reflexivity.
Defined.


(** C7.  In a [USE_CBLAS] build, whatever the order of the sum, the
    dense forward kernel is not shift invariant, not even for a shift
    that single precision performs exactly.  Adding [200] to every element of [[0, 0, 0, -200]] gives
    [[200, 200, 200, 0]] without rounding; the kernel maps the first
    slice to [[NaN, NaN, NaN, 0]] and the second to a third each, and
    [0]: the value subtracted is the element of largest magnitude, [-200]
    in the first slice and [200] in the second, so the subtraction does
    not cancel the shift. *)
Theorem forward_dense_cblas_not_shift_invariant :
  forall (expf : f32 -> f32) (mkl : bool)
         (order : nat -> nat -> nat * nat),
    expf (f32_of_Z 0) = f32_of_Z 1 ->
    expf (f32_of_Z 200) = S754_infinity false ->
    expf (f32_of_Z (-200)) = S754_zero false \/
    expf (f32_of_Z (-200)) = S754_finite false 1 (-149) ->
    let cblas := {| USE_CBLAS := true; USE_MKL := mkl;
                    REDUCTION_ORDER := order |} in
    let self := {| outer_size_ := 1; channels_ := 4; inner_size_ := 1 |} in
    let x := [f32_of_Z 0; f32_of_Z 0; f32_of_Z 0; f32_of_Z (-200)] in
    let xc := map (fun v => SFadd 24 128 v (f32_of_Z 200)) x in
    let zeros := [f32_of_Z 0; f32_of_Z 0; f32_of_Z 0; f32_of_Z 0] in
    xc = [f32_of_Z 200; f32_of_Z 200; f32_of_Z 200; f32_of_Z 0] /\
    exists m1 m2,
      execute_forward_dense (ops := f32_ops expf) cblas self (fwd_mem x zeros)
      = Some (tt, m1) /\
      execute_forward_dense (ops := f32_ops expf) cblas self
                            (fwd_mem xc zeros)
      = Some (tt, m2) /\
      m1 Dst = [S754_nan; S754_nan; S754_nan; S754_zero false] /\
      m2 Dst = [SFdiv 24 128 (f32_of_Z 1) (f32_of_Z 3);
                SFdiv 24 128 (f32_of_Z 1) (f32_of_Z 3);
                SFdiv 24 128 (f32_of_Z 1) (f32_of_Z 3); S754_zero false].
Proof.
  intros expf mkl order H0 H200 Hm cblas self x xc zeros.
  assert (Exc : xc = [f32_of_Z 200; f32_of_Z 200; f32_of_Z 200; f32_of_Z 0])
    by (vm_compute; reflexivity).
  split; [exact Exc|]. rewrite Exc.
  destruct (dense_forward_f32_group expf cblas x eq_refl)
    as (m1 & Hr1 & E1).
  destruct (dense_forward_f32_group expf cblas
              [f32_of_Z 200; f32_of_Z 200; f32_of_Z 200; f32_of_Z 0]
              eq_refl) as (m2 & Hr2 & E2).
  exists m1, m2. split; [exact Hr1|]. split; [exact Hr2|].
  rewrite E1, E2. split.
  - now apply softmax_slice_cblas_overflow.
  - apply softmax_slice_thirds; auto; vm_compute; reflexivity.
Qed.

(** The theorem for an exponential that is right at the three
    arguments. *)
Lemma forward_dense_cblas_not_shift_invariant_witness :
  let cblas := {| USE_CBLAS := true; USE_MKL := false;
                  REDUCTION_ORDER := in_order |} in
  let self := {| outer_size_ := 1; channels_ := 4; inner_size_ := 1 |} in
  let x := [f32_of_Z 0; f32_of_Z 0; f32_of_Z 0; f32_of_Z (-200)] in
  let xc := map (fun v => SFadd 24 128 v (f32_of_Z 200)) x in
  let zeros := [f32_of_Z 0; f32_of_Z 0; f32_of_Z 0; f32_of_Z 0] in
  exists m1 m2,
    execute_forward_dense (ops := f32_ops expf_tails) cblas self
                          (fwd_mem x zeros)
    = Some (tt, m1) /\
    execute_forward_dense (ops := f32_ops expf_tails) cblas self
                          (fwd_mem xc zeros)
    = Some (tt, m2) /\
    m1 Dst = [S754_nan; S754_nan; S754_nan; S754_zero false] /\
    m2 Dst = [SFdiv 24 128 (f32_of_Z 1) (f32_of_Z 3);
              SFdiv 24 128 (f32_of_Z 1) (f32_of_Z 3);
              SFdiv 24 128 (f32_of_Z 1) (f32_of_Z 3); S754_zero false].
Proof.
  intros cblas self x xc zeros.
  destruct (forward_dense_cblas_not_shift_invariant expf_tails false in_order)
    as (_ & H).
  - reflexivity.
  - reflexivity.
  - left. reflexivity.
  - exact H.
Defined.

(** C8 (amended).  With a single channel and a finite input the dense
    forward kernel writes exactly [1.0f] to every element, in every
    build, for a C library with [exp(+0) = 1]; and the dense backward
    kernel, given that forward output ([data] equal to [1.0f]), writes
    a zero ([+0] or [-0]) for every finite [diff_dst], and NaN for a
    [diff_dst] that is infinite or NaN.  In exact arithmetic the two
    results are [1] and [0] for every input and every gradient. *)
Theorem single_channel_exact :
  (forall (flags : build_flags) (self : softmax_t) (m : mem R) (ou : nat),
     channels_ self = 1 ->
     outer_size_ self <= length (m Src) ->
     outer_size_ self <= length (m Dst) ->
     ou < outer_size_ self ->
     exists m',
       execute_forward_dense flags self m = Some (tt, m') /\
       elt (m' Dst) ou = 1%R) /\
  (forall (self : softmax_t) (m : mem R) (ou : nat),
     channels_ self = 1 ->
     outer_size_ self <= length (m Data) ->
     outer_size_ self <= length (m DiffDst) ->
     outer_size_ self <= length (m DiffSrc) ->
     ou < outer_size_ self ->
     elt (m Data) ou = 1%R ->
     exists m',
       execute_backward_dense self m = Some (tt, m') /\
       elt (m' DiffSrc) ou = 0%R) /\
  (forall (expf : f32 -> f32) (flags : build_flags) (self : softmax_t)
          (m : mem f32) (ou : nat) (x : f32),
     expf (S754_zero false) = f32_of_Z 1 ->
     channels_ self = 1 ->
     outer_size_ self <= length (m Src) ->
     outer_size_ self <= length (m Dst) ->
     ou < outer_size_ self ->
     nth_error (m Src) ou = Some x -> f32_finite x = true ->
     exists m',
       execute_forward_dense (ops := f32_ops expf) flags self m
       = Some (tt, m') /\
       nth_error (m' Dst) ou = Some (f32_of_Z 1)) /\
  (forall (expf : f32 -> f32) (self : softmax_t) (m : mem f32) (ou : nat)
          (g : f32),
     channels_ self = 1 ->
     outer_size_ self <= length (m Data) ->
     outer_size_ self <= length (m DiffDst) ->
     outer_size_ self <= length (m DiffSrc) ->
     ou < outer_size_ self ->
     nth_error (m Data) ou = Some (f32_of_Z 1) ->
     nth_error (m DiffDst) ou = Some g -> f32_finite g = true ->
     exists m' s,
       execute_backward_dense (ops := f32_ops expf) self m = Some (tt, m') /\
       nth_error (m' DiffSrc) ou = Some (S754_zero s)) /\
  (forall (expf : f32 -> f32) (self : softmax_t) (m : mem f32) (ou : nat)
          (g : f32),
     channels_ self = 1 ->
     outer_size_ self <= length (m Data) ->
     outer_size_ self <= length (m DiffDst) ->
     outer_size_ self <= length (m DiffSrc) ->
     ou < outer_size_ self ->
     nth_error (m Data) ou = Some (f32_of_Z 1) ->
     nth_error (m DiffDst) ou = Some g ->
     (g = S754_nan \/ exists s, g = S754_infinity s) ->
     exists m',
       execute_backward_dense (ops := f32_ops expf) self m = Some (tt, m') /\
       nth_error (m' DiffSrc) ou = Some S754_nan).
Proof.
  split; [|split; [|split; [|split]]].
  - intros flags self m ou HC Hs Hd Hou.
    assert (Hn : 1 <= channels_ self) by lia.
    assert (Hs' : outer_size_ self * channels_ self <= length (m Src))
      by (rewrite HC; lia).
    assert (Hd' : outer_size_ self * channels_ self <= length (m Dst))
      by (rewrite HC; lia).
    destruct (dense_forward_R flags self m ou Hn Hs' Hd' Hou)
      as (m' & Hrun & Hne & E).
    exists m'. split; [exact Hrun|]. cbv zeta in *.
    rewrite HC in *. rewrite Nat.mul_1_r in *.
    apply (@elt_of_nth_error R R_ops).
    rewrite <- (Nat.add_0_r ou) at 1.
    rewrite <- (@nth_error_slice R (m' Dst) ou 1 0) by lia.
    rewrite E. rewrite (@slice_cons R R_ops) by lia.
    simpl. unfold softmax_R. simpl. f_equal.
    pose proof (exp_pos (elt (m Src) ou)). field. lra.
  - intros self m ou HC HP HG HS Hou Hone.
    assert (HP' : outer_size_ self * channels_ self <= length (m Data))
      by (rewrite HC; lia).
    assert (HG' : outer_size_ self * channels_ self <= length (m DiffDst))
      by (rewrite HC; lia).
    assert (HS' : outer_size_ self * channels_ self <= length (m DiffSrc))
      by (rewrite HC; lia).
    assert (H0 : 0 < channels_ self) by lia.
    destruct (dense_backward_elements R R_ops self m ou 0
                HP' HG' HS' Hou H0)
      as (m' & Hrun & Hv).
    exists m'. split; [exact Hrun|]. cbv zeta in Hv.
    rewrite HC in Hv. rewrite Nat.mul_1_l, Nat.add_0_r in Hv.
    rewrite Hv, !(@slice_cons R R_ops) by lia.
    unfold dot_scan. simpl. rewrite Hone. lra.
  - exact single_channel_forward_f32.
  - exact single_channel_backward_f32.
  - exact single_channel_backward_nonfinite_f32.
Qed.

(** The backward part in single precision at a concrete store: two
    groups of one channel, gradients [3] and [-7]. *)
Lemma single_channel_exact_witness :
  let ops := f32_ops expf_tails in
  let self := {| outer_size_ := 2; channels_ := 1; inner_size_ := 1 |} in
  let m := bwd_mem [f32_of_Z 1; f32_of_Z 1] [f32_of_Z 3; f32_of_Z (-7)]
                   [f32_of_Z 0; f32_of_Z 0] in
  exists m' s,
    execute_backward_dense self m = Some (tt, m') /\
    nth_error (m' DiffSrc) 1 = Some (S754_zero s).
Proof.
  intros ops self m.
  apply (proj1 (proj2 (proj2 (proj2 single_channel_exact)))
               expf_tails self m 1 (f32_of_Z (-7)));
    simpl; try lia; reflexivity.
Defined.

(** For an infinite gradient the backward result is NaN, which is not
    [0.0]: one channel, [data = [1]], [diff_dst = [+inf]]. *)
Lemma single_channel_backward_infinite_gradient :
  let ops := f32_ops expf_tails in
  let self := {| outer_size_ := 1; channels_ := 1; inner_size_ := 1 |} in
  let m := bwd_mem [f32_of_Z 1] [S754_infinity false] [f32_of_Z 0] in
  block_after (execute_backward_dense self m) DiffSrc = Some [S754_nan].
Proof. vm_compute. reflexivity. Qed.

(** * Further properties of the kernels *)

(** ** Writes with a footprint *)


Section FootprintFacts.
Context {data_t : Type} {ops : DataOps data_t}.
Implicit Types (m : mem data_t).

Lemma rwritten_refl m B (W : nat -> data_t -> Prop) :
  (forall j v, ~ W j v) -> rwritten m m B W.
Proof.
  intros H. repeat split; auto. intros j v Hv. destruct (H j v Hv).
Qed.

Lemma rwritten_of_written m m' B pos val n :
  written m m' B pos val 0 n ->
  rwritten m m' B (fun j v => exists c, c < n /\ j = pos c /\ v = val c).
Proof.
  intros (Ho & L & Hat & Hfr). repeat split; auto.
  - intros j v (c & Hc & -> & ->). apply Hat. lia.
  - intros j Hj. apply Hfr. intros i Hi E. apply (Hj (val i)).
    exists i. repeat split; auto; lia.
Qed.

Lemma rwritten_trans m m1 m2 B (W1 W2 W : nat -> data_t -> Prop) :
  rwritten m m1 B W1 ->
  rwritten m1 m2 B W2 ->
  (forall j v v', W1 j v -> W2 j v' -> False) ->
  (forall j v, W j v <-> W1 j v \/ W2 j v) ->
  rwritten m m2 B W.
Proof.
  intros (O1 & L1 & A1 & F1) (O2 & L2 & A2 & F2) Hd HW.
  split; [|split; [|split]].
  - intros b Hb. rewrite O2, O1; auto.
  - congruence.
  - intros j v Hv. apply HW in Hv. destruct Hv as [Hv|Hv].
    + rewrite F2; [now apply A1|]. intros v' Hv'. exact (Hd _ _ _ Hv Hv').
    + now apply A2.
  - intros j Hj. rewrite F2, F1; auto.
    + intros v Hv. apply (Hj v), HW. now left.
    + intros v Hv. apply (Hj v), HW. now right.
Qed.

Lemma rwritten_ext m m' B (W W' : nat -> data_t -> Prop) :
  rwritten m m' B W -> (forall j v, W j v <-> W' j v) -> rwritten m m' B W'.
Proof.
  intros (O1 & L1 & A1 & F1) HW. repeat split; auto.
  - intros j v Hv. apply A1, HW, Hv.
  - intros j Hj. apply F1. intros v Hv. apply (Hj v), HW, Hv.
Qed.

(** A store is determined by the writes made to it. *)
Lemma rwritten_unique m m1 m2 B (W : nat -> data_t -> Prop) :
  rwritten m m1 B W -> rwritten m m2 B W -> forall b, m1 b = m2 b.
Proof.
  intros (O1 & L1 & A1 & F1) (O2 & L2 & A2 & F2) b.
  destruct (block_eq_dec b B) as [->|Hb]; [|rewrite O1, O2; auto].
  apply nth_error_ext. intros j.
  destruct (classic (exists v, W j v)) as [[v Hv]|Hn].
  - rewrite (A1 _ _ Hv), (A2 _ _ Hv). reflexivity.
  - rewrite F1, F2; auto; intros v Hv; apply Hn; now exists v.
Qed.

(** A sequence of iterations with disjoint footprints, in any order. *)
Lemma runs_for_each B (R : nat -> nat -> data_t -> Prop)
      (body : nat -> M data_t unit) (l : list nat) :
  forall m0 m,
    NoDup l ->
    (forall g g' j v v', In g l -> In g' l -> R g j v -> R g' j v' -> g = g') ->
    (forall b, b <> B -> m b = m0 b) ->
    length (m B) = length (m0 B) ->
    (forall g m1, In g l ->
       (forall b, b <> B -> m1 b = m0 b) ->
       length (m1 B) = length (m0 B) ->
       runs (body g) m1 (fun _ m2 => rwritten m1 m2 B (R g))) ->
    runs (for_each l body) m
         (fun _ m' => rwritten m m' B (fun j v => exists g, In g l /\ R g j v)).
Proof.
  induction l as [|g l IH]; intros m0 m Hnd Hdis Ho HL Hbody.
  - simpl. apply runs_ret. apply rwritten_refl.
    intros j v (g & [] & _).
  - simpl for_each. apply runs_bind.
    eapply runs_weaken; [apply (Hbody g m); auto; now left|].
    intros [] m1 W1. cbv beta.
    inversion Hnd as [|? ? Hnin Hnd']; subst.
    eapply runs_weaken.
    + apply (IH m0 m1 Hnd').
      * intros g1 g2 j v v' H1 H2. apply Hdis; now right.
      * intros b Hb. destruct W1 as (O1 & _). rewrite O1, Ho; auto.
      * destruct W1 as (_ & L1 & _). congruence.
      * intros g1 m2 Hg1. apply Hbody. now right.
    + intros [] m2 W2. cbv beta.
      eapply rwritten_trans; [exact W1|exact W2|..].
      * intros j v v' Hv (g' & Hg' & Hv').
        assert (g = g') by (apply (Hdis g g' j v v'); auto; [now left|now right]).
        subst. contradiction.
      * intros j v. split.
        -- intros (g' & [<-|Hg'] & Hv); [now left|right; eauto].
        -- intros [Hv|(g' & Hg' & Hv)]; [exists g; split; auto; now left|].
           exists g'. split; auto. now right.
Qed.

Lemma for_loop_for_each (body : nat -> M data_t unit) k :
  forall lo m,
    for_from k lo (fun i (_ : unit) => body i) tt m = for_each (seq lo k) body m.
Proof.
  induction k as [|k IH]; intros lo m; simpl; [reflexivity|].
  unfold bind. destruct (body lo m) as [[[] m1]|]; [apply IH|reflexivity].
Qed.

Lemma parallel_nd_for_each (body : nat -> M data_t unit) n m :
  parallel_nd n body m = for_each (seq 0 n) body m.
Proof.
  unfold parallel_nd, for_loop. rewrite Nat.sub_0_r. apply for_loop_for_each.
Qed.

(** A counted loop whose iterations have disjoint footprints. *)
Lemma runs_group_loop B (R : nat -> nat -> data_t -> Prop)
      (body : nat -> M data_t unit) G m :
  (forall g g' j v v', g < G -> g' < G -> R g j v -> R g' j v' -> g = g') ->
  (forall g m1, g < G ->
     (forall b, b <> B -> m1 b = m b) ->
     length (m1 B) = length (m B) ->
     runs (body g) m1 (fun _ m2 => rwritten m1 m2 B (R g))) ->
  runs (for_loop 0 G (fun g (_ : unit) => body g) tt) m
       (fun _ m' => rwritten m m' B (fun j v => exists g, g < G /\ R g j v)).
Proof.
  intros Hdis Hbody.
  unfold runs. unfold for_loop. rewrite Nat.sub_0_r, for_loop_for_each.
  change (runs (for_each (seq 0 G) body) m
            (fun _ m' => rwritten m m' B (fun j v => exists g, g < G /\ R g j v))).
  eapply runs_weaken.
  - apply (@runs_for_each B R body (seq 0 G) m m).
    + apply seq_NoDup.
    + intros g g' j v v' Hg Hg'. apply in_seq in Hg, Hg'. apply Hdis; lia.
    + auto.
    + auto.
    + intros g m1 Hg. apply in_seq in Hg. apply Hbody. lia.
  - intros [] m' W. cbv beta. eapply rwritten_ext; [exact W|].
    intros j v. split; intros (g & Hg & Hv); exists g; split; auto;
      [apply in_seq in Hg|apply in_seq]; lia.
Qed.

End FootprintFacts.

(** ** The primitives, one by one *)

Section PrimitiveProperties.

Context {data_t : Type} {ops : DataOps data_t}.

(** The contents of a store after the writes [B[base + i] = val i],
    [i < n], spelled out. *)
Lemma written_range (m m' : mem data_t) (B : block) (base : nat)
      (val : nat -> data_t) (n : nat) :
  written m m' B (fun i => base + i) val 0 n ->
  (forall i, i < n -> nth_error (m' B) (base + i) = Some (val i)) /\
  (forall j, j < base \/ base + n <= j ->
             nth_error (m' B) j = nth_error (m B) j) /\
  (forall b, b <> B -> m' b = m b).
Proof.
  intros (Ho & L & Hat & Hfr). split; [|split].
  - intros i Hi. apply Hat. lia.
  - intros j Hj. apply Hfr. intros i Hi. lia.
  - exact Ho.
Qed.

(** The scan of [isamax] returns an index inside the slice, of an
    element no other exceeds in magnitude. *)
Lemma isamax_scan_spec (ok : data_t -> Prop) (laws : OrderLaws ok)
      (xs : list data_t) :
  forall (pre : list data_t) (best : nat) (smax : data_t),
    best < length pre ->
    smax = d_abs (nth best pre d_zero) ->
    Forall (fun v => ok (d_abs v)) pre ->
    Forall (fun v => ok (d_abs v)) xs ->
    (forall v, In v pre -> d_ltb smax (d_abs v) = false) ->
    let k := isamax_scan xs (length pre) best smax in
    k < length (pre ++ xs) /\
    forall v, In v (pre ++ xs) ->
              d_ltb (d_abs (nth k (pre ++ xs) d_zero)) (d_abs v) = false.
Proof.
  induction xs as [|x r IH]; intros pre best smax Hb Es Hop Hox Hub; cbv zeta.
  - simpl. rewrite app_nil_r. split; [exact Hb|].
    intros v Hv. rewrite <- Es. now apply Hub.
  - simpl isamax_scan.
    assert (Hx : ok (d_abs x)) by (inversion Hox; assumption).
    assert (Hr : Forall (fun v => ok (d_abs v)) r) by (inversion Hox; assumption).
    assert (Hs : ok smax).
    { rewrite Es. rewrite Forall_forall in Hop. apply Hop, nth_In, Hb. }
    assert (Hop' : Forall (fun v => ok (d_abs v)) (pre ++ [x])).
    { apply Forall_app. split; [exact Hop|]. constructor; [exact Hx|constructor]. }
    assert (EL : length (pre ++ [x]) = S (length pre)).
    { rewrite length_app. simpl. lia. }
    replace (pre ++ x :: r) with ((pre ++ [x]) ++ r)
      by (rewrite <- app_assoc; reflexivity).
    rewrite <- EL.
    destruct (d_ltb smax (d_abs x)) eqn:Hlt.
    + apply IH; auto.
      * lia.
      * rewrite nth_middle. reflexivity.
      * intros v Hv. apply in_app_or in Hv. destruct Hv as [Hv|[<-|[]]].
        -- rewrite Forall_forall in Hop.
           apply (d_le_trans (ok := ok)) with (b := smax); auto.
           ++ unfold d_le. now apply Hub.
           ++ unfold d_le. apply (ltb_asym (ok := ok)); auto.
        -- apply (ltb_irrefl (ok := ok)). exact Hx.
    + apply IH; auto.
      * lia.
      * rewrite app_nth1 by exact Hb. exact Es.
      * intros v Hv. apply in_app_or in Hv. destruct Hv as [Hv|[<-|[]]].
        -- now apply Hub.
        -- exact Hlt.
Qed.

Lemma amax_elt_spec (ok : data_t -> Prop) (laws : OrderLaws ok)
      (xs : list data_t) :
  xs <> [] ->
  Forall (fun v => ok (d_abs v)) xs ->
  In (amax_elt xs) xs /\
  forall v, In v xs -> d_ltb (d_abs (amax_elt xs)) (d_abs v) = false.
Proof.
  intros Hne Hok. destruct xs as [|x0 r]; [congruence|].
  unfold amax_elt.
  assert (Hx : ok (d_abs x0)) by (inversion Hok; assumption).
  assert (Hr : Forall (fun v => ok (d_abs v)) r) by (inversion Hok; assumption).
  assert (H0 : 0 < length [x0]) by (simpl; lia).
  assert (Hp : Forall (fun v => ok (d_abs v)) [x0])
    by (constructor; [exact Hx|constructor]).
  assert (Hu : forall v, In v [x0] -> d_ltb (d_abs x0) (d_abs v) = false).
  { intros v [<-|[]]. apply (ltb_irrefl (ok := ok)). exact Hx. }
  destruct (isamax_scan_spec ok laws r [x0] 0 (d_abs x0)
              H0 eq_refl Hp Hr Hu) as [Hk Hub].
  simpl length in Hk, Hub. simpl app in Hk, Hub.
  split; [apply nth_In; exact Hk|exact Hub].
Qed.


End PrimitiveProperties.

(** X1.  [_sub(n, alpha, x, y)], for [x] and [y] in different buffers
    that hold [n] elements from the two pointers on: for every [n], a
    multiple of the unroll factor 32 or not, the unrolled loop and its
    tail together run without a fault and store [x[i] - alpha] in
    [y[i]] for every [i < n], once each; no other element of [y]'s
    buffer and no other buffer changes. *)
Theorem sub_unrolled_elementwise :
  forall (data_t : Type) (ops : DataOps data_t) (n : nat) (alpha : data_t)
         (x y : ptr) (m : mem data_t),
    p_blk x <> p_blk y ->
    p_off x + n <= length (m (p_blk x)) ->
    p_off y + n <= length (m (p_blk y)) ->
    exists m',
      _sub n alpha x y m = Some (tt, m') /\
      (forall i, i < n ->
         nth_error (m' (p_blk y)) (p_off y + i)
         = Some (d_sub (elt (m (p_blk x)) (p_off x + i)) alpha)) /\
      (forall j, j < p_off y \/ p_off y + n <= j ->
         nth_error (m' (p_blk y)) j = nth_error (m (p_blk y)) j) /\
      (forall b, b <> p_blk y -> m' b = m b).
Proof.
  intros data_t ops n alpha x y m Hxy Hx Hy.
  pose proof (_sub_spec n alpha x y m Hxy Hx Hy) as H.
  apply runs_elim in H. destruct H as ([] & m' & Hrun & W).
  exists m'. split; [exact Hrun|]. now apply written_range.
Qed.

(** The theorem on 35 elements: one unrolled block of 32 and a tail of
    3. *)
Lemma sub_unrolled_elementwise_witness :
  let m := fwd_mem (repeat 1%R 35) (repeat 0%R 35) in
  exists m',
    _sub 35 1%R src dst m = Some (tt, m') /\
    (forall i, i < 35 ->
       nth_error (m' Dst) (0 + i)
       = Some (elt (m Src) (0 + i) - 1)%R) /\
    (forall j, j < 0 \/ 0 + 35 <= j ->
       nth_error (m' Dst) j = nth_error (m Dst) j) /\
    (forall b, b <> Dst -> m' b = m b).
Proof.
  intros m.
  apply (sub_unrolled_elementwise R R_ops 35 1%R src dst m).
  - discriminate.
  - simpl. lia.
  - simpl. lia.
Defined.

(** X2.  [_max] without [USE_CBLAS], on a slice of [n >= 1] elements
    that [<] orders (any reals; single-precision values without NaN):
    the linear scan reads the slice only, writes nothing, and returns
    an element of the slice that no element of the slice exceeds. *)
Theorem max_linear_scan_is_maximum :
  forall (data_t : Type) (ops : DataOps data_t) (ok : data_t -> Prop)
         (laws : OrderLaws ok) (flags : build_flags) (n : nat) (x : ptr)
         (m : mem data_t),
    USE_CBLAS flags = false ->
    1 <= n ->
    p_off x + n <= length (m (p_blk x)) ->
    Forall ok (slice (m (p_blk x)) (p_off x) n) ->
    exists r,
      _max flags n x m = Some (r, m) /\
      In r (slice (m (p_blk x)) (p_off x) n) /\
      forall v, In v (slice (m (p_blk x)) (p_off x) n) -> d_ltb r v = false.
Proof.
  intros data_t ops ok laws flags n x m Href Hn Hb Hok.
  pose proof (_max_spec flags x m Hn Hb) as H.
  apply runs_elim in H. destruct H as (r & m' & Hrun & -> & ->).
  exists (max_value flags (slice (m (p_blk x)) (p_off x) n)).
  split; [exact Hrun|].
  unfold max_value. rewrite Href.
  apply (max_scan_is_max (ok := ok)); [|exact Hok].
  intros E. apply (f_equal (@length data_t)) in E.
  rewrite length_slice in E by exact Hb. simpl in E. lia.
Qed.

(** The theorem in single precision, on [[-5, 1, -2]]. *)
Lemma max_linear_scan_is_maximum_witness :
  let ops := f32_ops (fun x => x) in
  let flags := {| USE_CBLAS := false; USE_MKL := false;
                 REDUCTION_ORDER := in_order |} in
  let xs := [f32_of_Z (-5); f32_of_Z 1; f32_of_Z (-2)] in
  let m := fwd_mem xs [] in
  exists r,
    _max flags 3 src m = Some (r, m) /\
    In r (slice (m Src) 0 3) /\
    forall v, In v (slice (m Src) 0 3) -> SFltb r v = false.
Proof.
  intros ops flags xs m.
  apply (max_linear_scan_is_maximum f32 ops f32_ordered
           (f32_order (fun x => x)) flags 3 src m).
  - reflexivity.
  - lia.
  - simpl. lia.
  - repeat constructor; discriminate.
Defined.

(** X3.  [_max] with [USE_CBLAS], on a slice of [n >= 1] elements whose
    magnitudes [<] orders: the index [cblas_isamax] returns lies inside
    the slice, so the read [x[cblas_isamax(n, x, 1)]] is in bounds, and
    the value returned is an element of the slice whose magnitude no
    element's magnitude exceeds.  Nothing is written. *)
Theorem max_cblas_is_largest_magnitude :
  forall (data_t : Type) (ops : DataOps data_t) (ok : data_t -> Prop)
         (laws : OrderLaws ok) (flags : build_flags) (n : nat) (x : ptr)
         (m : mem data_t),
    USE_CBLAS flags = true ->
    1 <= n ->
    p_off x + n <= length (m (p_blk x)) ->
    Forall (fun v => ok (d_abs v)) (slice (m (p_blk x)) (p_off x) n) ->
    exists r,
      _max flags n x m = Some (r, m) /\
      In r (slice (m (p_blk x)) (p_off x) n) /\
      forall v, In v (slice (m (p_blk x)) (p_off x) n) ->
                d_ltb (d_abs r) (d_abs v) = false.
Proof.
  intros data_t ops ok laws flags n x m Hblas Hn Hb Hok.
  pose proof (_max_spec flags x m Hn Hb) as H.
  apply runs_elim in H. destruct H as (r & m' & Hrun & -> & ->).
  exists (max_value flags (slice (m (p_blk x)) (p_off x) n)).
  split; [exact Hrun|].
  unfold max_value. rewrite Hblas.
  apply (amax_elt_spec ok laws); [|exact Hok].
  intros E. apply (f_equal (@length data_t)) in E.
  rewrite length_slice in E by exact Hb. simpl in E. lia.
Qed.

(** The theorem in single precision, on [[-5, 1, -2]]. *)
Lemma max_cblas_is_largest_magnitude_witness :
  let ops := f32_ops (fun x => x) in
  let flags := {| USE_CBLAS := true; USE_MKL := false;
                 REDUCTION_ORDER := in_order |} in
  let xs := [f32_of_Z (-5); f32_of_Z 1; f32_of_Z (-2)] in
  let m := fwd_mem xs [] in
  exists r,
    _max flags 3 src m = Some (r, m) /\
    In r (slice (m Src) 0 3) /\
    forall v, In v (slice (m Src) 0 3) -> SFltb (SFabs r) (SFabs v) = false.
Proof.
  intros ops flags xs m.
  apply (max_cblas_is_largest_magnitude f32 ops f32_ordered
           (f32_order (fun x => x)) flags 3 src m).
  - reflexivity.
  - lia.
  - simpl. lia.
  - repeat constructor; discriminate.
Defined.



(** X5.  [_exp(n, a, r)], in place ([a == r], as the forward kernel
    calls it) or between two buffers: with or without [USE_MKL] the
    routine runs without a fault and stores [exp(a[i])] in [r[i]] for
    every [i < n]; no other element of [r]'s buffer and no other buffer
    changes. *)
Theorem exp_elementwise :
  forall (data_t : Type) (ops : DataOps data_t) (flags : build_flags)
         (n : nat) (a r : ptr) (m : mem data_t),
    a = r \/ p_blk a <> p_blk r ->
    p_off a + n <= length (m (p_blk a)) ->
    p_off r + n <= length (m (p_blk r)) ->
    exists m',
      _exp flags n a r m = Some (tt, m') /\
      (forall i, i < n ->
         nth_error (m' (p_blk r)) (p_off r + i)
         = Some (d_exp (elt (m (p_blk a)) (p_off a + i)))) /\
      (forall j, j < p_off r \/ p_off r + n <= j ->
         nth_error (m' (p_blk r)) j = nth_error (m (p_blk r)) j) /\
      (forall b, b <> p_blk r -> m' b = m b).
Proof.
  intros data_t ops flags n a r m Har Ha Hr.
  assert (H : runs (_exp flags n a r) m
                (fun _ m' =>
                   written m m' (p_blk r) (fun i => p_off r + i)
                     (fun i => d_exp (elt (m (p_blk a)) (p_off a + i))) 0 n)).
  { destruct Har as [->|Hne]; [now apply _exp_spec|].
    unfold _exp, vsExp, parallel_nd.
    destruct (USE_MKL flags);
      apply runs_copy_loop with (g := d_exp) (d := 0) (m0 := m);
      auto; lia. }
  apply runs_elim in H. destruct H as ([] & m' & Hrun & W).
  exists m'. split; [exact Hrun|]. now apply written_range.
Qed.

(** The theorem in place, over the reals, on three elements. *)
Lemma exp_elementwise_witness :
  let flags := {| USE_CBLAS := false; USE_MKL := true;
                 REDUCTION_ORDER := in_order |} in
  let m := fwd_mem [] [0%R; 1%R; 2%R] in
  exists m',
    _exp flags 3 dst dst m = Some (tt, m') /\
    (forall i, i < 3 ->
       nth_error (m' Dst) (0 + i) = Some (exp (elt (m Dst) (0 + i)))) /\
    (forall j, j < 0 \/ 0 + 3 <= j ->
       nth_error (m' Dst) j = nth_error (m Dst) j) /\
    (forall b, b <> Dst -> m' b = m b).
Proof.
  intros flags m.
  apply (exp_elementwise R R_ops flags 3 dst dst m).
  - left. reflexivity.
  - simpl. lia.
  - simpl. lia.
Defined.

(** X6.  [_scal(n, alpha, x)]: with or without [USE_CBLAS] the routine
    runs without a fault and replaces [x[i]] by [x[i] * alpha] for every
    [i < n]; no other element of the buffer and no other buffer
    changes. *)
Theorem scal_elementwise :
  forall (data_t : Type) (ops : DataOps data_t) (flags : build_flags)
         (n : nat) (alpha : data_t) (x : ptr) (m : mem data_t),
    p_off x + n <= length (m (p_blk x)) ->
    exists m',
      _scal flags n alpha x m = Some (tt, m') /\
      (forall i, i < n ->
         nth_error (m' (p_blk x)) (p_off x + i)
         = Some (d_mul (elt (m (p_blk x)) (p_off x + i)) alpha)) /\
      (forall j, j < p_off x \/ p_off x + n <= j ->
         nth_error (m' (p_blk x)) j = nth_error (m (p_blk x)) j) /\
      (forall b, b <> p_blk x -> m' b = m b).
Proof.
  intros data_t ops flags n alpha x m Hb.
  pose proof (_scal_spec flags n alpha x m Hb) as H.
  apply runs_elim in H. destruct H as ([] & m' & Hrun & W).
  exists m'. split; [exact Hrun|]. now apply written_range.
Qed.

(** The theorem over the reals, on the middle two of four elements. *)
Lemma scal_elementwise_witness :
  let flags := {| USE_CBLAS := true; USE_MKL := false;
                 REDUCTION_ORDER := in_order |} in
  let m := fwd_mem [] [1%R; 2%R; 3%R; 4%R] in
  let x := ptr_add dst 1 in
  exists m',
    _scal flags 2 5%R x m = Some (tt, m') /\
    (forall i, i < 2 ->
       nth_error (m' Dst) (1 + i) = Some (elt (m Dst) (1 + i) * 5)%R) /\
    (forall j, j < 1 \/ 1 + 2 <= j ->
       nth_error (m' Dst) j = nth_error (m Dst) j) /\
    (forall b, b <> Dst -> m' b = m b).
Proof.
  intros flags m x.
  apply (scal_elementwise R R_ops flags 2 5%R x m).
  simpl. lia.
Defined.

(** ** The generic forward kernel, element by element *)

(** The generic forward kernel on a tensor its descriptor lays out
    inside the two buffers: it returns, and the store it returns
    satisfies [generic_forward_inv]. *)
Lemma generic_forward_post :
  forall (data_t : Type) (ops : DataOps data_t) (self : softmax_t)
         (data_d : memory_desc_wrapper) (m : mem data_t),
    (1 < inner_size_ self -> 2 * inner_size_ self <= length (m Scratch)) ->
    layout_ok self data_d (length (m Src)) ->
    layout_ok self data_d (length (m Dst)) ->
    exists m',
      execute_forward_generic self data_d m = Some (tt, m') /\
      generic_forward_inv self data_d m (outer_size_ self) m'.
Proof.
  intros data_t ops self data_d m Hscr HS HD.
  pose proof (@execute_forward_generic_spec data_t ops self data_d m
                Hscr HS HD) as H.
  apply runs_elim in H. destruct H as ([] & m' & Hrun & Hinv).
  exists m'. split; assumption.
Qed.

(** The offset of a tensor element lies inside a buffer the layout
    fits in. *)
Lemma at_in_range (self : softmax_t) (d : memory_desc_wrapper) (len : nat)
      (ou c i : nat) :
  layout_ok self d len ->
  ou < outer_size_ self -> c < channels_ self -> i < inner_size_ self ->
  at_ self d ou c i < len.
Proof.
  intros [Hb _] Hou Hc Hi. cbv zeta in Hb. rewrite at_flat.
  apply Hb. apply group_index_lt; [exact Hou|].
  apply cell_index_lt; assumption.
Qed.

(** X7.  The generic forward kernel, for any descriptor that maps the
    logical indices of the tensor to distinct offsets inside [src] and
    [dst] (and a scratchpad of [2 * inner_size] elements when
    [inner_size > 1]): the kernel runs without a fault; for every outer
    group [ou], channel [c] and inner index [i] the element of [dst] at
    offset [off_l(ou * dim + c * inner_size + i)] is
    [exp(src[off] - mx) / den], with [mx] the running [nstl::max] from
    [-FLT_MAX] and [den] the running sum from [0] of the exponentials,
    both over the channel axis at [(ou, i)] in increasing channel order;
    [src] is unchanged and so is every element of [dst] that is not the
    image of a logical index. *)
Theorem execute_forward_generic_correct :
  forall (data_t : Type) (ops : DataOps data_t) (self : softmax_t)
         (data_d : memory_desc_wrapper) (m : mem data_t),
    (1 < inner_size_ self -> 2 * inner_size_ self <= length (m Scratch)) ->
    layout_ok self data_d (length (m Src)) ->
    layout_ok self data_d (length (m Dst)) ->
    exists m',
      execute_forward_generic self data_d m = Some (tt, m') /\
      m' Src = m Src /\
      length (m' Dst) = length (m Dst) /\
      (forall ou c i,
         ou < outer_size_ self -> c < channels_ self ->
         i < inner_size_ self ->
         let col := column self data_d (m Src) ou i in
         let mx := fold_left nstl_max col d_neg_flt_max in
         let den := fold_left d_add (map (fun v => d_exp (d_sub v mx)) col)
                              d_zero in
         nth_error (m' Dst) (at_ self data_d ou c i)
         = Some (d_div (d_exp (d_sub (elt (m Src) (at_ self data_d ou c i))
                                     mx)) den)) /\
      (forall j,
         (forall ou c i,
            ou < outer_size_ self -> c < channels_ self ->
            i < inner_size_ self -> at_ self data_d ou c i <> j) ->
         nth_error (m' Dst) j = nth_error (m Dst) j).
Proof.
  intros data_t ops self data_d m Hscr HS HD.
  destruct (generic_forward_post data_t ops self data_d m Hscr HS HD)
    as (m' & Hrun & ES & L & Hdone & Hrest).
  exists m'. split; [exact Hrun|]. split; [exact ES|]. split; [exact L|].
  split; [|exact Hrest].
  intros ou c i Hou Hc Hi. cbv zeta.
  rewrite (nth_error_elt (m' Dst))
    by (rewrite L; now apply at_in_range).
  rewrite (Hdone ou c i Hou Hc Hi). reflexivity.
Qed.

(** The theorem on a 1 x 2 x 2 tensor stored channel-last
    ([off_l] swaps the two axes), over the reals. *)
Lemma execute_forward_generic_correct_witness :
  let self := {| outer_size_ := 1; channels_ := 2; inner_size_ := 2 |} in
  let d := {| off_l := fun k => k mod 2 * 2 + k / 2 |} in
  let m := set_block (fwd_mem [1%R; 2%R; 3%R; 4%R] [0%R; 0%R; 0%R; 0%R])
                     Scratch [0%R; 0%R; 0%R; 0%R] in
  exists m',
    execute_forward_generic self d m = Some (tt, m') /\
    m' Src = m Src /\
    length (m' Dst) = length (m Dst) /\
    (forall ou c i,
       ou < 1 -> c < 2 -> i < 2 ->
       let col := column self d (m Src) ou i in
       let mx := fold_left nstl_max col d_neg_flt_max in
       let den := fold_left Rplus (map (fun v => exp (v - mx)) col) 0%R in
       nth_error (m' Dst) (at_ self d ou c i)
       = Some (exp (elt (m Src) (at_ self d ou c i) - mx) / den)%R) /\
    (forall j,
       (forall ou c i, ou < 1 -> c < 2 -> i < 2 -> at_ self d ou c i <> j) ->
       nth_error (m' Dst) j = nth_error (m Dst) j).
Proof.
  intros self d m.
  assert (HL : layout_ok self d 4).
  { split; cbv zeta; simpl.
    - intros k Hk.
      destruct k as [|[|[|[|k]]]]; simpl; lia.
    - intros k k' Hk Hk'.
      destruct k as [|[|[|[|k]]]]; destruct k' as [|[|[|[|k']]]];
        simpl; lia. }
  apply (execute_forward_generic_correct R R_ops self d m).
  - intros _. simpl. lia.
  - exact HL.
  - exact HL.
Defined.

(** X8.  The generic forward kernel on a tensor with no element
    ([outer_size], [channels] or [inner_size] is [0]): it returns
    without a fault, reads nothing from [src], and leaves [src] and
    [dst] as they were; unlike the dense kernel it has no
    unconditional read. *)
Theorem execute_forward_generic_empty :
  forall (data_t : Type) (ops : DataOps data_t) (self : softmax_t)
         (data_d : memory_desc_wrapper) (m : mem data_t),
    outer_size_ self * (channels_ self * inner_size_ self) = 0 ->
    (1 < inner_size_ self -> 2 * inner_size_ self <= length (m Scratch)) ->
    exists m',
      execute_forward_generic self data_d m = Some (tt, m') /\
      m' Src = m Src /\ m' Dst = m Dst.
Proof.
  intros data_t ops self data_d m Hz Hscr.
  assert (HL : forall len, layout_ok self data_d len).
  { intros len. split; cbv zeta; rewrite Hz; intros; lia. }
  destruct (generic_forward_post data_t ops self data_d m Hscr
              (HL _) (HL _)) as (m' & Hrun & ES & L & Hdone & Hrest).
  exists m'. split; [exact Hrun|]. split; [exact ES|].
  apply nth_error_ext. intros j. apply Hrest.
  intros ou c i Hou Hc Hi _.
  assert (0 < outer_size_ self * (channels_ self * inner_size_ self)).
  { apply Nat.mul_pos_pos; [lia|]. apply Nat.mul_pos_pos; lia. }
  lia.
Qed.

(** The theorem with no channel and empty buffers, in single
    precision. *)
Lemma execute_forward_generic_empty_witness :
  let ops := f32_ops (fun x => x) in
  let self := {| outer_size_ := 3; channels_ := 0; inner_size_ := 1 |} in
  let d := {| off_l := fun k => k |} in
  let m := fwd_mem [] [] in
  exists m',
    execute_forward_generic self d m = Some (tt, m') /\
    m' Src = m Src /\ m' Dst = m Dst.
Proof.
  intros ops self d m.
  apply (execute_forward_generic_empty f32 ops self d m).
  - reflexivity.
  - simpl. lia.
Defined.

(** X9.  The generic forward kernel with one channel, in single
    precision, for a C library whose [exp(+0)] is [1]: every element of
    the tensor whose source value is finite gets exactly [1.0f]; the
    seed [-FLT_MAX] of the maximum is not above a finite value, [x - x]
    is [+0], and the sum [0 + 1] and the quotient [1 / 1] are exact. *)
Theorem execute_forward_generic_single_channel :
  forall (expf : f32 -> f32) (self : softmax_t)
         (data_d : memory_desc_wrapper) (m : mem f32) (ou i : nat) (x : f32),
    expf (S754_zero false) = f32_of_Z 1 ->
    channels_ self = 1 ->
    (1 < inner_size_ self -> 2 * inner_size_ self <= length (m Scratch)) ->
    layout_ok self data_d (length (m Src)) ->
    layout_ok self data_d (length (m Dst)) ->
    ou < outer_size_ self -> i < inner_size_ self ->
    nth_error (m Src) (at_ self data_d ou 0 i) = Some x ->
    f32_finite x = true ->
    exists m',
      execute_forward_generic (ops := f32_ops expf) self data_d m
      = Some (tt, m') /\
      nth_error (m' Dst) (at_ self data_d ou 0 i) = Some (f32_of_Z 1).
Proof.
  intros expf self data_d m ou i x H0 HC Hscr HS HD Hou Hi Hx Hfin.
  destruct (generic_forward_post f32 (f32_ops expf) self data_d m
              Hscr HS HD) as (m' & Hrun & ES & L & Hdone & Hrest).
  exists m'. split; [exact Hrun|].
  assert (Hc : 0 < channels_ self) by lia.
  rewrite (nth_error_elt (ops := f32_ops expf) (m' Dst))
    by (rewrite L; now apply at_in_range).
  rewrite (Hdone ou 0 i Hou Hc Hi).
  unfold column, column_upto. rewrite HC. simpl seq. simpl map.
  rewrite (elt_of_nth_error (ops := f32_ops expf) _ _ Hx).
  unfold generic_out, generic_denom, generic_max. cbn [fold_left map].
  assert (Emax : nstl_max (ops := f32_ops expf)
                          (d_neg_flt_max (DataOps := f32_ops expf)) x = x).
  { unfold nstl_max. simpl d_ltb. simpl d_neg_flt_max.
    rewrite SFltb_neg_flt_max; [reflexivity| |].
    - unfold f32_finite in Hfin. apply andb_prop in Hfin. tauto.
    - intros E. rewrite E in Hfin. discriminate. }
  rewrite Emax. cbn [d_sub d_exp f32_ops].
  rewrite (SFsub_diag x Hfin), H0. vm_compute. reflexivity.
Qed.

(** The theorem on a 1 x 1 x 2 tensor with the values [3] and [-7]. *)
Lemma execute_forward_generic_single_channel_witness :
  let expf := fun _ : f32 => f32_of_Z 1 in
  let self := {| outer_size_ := 1; channels_ := 1; inner_size_ := 2 |} in
  let d := {| off_l := fun k => k |} in
  let m := set_block (fwd_mem [f32_of_Z 3; f32_of_Z (-7)]
                              [f32_of_Z 0; f32_of_Z 0])
                     Scratch [f32_of_Z 0; f32_of_Z 0; f32_of_Z 0; f32_of_Z 0] in
  exists m',
    execute_forward_generic (ops := f32_ops expf) self d m = Some (tt, m') /\
    nth_error (m' Dst) (at_ self d 0 0 1) = Some (f32_of_Z 1).
Proof.
  intros expf self d m.
  assert (HL : layout_ok self d 2).
  { split; cbv zeta; simpl; intros; lia. }
  apply (execute_forward_generic_single_channel expf self d m 0 1
           (f32_of_Z (-7))).
  - reflexivity.
  - reflexivity.
  - intros _. simpl. lia.
  - exact HL.
  - exact HL.
  - simpl. lia.
  - simpl. lia.
  - reflexivity.
  - reflexivity.
Defined.

(** ** Order and footprint of the dense forward kernel *)

(** One output of the dense forward kernel in exact arithmetic. *)
Lemma dense_forward_R_elt flags self (m : mem R) ou c :
  1 <= channels_ self ->
  outer_size_ self * channels_ self <= length (m Src) ->
  outer_size_ self * channels_ self <= length (m Dst) ->
  ou < outer_size_ self -> c < channels_ self ->
  exists m',
    execute_forward_dense flags self m = Some (tt, m') /\
    let xs := slice (m Src) (ou * channels_ self) (channels_ self) in
    xs <> [] /\
    elt (m' Dst) (ou * channels_ self + c)
    = softmax_R xs (elt (m Src) (ou * channels_ self + c)).
Proof.
  intros Hn Hs Hd Hou Hc.
  destruct (dense_forward_R flags self m ou Hn Hs Hd Hou)
    as (m' & Hrun & Hne & Hsl).
  exists m'. split; [exact Hrun|]. cbv zeta in *. split; [exact Hne|].
  pose proof (group_end_le _ (channels_ self) _ Hou) as Hb.
  apply elt_of_nth_error.
  rewrite <- (nth_error_slice (m' Dst) (ou * channels_ self)
                (n := channels_ self)) by exact Hc.
  rewrite Hsl, nth_error_map, nth_error_slice by exact Hc.
  rewrite (nth_error_elt (m Src)) by lia. reflexivity.
Qed.

Lemma exp_le_iff (x y : R) : (exp x <= exp y <-> x <= y)%R.
Proof.
  split; intros H.
  - destruct (Rle_or_lt x y) as [|Hlt]; [assumption|].
    apply exp_increasing in Hlt. lra.
  - destruct H as [H| ->]; [left; now apply exp_increasing|right; reflexivity].
Qed.

(** X10.  In exact arithmetic and in every build, the dense forward
    kernel keeps the order of the values of a channel slice: of two
    channels of one outer group, the one with the smaller input gets the
    smaller output, and equal inputs get equal outputs. *)
Theorem execute_forward_dense_monotone :
  forall (flags : build_flags) (self : softmax_t) (m : mem R)
         (ou c1 c2 : nat),
    1 <= channels_ self ->
    outer_size_ self * channels_ self <= length (m Src) ->
    outer_size_ self * channels_ self <= length (m Dst) ->
    ou < outer_size_ self -> c1 < channels_ self -> c2 < channels_ self ->
    exists m',
      execute_forward_dense flags self m = Some (tt, m') /\
      ((elt (m' Dst) (ou * channels_ self + c1)
        <= elt (m' Dst) (ou * channels_ self + c2))%R
       <-> (elt (m Src) (ou * channels_ self + c1)
            <= elt (m Src) (ou * channels_ self + c2))%R).
Proof.
  intros flags self m ou c1 c2 Hn Hs Hd Hou Hc1 Hc2.
  destruct (dense_forward_R_elt flags self m ou c1 Hn Hs Hd Hou Hc1)
    as (m' & Hrun & Hne & E1).
  destruct (dense_forward_R_elt flags self m ou c2 Hn Hs Hd Hou Hc2)
    as (m2 & Hrun2 & _ & E2).
  rewrite Hrun in Hrun2. injection Hrun2 as <-.
  exists m'. split; [exact Hrun|]. cbv zeta in *.
  rewrite E1, E2. unfold softmax_R.
  pose proof (Rsum_exp_pos Hne) as Hpos.
  rewrite <- (exp_le_iff (elt (m Src) (ou * channels_ self + c1))
                         (elt (m Src) (ou * channels_ self + c2))).
  set (S := Rsum (map exp (slice (m Src) (ou * channels_ self)
                                 (channels_ self)))) in *.
  split; intros H.
  - apply (Rmult_le_reg_r (/ S)); [now apply Rinv_0_lt_compat|exact H].
  - apply Rmult_le_compat_r; [left; now apply Rinv_0_lt_compat|exact H].
Qed.

(** The theorem on one group [[1, 3, 2]], channels 0 and 2. *)
Lemma execute_forward_dense_monotone_witness :
  let flags := {| USE_CBLAS := true; USE_MKL := true;
                 REDUCTION_ORDER := in_order |} in
  let self := {| outer_size_ := 1; channels_ := 3; inner_size_ := 1 |} in
  let m := fwd_mem [1%R; 3%R; 2%R] [0%R; 0%R; 0%R] in
  exists m',
    execute_forward_dense flags self m = Some (tt, m') /\
    ((elt (m' Dst) (0 * 3 + 0) <= elt (m' Dst) (0 * 3 + 2))%R
     <-> (elt (m Src) (0 * 3 + 0) <= elt (m Src) (0 * 3 + 2))%R).
Proof.
  intros flags self m.
  apply (execute_forward_dense_monotone flags self m 0 0 2);
    simpl; lia.
Defined.



(** ** The dense backward kernel, group by group *)

(** The dense backward kernel on buffers that hold the tensor: it
    returns, and the store it returns satisfies [dense_backward_inv]. *)
Lemma dense_backward_run :
  forall (data_t : Type) (ops : DataOps data_t) (self : softmax_t)
         (m : mem data_t),
    outer_size_ self * channels_ self <= length (m Data) ->
    outer_size_ self * channels_ self <= length (m DiffDst) ->
    outer_size_ self * channels_ self <= length (m DiffSrc) ->
    exists m',
      execute_backward_dense self m = Some (tt, m') /\
      dense_backward_inv self m (outer_size_ self) m'.
Proof.
  intros data_t ops self m HP HG HS.
  pose proof (execute_backward_dense_spec self m HP HG HS) as H.
  apply runs_elim in H. destruct H as ([] & m' & Hrun & Hinv).
  exists m'. split; assumption.
Qed.



Lemma fold_left_Rplus_seq (f : nat -> R) (l : list nat) :
  forall a, fold_left (fun acc i => (acc + f i)%R) l a = (a + Rsum (map f l))%R.
Proof.
  induction l as [|i l IH]; intros a; simpl; [lra|]. rewrite IH. lra.
Qed.

Lemma Rsum_correction (P G : nat -> R) (s : R) (l : list nat) :
  Rsum (map (fun i => P i * (G i - s))%R l)
  = (Rsum (map (fun i => G i * P i)%R l) - s * Rsum (map P l))%R.
Proof.
  induction l as [|i l IH]; simpl; [lra|]. rewrite IH. lra.
Qed.

(** X13.  In exact arithmetic the gradients the dense backward kernel
    writes for one outer group sum to [sbr * (1 - sum of data)] over the
    channel axis, with [sbr] the dot product of that group; so for
    [data] a forward output, whose channel slices sum to [1], the
    gradients of every group sum to [0]. *)
Theorem execute_backward_dense_sums_to_zero :
  forall (self : softmax_t) (m : mem R) (ou : nat),
    outer_size_ self * channels_ self <= length (m Data) ->
    outer_size_ self * channels_ self <= length (m DiffDst) ->
    outer_size_ self * channels_ self <= length (m DiffSrc) ->
    ou < outer_size_ self ->
    exists m',
      execute_backward_dense self m = Some (tt, m') /\
      let ps := slice (m Data) (channels_ self * ou) (channels_ self) in
      let gs := slice (m DiffDst) (channels_ self * ou) (channels_ self) in
      let ds := slice (m' DiffSrc) (channels_ self * ou) (channels_ self) in
      Rsum ds = (dot_scan gs ps * (1 - Rsum ps))%R /\
      (Rsum ps = 1%R -> Rsum ds = 0%R).
Proof.
  intros self m ou HP HG HS Hou.
  destruct (dense_backward_run R R_ops self m HP HG HS)
    as (m' & Hrun & Ho & L & Hdone & Hf).
  exists m'. split; [exact Hrun|]. cbv zeta.
  set (C := channels_ self) in *.
  assert (Hb : C * ou + C <= outer_size_ self * C).
  { pose proof (group_end_le _ C _ Hou). lia. }
  assert (E : Rsum (slice (m' DiffSrc) (C * ou) C)
              = (dot_scan (slice (m DiffDst) (C * ou) C)
                          (slice (m Data) (C * ou) C)
                 * (1 - Rsum (slice (m Data) (C * ou) C)))%R).
  { rewrite (slice_seq (m' DiffSrc)) by lia.
    rewrite (slice_seq (m Data) (C * ou) C) at 2 by lia.
    rewrite <- (dot_scan_iter (m DiffDst) (m Data) (C * ou) C) by lia.
    rewrite iter_acc_seq.
    change (@d_zero R R_ops) with 0%R. change (@d_add R R_ops) with Rplus.
    change (@d_mul R R_ops) with Rmult.
    rewrite fold_left_Rplus_seq.
    set (s := (0 + Rsum (map (fun i => elt (m DiffDst) (C * ou + i)
                                       * elt (m Data) (C * ou + i)) (seq 0 C)))%R).
    rewrite (map_ext_in
               (fun i => elt (m' DiffSrc) (C * ou + i))
               (fun i => elt (m Data) (C * ou + i)
                         * (elt (m DiffDst) (C * ou + i) - s))%R).
    - rewrite Rsum_correction. unfold s. ring.
    - intros c Hc. apply in_seq in Hc.
      rewrite (Hdone ou c) by lia. unfold dense_bwd_out. fold C.
      rewrite !nth_slice by lia.
      rewrite <- (dot_scan_iter (m DiffDst) (m Data) (C * ou) C) by lia.
      rewrite iter_acc_seq.
      change (@d_zero R R_ops) with 0%R. change (@d_add R R_ops) with Rplus.
      change (@d_mul R R_ops) with Rmult.
      rewrite fold_left_Rplus_seq. reflexivity. }
  split; [exact E|]. intros H1. rewrite E, H1. lra.
Qed.

(** The theorem on [data = [1/4, 3/4]], [diff_dst = [1, 0]]. *)
Lemma execute_backward_dense_sums_to_zero_witness :
  let self := {| outer_size_ := 1; channels_ := 2; inner_size_ := 1 |} in
  let m := bwd_mem [(1/4)%R; (3/4)%R] [1%R; 0%R] [0%R; 0%R] in
  exists m',
    execute_backward_dense self m = Some (tt, m') /\
    let ps := slice (m Data) (2 * 0) 2 in
    let gs := slice (m DiffDst) (2 * 0) 2 in
    let ds := slice (m' DiffSrc) (2 * 0) 2 in
    Rsum ds = (dot_scan gs ps * (1 - Rsum ps))%R /\
    (Rsum ps = 1%R -> Rsum ds = 0%R).
Proof.
  intros self m.
  apply (execute_backward_dense_sums_to_zero self m 0); simpl; lia.
Defined.


(** ** The generic backward kernel *)

Section GenericBackwardFacts.

Context {data_t : Type} {ops : DataOps data_t}.

Variable self : softmax_t.
Variables data_d diff_d : memory_desc_wrapper.

Lemma at_within (d : memory_desc_wrapper) (len ou c i : nat) :
  offsets_within self d len ->
  ou < outer_size_ self -> c < channels_ self -> i < inner_size_ self ->
  at_ self d ou c i < len.
Proof.
  intros Hb Hou Hc Hi. rewrite at_flat.
  apply Hb. apply group_index_lt; [exact Hou|].
  apply cell_index_lt; assumption.
Qed.

Lemma at_inj (d : memory_desc_wrapper) (len ou c i ou' c' i' : nat) :
  layout_ok self d len ->
  ou < outer_size_ self -> c < channels_ self -> i < inner_size_ self ->
  ou' < outer_size_ self -> c' < channels_ self -> i' < inner_size_ self ->
  at_ self d ou c i = at_ self d ou' c' i' ->
  ou = ou' /\ c = c' /\ i = i'.
Proof.
  intros [_ Hinj] Hou Hc Hi Hou' Hc' Hi' E. cbv zeta in Hinj.
  rewrite !at_flat in E.
  assert (Hk : c * inner_size_ self + i < channels_ self * inner_size_ self)
    by (apply cell_index_lt; assumption).
  assert (Hk' : c' * inner_size_ self + i'
                < channels_ self * inner_size_ self)
    by (apply cell_index_lt; assumption).
  apply Hinj in E; try (apply group_index_lt; assumption).
  apply group_index_inj in E; try assumption.
  destruct E as [-> E]. apply group_index_inj in E; try assumption.
  tauto.
Qed.

(** One inner index of one outer group: the reduction over the channel
    axis, then the correction. *)
Lemma backward_generic_column ou i m0 m1 :
  ou < outer_size_ self -> i < inner_size_ self ->
  layout_ok self diff_d (length (m0 DiffSrc)) ->
  offsets_within self diff_d (length (m0 DiffDst)) ->
  offsets_within self diff_d (length (m0 Data)) ->
  offsets_within self data_d (length (m0 Data)) ->
  (forall b, b <> DiffSrc -> m1 b = m0 b) ->
  length (m1 DiffSrc) = length (m0 DiffSrc) ->
  runs (let dim := channels_ self * inner_size_ self in
        bind (for_loop 0 (channels_ self) (fun c sbr =>
                let off_diff :=
                  off_l diff_d (ou * dim + c * inner_size_ self + i) in
                let off_data :=
                  off_l diff_d (ou * dim + c * inner_size_ self + i) in
                bind (load diff_dst off_diff) (fun g =>
                bind (load data off_data) (fun p =>
                ret (d_add sbr (d_mul g p))))) d_zero)
             (fun sbr =>
                for_loop 0 (channels_ self) (fun c _ =>
                  let off_diff :=
                    off_l diff_d (ou * dim + c * inner_size_ self + i) in
                  let off_data :=
                    off_l data_d (ou * dim + c * inner_size_ self + i) in
                  bind (load data off_data) (fun p =>
                  bind (load diff_dst off_diff) (fun g =>
                  store diff_src off_diff (d_mul p (d_sub g sbr))))) tt)) m1
       (fun _ m2 =>
          written m1 m2 DiffSrc (fun c => at_ self diff_d ou c i)
                  (fun c => generic_bwd_out self data_d diff_d
                              (m0 DiffDst) (m0 Data) ou c i)
                  0 (channels_ self)).
Proof.
  intros Hou Hi HL HG HPd HP Ho L1. cbv zeta.
  assert (EP : m1 Data = m0 Data) by (apply Ho; discriminate).
  assert (EG : m1 DiffDst = m0 DiffDst) by (apply Ho; discriminate).
  change (fun c : nat =>
            off_l diff_d (ou * (channels_ self * inner_size_ self)
                          + c * inner_size_ self + i))
    with (fun c : nat => at_ self diff_d ou c i).
  apply runs_bind. eapply runs_weaken.
  { apply (runs_for_loop_pure
             (fun c acc =>
                d_add acc (d_mul (elt (m0 DiffDst) (at_ self diff_d ou c i))
                                 (elt (m0 Data) (at_ self diff_d ou c i)))));
      [lia|].
    intros c a' Hc.
    change (off_l diff_d (ou * (channels_ self * inner_size_ self)
                          + c * inner_size_ self + i))
      with (at_ self diff_d ou c i).
    apply runs_bind, runs_load;
      [simpl; rewrite EG; apply at_within; auto; lia|].
    apply runs_bind, runs_load;
      [simpl; rewrite EP; apply at_within; auto; lia|].
    apply runs_ret. simpl. rewrite EG, EP. auto. }
  intros sbr m' [Esbr ->]. cbv beta.
  rewrite Nat.sub_0_r, iter_acc_seq in Esbr.
  change (sbr = generic_sbr self diff_d (m0 DiffDst) (m0 Data) ou i) in Esbr.
  eapply runs_weaken.
  { apply runs_write_loop
      with (step := fun _ (u : unit) => u)
           (B := DiffSrc) (pos := fun c => at_ self diff_d ou c i)
           (val := fun c => generic_bwd_out self data_d diff_d
                              (m0 DiffDst) (m0 Data) ou c i).
    - lia.
    - intros c Hc. rewrite L1. apply at_in_range; auto; lia.
    - intros c c' Hc Hc' E.
      apply (at_inj diff_d _ ou c i ou c' i HL) in E; auto; lia.
    - intros c [] m2 Hc W.
      pose proof (written_length W) as L.
      assert (EP2 : m2 Data = m0 Data).
      { rewrite (written_other W); [exact EP|discriminate]. }
      assert (EG2 : m2 DiffDst = m0 DiffDst).
      { rewrite (written_other W); [exact EG|discriminate]. }
      change (off_l diff_d (ou * (channels_ self * inner_size_ self)
                            + c * inner_size_ self + i))
        with (at_ self diff_d ou c i).
      change (off_l data_d (ou * (channels_ self * inner_size_ self)
                            + c * inner_size_ self + i))
        with (at_ self data_d ou c i).
      apply runs_bind, runs_load;
        [simpl; rewrite EP2; apply at_within; auto; lia|].
      apply runs_bind, runs_load;
        [simpl; rewrite EG2; apply at_within; auto; lia|].
      apply runs_store;
        [simpl; rewrite L, L1; apply at_in_range; auto; lia|].
      simpl. rewrite EP2, EG2, Esbr. auto. }
  intros [] m2 [_ W]. exact W.
Qed.



End GenericBackwardFacts.

(** ** Schedules of [parallel_nd] *)

Section ScheduleFacts.

Context {data_t : Type} {ops : DataOps data_t}.

(** Iterations with disjoint footprints leave the same store in every
    order. *)
Lemma for_each_any_order (B : block) (R : nat -> nat -> data_t -> Prop)
      (body : nat -> M data_t unit) (l l' : list nat) (m : mem data_t) :
  Permutation l l' ->
  NoDup l' ->
  (forall g g' j v v', In g l' -> In g' l' -> R g j v -> R g' j v' -> g = g') ->
  (forall g m1, In g l' ->
     (forall b, b <> B -> m1 b = m b) ->
     length (m1 B) = length (m B) ->
     runs (body g) m1 (fun _ m2 => rwritten m1 m2 B (R g))) ->
  exists m1 m2,
    for_each l' body m = Some (tt, m1) /\
    for_each l body m = Some (tt, m2) /\
    forall b, m2 b = m1 b.
Proof.
  intros HP Hnd Hdis Hbody.
  assert (Hin : forall g, In g l <-> In g l').
  { intros g. split; apply Permutation_in; [exact HP|now apply Permutation_sym]. }
  pose proof (runs_for_each B R body l' m m Hnd Hdis
                (fun b _ => eq_refl) eq_refl Hbody) as H1.
  assert (Hnd2 : NoDup l).
  { apply (Permutation_NoDup (l := l')); [now apply Permutation_sym|exact Hnd]. }
  assert (H2 : runs (for_each l body) m
                 (fun _ m' =>
                    rwritten m m' B (fun j v => exists g, In g l /\ R g j v))).
  { apply (runs_for_each B R body l m m Hnd2).
    - intros g g' j v v' Hg Hg'. apply Hdis; now apply Hin.
    - auto.
    - auto.
    - intros g m1 Hg. apply Hbody. now apply Hin. }
  apply runs_elim in H1. destruct H1 as ([] & m1 & Hr1 & W1).
  apply runs_elim in H2. destruct H2 as ([] & m2 & Hr2 & W2).
  exists m1, m2. split; [exact Hr1|]. split; [exact Hr2|].
  apply (rwritten_unique m m2 m1 B
           (fun j v => exists g, In g l' /\ R g j v)); [|exact W1].
  eapply rwritten_ext; [exact W2|].
  intros j v. split; intros (g & Hg & Hv); exists g; split; auto;
    now apply Hin.
Qed.

Variable flags : build_flags.
Variable self : softmax_t.
Variables data_d diff_d : memory_desc_wrapper.

Lemma forward_dense_group_writes (m m1 : mem data_t) (ou : nat) :
  1 <= channels_ self ->
  outer_size_ self * channels_ self <= length (m Src) ->
  outer_size_ self * channels_ self <= length (m Dst) ->
  ou < outer_size_ self ->
  (forall b, b <> Dst -> m1 b = m b) ->
  length (m1 Dst) = length (m Dst) ->
  runs (forward_dense_group flags self ou) m1
       (fun _ m2 =>
          rwritten m1 m2 Dst
            (fun j v => exists c, c < channels_ self /\
                                  j = ou * channels_ self + c /\
                                  v = dense_out flags
                                        (slice (m Src) (ou * channels_ self)
                                               (channels_ self)) c)).
Proof.
  intros Hn Hs Hd Hou Ho L.
  pose proof (group_end_le _ (channels_ self) _ Hou) as Hb.
  eapply runs_weaken.
  - apply (dense_forward_body flags self ou m1 Hn).
    + rewrite Ho by discriminate. lia.
    + rewrite L. lia.
  - intros [] m2 W. cbv beta. rewrite (Ho Src) in W by discriminate.
    now apply rwritten_of_written in W.
Qed.

Lemma backward_dense_group_writes (m m1 : mem data_t) (ou : nat) :
  outer_size_ self * channels_ self <= length (m Data) ->
  outer_size_ self * channels_ self <= length (m DiffDst) ->
  outer_size_ self * channels_ self <= length (m DiffSrc) ->
  ou < outer_size_ self ->
  (forall b, b <> DiffSrc -> m1 b = m b) ->
  length (m1 DiffSrc) = length (m DiffSrc) ->
  runs (backward_dense_group self ou) m1
       (fun _ m2 =>
          rwritten m1 m2 DiffSrc
            (fun j v => exists c, c < channels_ self /\
                                  j = channels_ self * ou + c /\
                                  v = dense_bwd_out
                                        (slice (m Data) (channels_ self * ou)
                                               (channels_ self))
                                        (slice (m DiffDst)
                                               (channels_ self * ou)
                                               (channels_ self)) c)).
Proof.
  intros HP HG HS Hou Ho L.
  pose proof (group_end_le _ (channels_ self) _ Hou) as Hb.
  eapply runs_weaken.
  - apply (dense_backward_body self ou m1).
    + rewrite Ho by discriminate. lia.
    + rewrite Ho by discriminate. lia.
    + rewrite L. lia.
  - intros [] m2 W. cbv beta.
    rewrite (Ho Data), (Ho DiffDst) in W by discriminate.
    now apply rwritten_of_written in W.
Qed.

Lemma backward_generic_group_writes (m m1 : mem data_t) (ou : nat) :
  layout_ok self diff_d (length (m DiffSrc)) ->
  offsets_within self diff_d (length (m DiffDst)) ->
  offsets_within self diff_d (length (m Data)) ->
  offsets_within self data_d (length (m Data)) ->
  ou < outer_size_ self ->
  (forall b, b <> DiffSrc -> m1 b = m b) ->
  length (m1 DiffSrc) = length (m DiffSrc) ->
  runs (backward_generic_group self data_d diff_d ou) m1
       (fun _ m2 =>
          rwritten m1 m2 DiffSrc
            (fun j v => exists i, i < inner_size_ self /\
                                  bwd_writes self data_d diff_d m ou i j v)).
Proof.
  intros HL HG HPd HP Hou Ho1 L1.
  unfold backward_generic_group. cbv zeta.
  eapply runs_weaken.
  - apply (runs_group_loop DiffSrc
             (fun i j v => bwd_writes self data_d diff_d m1 ou i j v)).
    + intros i i' j v v' Hi Hi' (c & Hc & Ej & _) (c' & Hc' & Ej' & _).
      rewrite Ej in Ej'.
      apply (at_inj self diff_d _ ou c i ou c' i' HL) in Ej'; auto. tauto.
    + intros i m2 Hi Ho2 L2.
      eapply runs_weaken.
      * apply (backward_generic_column self data_d diff_d ou i m m2); auto.
        -- intros b Hb. rewrite Ho2, Ho1; auto.
        -- congruence.
      * intros [] m3 W. cbv beta.
        apply rwritten_of_written in W.
        eapply rwritten_ext; [exact W|].
        intros j v. unfold bwd_writes.
        rewrite (Ho1 DiffDst), (Ho1 Data) by discriminate.
        reflexivity.
  - intros [] m2 W. cbv beta.
    eapply rwritten_ext; [exact W|].
    intros j v. unfold bwd_writes.
    rewrite (Ho1 DiffDst), (Ho1 Data) by discriminate.
    reflexivity.
Qed.

End ScheduleFacts.


(** The generic backward kernel runs without a fault and writes, for
    every logical index, [generic_bwd_out] at its offset in
    [diff_src]. *)
Lemma execute_backward_generic_spec (data_t : Type) (ops : DataOps data_t)
      (self : softmax_t) (data_d diff_d : memory_desc_wrapper)
      (m : mem data_t) :
  layout_ok self diff_d (length (m DiffSrc)) ->
  offsets_within self diff_d (length (m DiffDst)) ->
  offsets_within self diff_d (length (m Data)) ->
  offsets_within self data_d (length (m Data)) ->
  runs (execute_backward_generic self data_d diff_d) m
       (fun _ m' =>
          rwritten m m' DiffSrc
                   (fun j v => exists ou, ou < outer_size_ self /\
                               exists i, i < inner_size_ self /\
                                         bwd_writes self data_d diff_d
                                                    m ou i j v)).
Proof.
  intros HL HG HPd HP.
  change (execute_backward_generic self data_d diff_d)
    with (parallel_nd (outer_size_ self)
                      (backward_generic_group self data_d diff_d)).
  unfold parallel_nd.
  apply (runs_group_loop DiffSrc
           (fun ou j v => exists i, i < inner_size_ self /\
                                    bwd_writes self data_d diff_d m ou i j v)).
  - intros ou ou' j v v' Hou Hou' (i & Hi & c & Hc & Ej & _)
           (i' & Hi' & c' & Hc' & Ej' & _).
    rewrite Ej in Ej'.
    apply (at_inj self diff_d _ ou c i ou' c' i' HL) in Ej'; auto. tauto.
  - intros ou m1 Hou Ho1 L1.
    now apply backward_generic_group_writes.
Qed.

Lemma fold_left_ext_in (A B : Type) (f g : A -> B -> A) (l : list B) :
  forall a,
    (forall a' x, In x l -> f a' x = g a' x) ->
    fold_left f l a = fold_left g l a.
Proof.
  induction l as [|x l IH]; intros a H; simpl; [reflexivity|].
  rewrite (H a x) by now left. apply IH. intros a' y Hy. apply H. now right.
Qed.

(** The generic backward kernel on a tensor its descriptors lay out
    inside the three buffers: it returns, and [diff_src] holds
    [generic_bwd_out] at the offset of every logical index. *)
Lemma generic_backward_post :
  forall (data_t : Type) (ops : DataOps data_t) (self : softmax_t)
         (data_d diff_d : memory_desc_wrapper) (m : mem data_t),
    layout_ok self diff_d (length (m DiffSrc)) ->
    offsets_within self diff_d (length (m DiffDst)) ->
    offsets_within self diff_d (length (m Data)) ->
    offsets_within self data_d (length (m Data)) ->
    exists m',
      execute_backward_generic self data_d diff_d m = Some (tt, m') /\
      (forall b, b <> DiffSrc -> m' b = m b) /\
      length (m' DiffSrc) = length (m DiffSrc) /\
      (forall ou c i,
         ou < outer_size_ self -> c < channels_ self ->
         i < inner_size_ self ->
         nth_error (m' DiffSrc) (at_ self diff_d ou c i)
         = Some (generic_bwd_out self data_d diff_d
                                 (m DiffDst) (m Data) ou c i)) /\
      (forall j,
         (forall ou c i,
            ou < outer_size_ self -> c < channels_ self ->
            i < inner_size_ self -> at_ self diff_d ou c i <> j) ->
         nth_error (m' DiffSrc) j = nth_error (m DiffSrc) j).
Proof.
  intros data_t ops self data_d diff_d m HL HG HPd HP.
  pose proof (execute_backward_generic_spec data_t ops self data_d diff_d m
                HL HG HPd HP) as H.
  apply runs_elim in H. destruct H as ([] & m' & Hrun & Ho & L & Hat & Hfr).
  exists m'. split; [exact Hrun|]. split; [exact Ho|]. split; [exact L|].
  split.
  - intros ou c i Hou Hc Hi. apply Hat.
    exists ou. split; [exact Hou|]. exists i. split; [exact Hi|].
    exists c. auto.
  - intros j Hj. apply Hfr.
    intros v (ou & Hou & i & Hi & c & Hc & E & _).
    apply (Hj ou c i Hou Hc Hi). now symmetry.
Qed.

(** X14.  The generic backward kernel as the code computes it, for a
    gradient descriptor [diff_d] that maps the logical indices of the
    tensor to distinct offsets inside [diff_src], and offsets of both
    descriptors inside the buffers they index: the kernel runs without
    a fault; at the offset [diff_d.off_l] of every logical index
    [(ou, c, i)], [diff_src] holds [data[data_d.off] * (diff_dst[diff_d.off]
    - sbr)], where [sbr] is the left-to-right sum over the channel axis
    of [diff_dst[diff_d.off] * data[diff_d.off]]: in the reduction
    [data] is read at the offsets of the gradient descriptor.  [data],
    [diff_dst], and every element of [diff_src] that is not the image of
    a logical index are unchanged. *)
Theorem execute_backward_generic_as_written :
  forall (data_t : Type) (ops : DataOps data_t) (self : softmax_t)
         (data_d diff_d : memory_desc_wrapper) (m : mem data_t),
    layout_ok self diff_d (length (m DiffSrc)) ->
    offsets_within self diff_d (length (m DiffDst)) ->
    offsets_within self diff_d (length (m Data)) ->
    offsets_within self data_d (length (m Data)) ->
    exists m',
      execute_backward_generic self data_d diff_d m = Some (tt, m') /\
      (forall b, b <> DiffSrc -> m' b = m b) /\
      length (m' DiffSrc) = length (m DiffSrc) /\
      (forall ou c i,
         ou < outer_size_ self -> c < channels_ self ->
         i < inner_size_ self ->
         let sbr :=
           fold_left
             (fun acc c' =>
                d_add acc (d_mul (elt (m DiffDst) (at_ self diff_d ou c' i))
                                 (elt (m Data) (at_ self diff_d ou c' i))))
             (seq 0 (channels_ self)) d_zero in
         nth_error (m' DiffSrc) (at_ self diff_d ou c i)
         = Some (d_mul (elt (m Data) (at_ self data_d ou c i))
                       (d_sub (elt (m DiffDst) (at_ self diff_d ou c i))
                              sbr))) /\
      (forall j,
         (forall ou c i,
            ou < outer_size_ self -> c < channels_ self ->
            i < inner_size_ self -> at_ self diff_d ou c i <> j) ->
         nth_error (m' DiffSrc) j = nth_error (m DiffSrc) j).
Proof.
  exact generic_backward_post.
Qed.

(** The theorem on a 1 x 2 x 2 tensor whose gradients are stored
    channel-last and whose [data] is stored channel-first. *)
Lemma execute_backward_generic_as_written_witness :
  let self := {| outer_size_ := 1; channels_ := 2; inner_size_ := 2 |} in
  let data_d := {| off_l := fun k => k |} in
  let diff_d := {| off_l := fun k => k mod 2 * 2 + k / 2 |} in
  let m := bwd_mem [(1/4)%R; (1/2)%R; (3/4)%R; (1/2)%R]
                   [1%R; 0%R; 0%R; 1%R] [0%R; 0%R; 0%R; 0%R] in
  exists m',
    execute_backward_generic self data_d diff_d m = Some (tt, m') /\
    (forall b, b <> DiffSrc -> m' b = m b) /\
    length (m' DiffSrc) = length (m DiffSrc) /\
    (forall ou c i,
       ou < 1 -> c < 2 -> i < 2 ->
       let sbr :=
         fold_left
           (fun acc c' =>
              (acc + elt (m DiffDst) (at_ self diff_d ou c' i)
                     * elt (m Data) (at_ self diff_d ou c' i))%R)
           (seq 0 2) 0%R in
       nth_error (m' DiffSrc) (at_ self diff_d ou c i)
       = Some (elt (m Data) (at_ self data_d ou c i)
               * (elt (m DiffDst) (at_ self diff_d ou c i) - sbr))%R) /\
    (forall j,
       (forall ou c i,
          ou < 1 -> c < 2 -> i < 2 -> at_ self diff_d ou c i <> j) ->
       nth_error (m' DiffSrc) j = nth_error (m DiffSrc) j).
Proof.
  intros self data_d diff_d m.
  assert (B1 : offsets_within self diff_d 4).
  { intros k Hk. simpl in Hk.
    destruct k as [|[|[|[|k]]]]; simpl; lia. }
  assert (B2 : offsets_within self data_d 4).
  { intros k Hk. simpl in *. lia. }
  apply (execute_backward_generic_as_written R R_ops self data_d diff_d m).
  - split; [exact B1|]. cbv zeta. simpl.
    intros k k' Hk Hk'.
    destruct k as [|[|[|[|k]]]]; destruct k' as [|[|[|[|k']]]];
      simpl; lia.
  - exact B1.
  - exact B1.
  - exact B2.
Defined.

(** X15.  When the two descriptors agree on the logical indices of the
    tensor (the forward output and the gradients have one layout), the
    generic backward kernel computes the softmax gradient with every
    [data] element read through the forward-output descriptor [data_d]:
    [diff_src[diff_d.off] = data[data_d.off] * (diff_dst[diff_d.off] -
    sbr)] with [sbr] the sum over the channel axis of
    [diff_dst[diff_d.off] * data[data_d.off]]. *)
Theorem execute_backward_generic_same_layout :
  forall (data_t : Type) (ops : DataOps data_t) (self : softmax_t)
         (data_d diff_d : memory_desc_wrapper) (m : mem data_t),
    (forall k, k < outer_size_ self * (channels_ self * inner_size_ self) ->
               off_l data_d k = off_l diff_d k) ->
    layout_ok self diff_d (length (m DiffSrc)) ->
    offsets_within self diff_d (length (m DiffDst)) ->
    offsets_within self data_d (length (m Data)) ->
    exists m',
      execute_backward_generic self data_d diff_d m = Some (tt, m') /\
      (forall ou c i,
         ou < outer_size_ self -> c < channels_ self ->
         i < inner_size_ self ->
         let sbr :=
           fold_left
             (fun acc c' =>
                d_add acc (d_mul (elt (m DiffDst) (at_ self diff_d ou c' i))
                                 (elt (m Data) (at_ self data_d ou c' i))))
             (seq 0 (channels_ self)) d_zero in
         nth_error (m' DiffSrc) (at_ self diff_d ou c i)
         = Some (d_mul (elt (m Data) (at_ self data_d ou c i))
                       (d_sub (elt (m DiffDst) (at_ self diff_d ou c i))
                              sbr))).
Proof.
  intros data_t ops self data_d diff_d m Hsame HL HG HP.
  assert (HPd : offsets_within self diff_d (length (m Data))).
  { intros k Hk. rewrite <- (Hsame k Hk). now apply HP. }
  destruct (generic_backward_post data_t ops self data_d diff_d m
              HL HG HPd HP) as (m' & Hrun & _ & _ & Hat & _).
  exists m'. split; [exact Hrun|].
  intros ou c i Hou Hc Hi. cbv zeta.
  rewrite (Hat ou c i Hou Hc Hi). unfold generic_bwd_out, generic_sbr.
  do 3 f_equal. apply fold_left_ext_in.
  intros a c' Hc'. apply in_seq in Hc'.
  do 3 f_equal. rewrite !at_flat. symmetry. apply Hsame.
  apply group_index_lt; [exact Hou|]. apply cell_index_lt; lia.
Qed.

(** The theorem on a 1 x 2 x 2 tensor, both descriptors channel-last. *)
Lemma execute_backward_generic_same_layout_witness :
  let self := {| outer_size_ := 1; channels_ := 2; inner_size_ := 2 |} in
  let d := {| off_l := fun k => k mod 2 * 2 + k / 2 |} in
  let m := bwd_mem [(1/4)%R; (1/2)%R; (3/4)%R; (1/2)%R]
                   [1%R; 0%R; 0%R; 1%R] [0%R; 0%R; 0%R; 0%R] in
  exists m',
    execute_backward_generic self d d m = Some (tt, m') /\
    (forall ou c i,
       ou < 1 -> c < 2 -> i < 2 ->
       let sbr :=
         fold_left
           (fun acc c' =>
              (acc + elt (m DiffDst) (at_ self d ou c' i)
                     * elt (m Data) (at_ self d ou c' i))%R)
           (seq 0 2) 0%R in
       nth_error (m' DiffSrc) (at_ self d ou c i)
       = Some (elt (m Data) (at_ self d ou c i)
               * (elt (m DiffDst) (at_ self d ou c i) - sbr))%R).
Proof.
  intros self d m.
  assert (B1 : offsets_within self d 4).
  { intros k Hk. simpl in Hk.
    destruct k as [|[|[|[|k]]]]; simpl; lia. }
  apply (execute_backward_generic_same_layout R R_ops self d d m).
  - reflexivity.
  - split; [exact B1|]. cbv zeta. simpl.
    intros k k' Hk Hk'.
    destruct k as [|[|[|[|k]]]]; destruct k' as [|[|[|[|k']]]];
      simpl; lia.
  - exact B1.
  - exact B1.
Defined.





(** X17.  The iterations of the [parallel_nd] of the dense forward
    kernel can run in any order: each outer group reads [src] and its
    own slice of [dst] and writes its own slice of [dst] only, so for
    every permutation of the outer groups, running the iterations one
    after another in that order leaves the store the kernel leaves. *)
Theorem execute_forward_dense_any_order :
  forall (data_t : Type) (ops : DataOps data_t) (flags : build_flags)
         (self : softmax_t) (m : mem data_t) (order : list nat),
    Permutation order (seq 0 (outer_size_ self)) ->
    1 <= channels_ self ->
    outer_size_ self * channels_ self <= length (m Src) ->
    outer_size_ self * channels_ self <= length (m Dst) ->
    execute_forward_dense flags self
    = parallel_nd (outer_size_ self) (forward_dense_group flags self) /\
    exists m1 m2,
      execute_forward_dense flags self m = Some (tt, m1) /\
      for_each order (forward_dense_group flags self) m = Some (tt, m2) /\
      forall b, m2 b = m1 b.
Proof.
  intros data_t ops flags self m order HP Hn Hs Hd.
  split; [reflexivity|].
  change (execute_forward_dense flags self m)
    with (parallel_nd (outer_size_ self) (forward_dense_group flags self) m).
  rewrite parallel_nd_for_each.
  apply (for_each_any_order Dst
           (fun ou j v => exists c, c < channels_ self /\
                                    j = ou * channels_ self + c /\
                                    v = dense_out flags
                                          (slice (m Src) (ou * channels_ self)
                                                 (channels_ self)) c)).
  - exact HP.
  - apply seq_NoDup.
  - intros g g' j v v' _ _ (c & Hc & Ej & _) (c' & Hc' & Ej' & _).
    rewrite Ej in Ej'. apply group_index_inj in Ej'; tauto.
  - intros g m1 Hg Ho L. apply in_seq in Hg.
    apply forward_dense_group_writes; auto; lia.
Qed.

(** The theorem on three groups run in the order 2, 0, 1. *)
Lemma execute_forward_dense_any_order_witness :
  let flags := {| USE_CBLAS := false; USE_MKL := false;
                 REDUCTION_ORDER := in_order |} in
  let self := {| outer_size_ := 3; channels_ := 2; inner_size_ := 1 |} in
  let m := fwd_mem [1%R; 2%R; 3%R; 4%R; 5%R; 6%R]
                   [0%R; 0%R; 0%R; 0%R; 0%R; 0%R] in
  execute_forward_dense flags self
  = parallel_nd 3 (forward_dense_group flags self) /\
  exists m1 m2,
    execute_forward_dense flags self m = Some (tt, m1) /\
    for_each [2; 0; 1] (forward_dense_group flags self) m = Some (tt, m2) /\
    forall b, m2 b = m1 b.
Proof.
  intros flags self m.
  apply (execute_forward_dense_any_order R R_ops flags self m [2; 0; 1]).
  - apply (Permutation_cons_app [0; 1] [] 2). apply Permutation_refl.
  - simpl. lia.
  - simpl. lia.
  - simpl. lia.
Defined.

(** X18.  The iterations of the [parallel_nd] of the two backward
    kernels can run in any order: each outer group writes only the
    elements of [diff_src] of its own logical indices and reads
    [diff_src] nowhere else, so for every permutation of the outer
    groups, running the iterations one after another in that order
    leaves the store the kernel leaves. *)
Theorem execute_backward_any_order :
  (forall (data_t : Type) (ops : DataOps data_t) (self : softmax_t)
          (m : mem data_t) (order : list nat),
     Permutation order (seq 0 (outer_size_ self)) ->
     outer_size_ self * channels_ self <= length (m Data) ->
     outer_size_ self * channels_ self <= length (m DiffDst) ->
     outer_size_ self * channels_ self <= length (m DiffSrc) ->
     execute_backward_dense self
     = parallel_nd (outer_size_ self) (backward_dense_group self) /\
     exists m1 m2,
       execute_backward_dense self m = Some (tt, m1) /\
       for_each order (backward_dense_group self) m = Some (tt, m2) /\
       forall b, m2 b = m1 b) /\
  (forall (data_t : Type) (ops : DataOps data_t) (self : softmax_t)
          (data_d diff_d : memory_desc_wrapper) (m : mem data_t)
          (order : list nat),
     Permutation order (seq 0 (outer_size_ self)) ->
     layout_ok self diff_d (length (m DiffSrc)) ->
     offsets_within self diff_d (length (m DiffDst)) ->
     offsets_within self diff_d (length (m Data)) ->
     offsets_within self data_d (length (m Data)) ->
     execute_backward_generic self data_d diff_d
     = parallel_nd (outer_size_ self)
                   (backward_generic_group self data_d diff_d) /\
     exists m1 m2,
       execute_backward_generic self data_d diff_d m = Some (tt, m1) /\
       for_each order (backward_generic_group self data_d diff_d) m
       = Some (tt, m2) /\
       forall b, m2 b = m1 b).
Proof.
  split.
  - intros data_t ops self m order HP Hp Hg Hs.
    split; [reflexivity|].
    change (execute_backward_dense self m)
      with (parallel_nd (outer_size_ self) (backward_dense_group self) m).
    rewrite parallel_nd_for_each.
    apply (for_each_any_order DiffSrc
             (fun ou j v =>
                exists c, c < channels_ self /\
                          j = channels_ self * ou + c /\
                          v = dense_bwd_out
                                (slice (m Data) (channels_ self * ou)
                                       (channels_ self))
                                (slice (m DiffDst) (channels_ self * ou)
                                       (channels_ self)) c)).
    + exact HP.
    + apply seq_NoDup.
    + intros g g' j v v' _ _ (c & Hc & Ej & _) (c' & Hc' & Ej' & _).
      rewrite Ej in Ej'.
      rewrite (Nat.mul_comm _ g), (Nat.mul_comm _ g') in Ej'.
      apply group_index_inj in Ej'; tauto.
    + intros g m1 Hin Ho L. apply in_seq in Hin.
      apply backward_dense_group_writes; auto; lia.
  - intros data_t ops self data_d diff_d m order HP HL HG HPd HPp.
    split; [reflexivity|].
    change (execute_backward_generic self data_d diff_d m)
      with (parallel_nd (outer_size_ self)
                        (backward_generic_group self data_d diff_d) m).
    rewrite parallel_nd_for_each.
    apply (for_each_any_order DiffSrc
             (fun ou j v =>
                exists i, i < inner_size_ self /\
                          bwd_writes self data_d diff_d m ou i j v)).
    + exact HP.
    + apply seq_NoDup.
    + intros g g' j v v' Hg Hg' (i & Hi & c & Hc & Ej & _)
             (i' & Hi' & c' & Hc' & Ej' & _).
      apply in_seq in Hg, Hg'. rewrite Ej in Ej'.
      apply (at_inj self diff_d _ g c i g' c' i' HL) in Ej';
        auto; try lia; tauto.
    + intros g m1 Hin Ho L. apply in_seq in Hin.
      apply backward_generic_group_writes; auto; lia.
Qed.

(** The dense part on three groups run in the order 2, 0, 1. *)
Lemma execute_backward_any_order_witness :
  let self := {| outer_size_ := 3; channels_ := 2; inner_size_ := 1 |} in
  let m := bwd_mem [1%R; 2%R; 3%R; 4%R; 5%R; 6%R]
                   [6%R; 5%R; 4%R; 3%R; 2%R; 1%R]
                   [0%R; 0%R; 0%R; 0%R; 0%R; 0%R] in
  execute_backward_dense self
  = parallel_nd 3 (backward_dense_group self) /\
  exists m1 m2,
    execute_backward_dense self m = Some (tt, m1) /\
    for_each [2; 0; 1] (backward_dense_group self) m = Some (tt, m2) /\
    forall b, m2 b = m1 b.
Proof.
  intros self m.
  apply (proj1 execute_backward_any_order R R_ops self m [2; 0; 1]).
  - apply (Permutation_cons_app [0; 1] [] 2). apply Permutation_refl.
  - simpl. lia.
  - simpl. lia.
  - simpl. lia.
Defined.


(** ** Blocks a kernel never writes *)

Section PreservesFacts.

Context {data_t : Type} {ops : DataOps data_t}.

Lemma preserves_ret (A : Type) (a : A) b :
  preserves (ret a : M data_t A) b.
Proof. intros m a' m' H. unfold ret in H. congruence. Qed.

Lemma preserves_bind (A B : Type) (c : M data_t A) (k : A -> M data_t B) b :
  preserves c b -> (forall a, preserves (k a) b) -> preserves (bind c k) b.
Proof.
  intros Hc Hk m r m' H. unfold bind in H.
  destruct (c m) as [[a m1]|] eqn:E; [|discriminate].
  rewrite (Hk a m1 r m' H). exact (Hc m a m1 E).
Qed.

Lemma preserves_load (p : ptr) i b :
  preserves (load p i : M data_t data_t) b.
Proof.
  intros m a m' H. unfold load in H.
  destruct (nth_error (m (p_blk p)) (p_off p + i)); congruence.
Qed.

Lemma preserves_load_slice (p : ptr) n b :
  preserves (load_slice p n : M data_t (list data_t)) b.
Proof.
  intros m a m' H. unfold load_slice in H. cbv zeta in H.
  destruct (p_off p + n <=? length (m (p_blk p))); congruence.
Qed.

Lemma preserves_store (p : ptr) i (v : data_t) b :
  b <> p_blk p -> preserves (store p i v) b.
Proof.
  intros Hb m a m' H. unfold store in H. cbv zeta in H.
  destruct (p_off p + i <? length (m (p_blk p))); [|discriminate].
  injection H as _ <-. now apply set_block_ne.
Qed.

Lemma preserves_for_from (A : Type) (body : nat -> A -> M data_t A) b k :
  (forall i a, preserves (body i a) b) ->
  forall lo a, preserves (for_from k lo body a) b.
Proof.
  intros Hb. induction k as [|k IH]; intros lo a; simpl.
  - apply preserves_ret.
  - apply preserves_bind; [apply Hb|]. intros a'. apply IH.
Qed.

Lemma preserves_for_loop (A : Type) (body : nat -> A -> M data_t A) b lo hi a :
  (forall i a', preserves (body i a') b) ->
  preserves (for_loop lo hi body a) b.
Proof. intros Hb. unfold for_loop. now apply preserves_for_from. Qed.

Lemma preserves_for_step (body : nat -> M data_t unit) b lo hi step :
  (forall i, preserves (body i) b) ->
  preserves (for_step lo hi step body) b.
Proof.
  intros Hb. unfold for_step. generalize (S (hi - lo)) as fuel.
  intros fuel. revert lo.
  induction fuel as [|f IH]; intros lo; simpl.
  - apply preserves_ret.
  - destruct (lo <? hi); [|apply preserves_ret].
    apply preserves_bind; [apply Hb|]. intros _. apply IH.
Qed.

Lemma preserves_parallel_nd (body : nat -> M data_t unit) b n :
  (forall i, preserves (body i) b) -> preserves (parallel_nd n body) b.
Proof.
  intros Hb. unfold parallel_nd. apply preserves_for_loop.
  intros i _. apply Hb.
Qed.

End PreservesFacts.

(** Block preservation, by the structure of the computation. *)
Ltac preserves_step :=
  first
    [ apply preserves_ret
    | apply preserves_load
    | apply preserves_load_slice
    | apply preserves_store; simpl; congruence
    | apply preserves_bind; [|intro]
    | apply preserves_for_loop; intros
    | apply preserves_for_step; intros
    | apply preserves_parallel_nd; intros ].

Section KernelFootprints.

Context {data_t : Type} {ops : DataOps data_t}.

Variable flags : build_flags.

Lemma preserves_max n (x : ptr) b : preserves (_max flags n x) b.
Proof.
  unfold _max, cblas_isamax. destruct (USE_CBLAS flags);
    repeat preserves_step.
Qed.

Lemma preserves_sub n (alpha : data_t) (x y : ptr) b :
  b <> p_blk y -> preserves (_sub n alpha x y) b.
Proof. intros Hb. unfold _sub. cbv zeta. repeat preserves_step. Qed.

Lemma preserves_exp n (a r : ptr) b :
  b <> p_blk r -> preserves (_exp flags n a r) b.
Proof.
  intros Hb. unfold _exp, vsExp. destruct (USE_MKL flags);
    repeat preserves_step.
Qed.

Lemma preserves_sum n (x : ptr) b : preserves (_sum flags n x) b.
Proof.
  unfold _sum, cblas_sasum. destruct (USE_CBLAS flags);
    repeat preserves_step.
Qed.

Lemma preserves_scal n (alpha : data_t) (x : ptr) b :
  b <> p_blk x -> preserves (_scal flags n alpha x) b.
Proof.
  intros Hb. unfold _scal, cblas_sscal. destruct (USE_CBLAS flags);
    repeat preserves_step.
Qed.

Variable self : softmax_t.
Variables data_d diff_d : memory_desc_wrapper.

Lemma preserves_forward_dense b :
  b <> Dst -> preserves (execute_forward_dense flags self) b.
Proof.
  intros Hb. unfold execute_forward_dense.
  apply preserves_parallel_nd. intros ou. cbv zeta.
  apply preserves_bind; [apply preserves_max|intros s].
  apply preserves_bind; [now apply preserves_sub|intros _].
  apply preserves_bind; [now apply preserves_exp|intros _].
  apply preserves_bind; [apply preserves_sum|intros s'].
  now apply preserves_scal.
Qed.

Lemma preserves_forward_generic_group ou b :
  b <> Dst -> b <> p_blk (space_max self) -> b <> p_blk (space_denom self) ->
  preserves (forward_generic_group self data_d ou) b.
Proof.
  intros HD Hm Hd.
  unfold forward_generic_group, init_scratch, array_set, max_sweep,
    exp_sweep, div_sweep. cbv zeta.
  repeat preserves_step.
Qed.

Lemma space_blocks :
  (1 < inner_size_ self /\ p_blk (space_max self) = Scratch /\
   p_blk (space_denom self) = Scratch) \/
  (inner_size_ self <= 1 /\ p_blk (space_max self) = Stack /\
   p_blk (space_denom self) = Stack).
Proof.
  unfold space_denom, space_max.
  destruct (Nat.ltb_spec 1 (inner_size_ self)); [left|right]; auto.
Qed.

Lemma forward_generic_footprint (m m' : mem data_t) b :
  execute_forward_generic self data_d m = Some (tt, m') ->
  b <> Dst -> b <> Stack ->
  (b = Scratch -> inner_size_ self <= 1) ->
  m' b = m b.
Proof.
  intros Hrun HD HS Hscr. unfold execute_forward_generic in Hrun.
  cbv zeta in Hrun.
  assert (P : preserves
                (for_loop 0 (outer_size_ self)
                   (fun ou (_ : unit) => forward_generic_group self data_d ou)
                   tt) b).
  { apply preserves_for_loop. intros ou _.
    destruct space_blocks as [(H1 & E1 & E2)|(H1 & E1 & E2)];
      apply preserves_forward_generic_group; auto;
      rewrite ?E1, ?E2; auto.
    - intros ->. specialize (Hscr eq_refl). lia.
    - intros ->. specialize (Hscr eq_refl). lia. }
  rewrite (P _ _ _ Hrun). now apply set_block_ne.
Qed.

Lemma preserves_backward_dense b :
  b <> DiffSrc -> preserves (execute_backward_dense self) b.
Proof.
  intros Hb. unfold execute_backward_dense. cbv zeta.
  repeat preserves_step.
Qed.

Lemma preserves_backward_generic b :
  b <> DiffSrc -> preserves (execute_backward_generic self data_d diff_d) b.
Proof.
  intros Hb. unfold execute_backward_generic. cbv zeta.
  repeat preserves_step.
Qed.

End KernelFootprints.

(** X19.  What the four kernels never write, with no assumption on
    sizes, layouts or buffers: whenever a kernel returns, the dense
    forward kernel has changed no buffer but [dst]; the generic forward
    kernel none but [dst] and its reduction space, which is the
    scratchpad only when [inner_size > 1] (the scratchpad is untouched
    otherwise); the two backward kernels none but [diff_src]. *)
Theorem kernels_write_only_their_output :
  forall (data_t : Type) (ops : DataOps data_t) (flags : build_flags)
         (self : softmax_t) (data_d diff_d : memory_desc_wrapper)
         (m m' : mem data_t),
    (execute_forward_dense flags self m = Some (tt, m') ->
     forall b, b <> Dst -> m' b = m b) /\
    (execute_forward_generic self data_d m = Some (tt, m') ->
     forall b, b <> Dst -> b <> Stack ->
               (b = Scratch -> inner_size_ self <= 1) -> m' b = m b) /\
    (execute_backward_dense self m = Some (tt, m') ->
     forall b, b <> DiffSrc -> m' b = m b) /\
    (execute_backward_generic self data_d diff_d m = Some (tt, m') ->
     forall b, b <> DiffSrc -> m' b = m b).
Proof.
  intros data_t ops flags self data_d diff_d m m'.
  split; [|split; [|split]].
  - intros H b Hb. exact (preserves_forward_dense flags self b Hb _ _ _ H).
  - intros H b HD HS Hscr.
    exact (forward_generic_footprint self data_d m m' b H HD HS Hscr).
  - intros H b Hb. exact (preserves_backward_dense self b Hb _ _ _ H).
  - intros H b Hb.
    exact (preserves_backward_generic self data_d diff_d b Hb _ _ _ H).
Qed.

(** The witness of the footprint theorem: a run of the dense forward
    kernel on a 1 x 2 tensor. *)
Lemma kernels_write_only_their_output_witness :
  let flags := {| USE_CBLAS := false; USE_MKL := false;
                 REDUCTION_ORDER := in_order |} in
  let self := {| outer_size_ := 1; channels_ := 2; inner_size_ := 1 |} in
  let m := fwd_mem [1%R; 2%R] [0%R; 0%R] in
  exists m',
    execute_forward_dense flags self m = Some (tt, m') /\
    forall b, b <> Dst -> m' b = m b.
Proof.
  intros flags self m.
  destruct (dense_forward_slices R R_ops flags self m 0)
    as (m' & Hrun & _); try (simpl; lia).
  exists m'. split; [exact Hrun|].
  exact (proj1 (kernels_write_only_their_output R R_ops flags self
                  {| off_l := fun k => k |} {| off_l := fun k => k |} m m')
               Hrun).
Defined.

(** X20.  In exact arithmetic, adding one scalar to every source value
    of a column (one outer group and inner index, over the channel
    axis) leaves that column of the generic forward result unchanged,
    for every layout: the finite seed [-FLT_MAX] of the maximum does
    not matter there. *)
Theorem execute_forward_generic_shift_invariant :
  forall (self : softmax_t) (data_d : memory_desc_wrapper) (m1 m2 : mem R)
         (ou i : nat) (c : R),
    1 <= channels_ self ->
    (1 < inner_size_ self -> 2 * inner_size_ self <= length (m1 Scratch)) ->
    (1 < inner_size_ self -> 2 * inner_size_ self <= length (m2 Scratch)) ->
    layout_ok self data_d (length (m1 Src)) ->
    layout_ok self data_d (length (m1 Dst)) ->
    layout_ok self data_d (length (m2 Src)) ->
    layout_ok self data_d (length (m2 Dst)) ->
    ou < outer_size_ self -> i < inner_size_ self ->
    column self data_d (m2 Src) ou i
    = map (fun x => (x + c)%R) (column self data_d (m1 Src) ou i) ->
    exists m1' m2',
      execute_forward_generic self data_d m1 = Some (tt, m1') /\
      execute_forward_generic self data_d m2 = Some (tt, m2') /\
      column self data_d (m2' Dst) ou i = column self data_d (m1' Dst) ou i.
Proof.
  intros self data_d m1 m2 ou i c Hn Hc1 Hc2 HS1 HD1 HS2 HD2 Hou Hi Hshift.
  destruct (generic_forward_R self data_d m1 ou i Hn Hc1 HS1 HD1 Hou Hi)
    as (m1' & Hr1 & Hne1 & E1).
  destruct (generic_forward_R self data_d m2 ou i Hn Hc2 HS2 HD2 Hou Hi)
    as (m2' & Hr2 & Hne2 & E2).
  exists m1', m2'. split; [exact Hr1|]. split; [exact Hr2|].
  cbv zeta in *. rewrite E1, E2, Hshift, map_map.
  apply map_ext. intros x.
  rewrite <- (softmax_R_shift (- c) x Hne1).
  unfold softmax_R. rewrite map_map.
  replace (x - - c)%R with (x + c)%R by lra.
  f_equal. f_equal. apply map_ext. intros y. f_equal. lra.
Qed.

(** The theorem on a 1 x 2 x 1 tensor: [[1, 2]] and [[11, 12]]. *)
Lemma execute_forward_generic_shift_invariant_witness :
  let self := {| outer_size_ := 1; channels_ := 2; inner_size_ := 1 |} in
  let d := {| off_l := fun k => k |} in
  let m1 := fwd_mem [1%R; 2%R] [0%R; 0%R] in
  let m2 := fwd_mem [(1 + 10)%R; (2 + 10)%R] [0%R; 0%R] in
  exists m1' m2',
    execute_forward_generic self d m1 = Some (tt, m1') /\
    execute_forward_generic self d m2 = Some (tt, m2') /\
    column self d (m2' Dst) 0 0 = column self d (m1' Dst) 0 0.
Proof.
  intros self d m1 m2.
  assert (HL : layout_ok self d 2).
  { split; cbv zeta; simpl; intros; lia. }
  apply (execute_forward_generic_shift_invariant self d m1 m2 0 0 10%R);
    try exact HL; try (simpl; lia); try (intros; simpl in *; lia).
  reflexivity.
Defined.



(** X22.  In exact real arithmetic, for every input and every
    (outer, inner) pair with at least one channel, the outputs of the
    forward kernels, dense and generic, sum to one over the channel axis
    and each lies in the interval (0, 1]. *)
Theorem forward_normalized_exact :
  (forall (flags : build_flags) (self : softmax_t) (m : mem R) (ou : nat),
     1 <= channels_ self ->
     outer_size_ self * channels_ self <= length (m Src) ->
     outer_size_ self * channels_ self <= length (m Dst) ->
     ou < outer_size_ self ->
     exists m',
       execute_forward_dense flags self m = Some (tt, m') /\
       let ys := slice (m' Dst) (ou * channels_ self) (channels_ self) in
       Rsum ys = 1%R /\ forall y, In y ys -> (0 < y <= 1)%R) /\
  (forall (self : softmax_t) (data_d : memory_desc_wrapper) (m : mem R)
          (ou i : nat),
     1 <= channels_ self ->
     (1 < inner_size_ self -> 2 * inner_size_ self <= length (m Scratch)) ->
     layout_ok self data_d (length (m Src)) ->
     layout_ok self data_d (length (m Dst)) ->
     ou < outer_size_ self -> i < inner_size_ self ->
     exists m',
       execute_forward_generic self data_d m = Some (tt, m') /\
       let ys := column self data_d (m' Dst) ou i in
       Rsum ys = 1%R /\ forall y, In y ys -> (0 < y <= 1)%R).
Proof.
  split.
  - intros flags self m ou Hn Hs Hd Hou.
    destruct (dense_forward_R flags self m ou Hn Hs Hd Hou)
      as (m' & Hrun & Hne & E).
    exists m'. split; [exact Hrun|]. cbv zeta. rewrite E.
    split; [now apply softmax_R_sum|].
    intros y Hy. apply in_map_iff in Hy. destruct Hy as (x & <- & Hx).
    now apply softmax_R_range.
  - intros self data_d m ou i Hn Hscr HlS HlD Hou Hi.
    destruct (generic_forward_R self data_d m ou i Hn Hscr HlS HlD Hou Hi)
      as (m' & Hrun & Hne & E).
    exists m'. split; [exact Hrun|]. cbv zeta. rewrite E.
    split; [now apply softmax_R_sum|].
    intros y Hy. apply in_map_iff in Hy. destruct Hy as (x & <- & Hx).
    now apply softmax_R_range.
Qed.

(** The dense part at a concrete store: one group of two channels. *)
Lemma forward_normalized_exact_witness :
  let flags := {| USE_CBLAS := false; USE_MKL := false;
                 REDUCTION_ORDER := in_order |} in
  let self := {| outer_size_ := 1; channels_ := 2; inner_size_ := 1 |} in
  let m := fwd_mem [1%R; 2%R] [0%R; 0%R] in
  (1 <= 2 /\ 1 * 2 <= 2 /\ 0 < 1) /\
  exists m',
    execute_forward_dense flags self m = Some (tt, m') /\
    Rsum (slice (m' Dst) 0 2) = 1%R.
Proof.
  intros flags self m. split; [lia|].
  destruct (proj1 forward_normalized_exact flags self m 0)
    as (m' & Hrun & Hsum & _); simpl; try lia.
  exists m'. split; [exact Hrun|exact Hsum].
Defined.

(** X23.  In exact real arithmetic, on a contiguous tensor with
    [inner_size == 1] and at least one channel, the dense and the
    generic forward kernels both run to their end and leave equal
    destination buffers, in every build: multiplying by [1/denom] and
    dividing by [denom] are the same real number. *)
Theorem forward_dense_generic_agree_exact :
  forall (flags : build_flags) (self : softmax_t)
         (data_d : memory_desc_wrapper) (m : mem R),
    inner_size_ self = 1 ->
    (forall k, off_l data_d k = k) ->
    1 <= channels_ self ->
    outer_size_ self * channels_ self <= length (m Src) ->
    outer_size_ self * channels_ self <= length (m Dst) ->
    exists md mg,
      execute_forward_dense flags self m = Some (tt, md) /\
      execute_forward_generic self data_d m = Some (tt, mg) /\
      md Dst = mg Dst.
Proof.
  intros flags self data_d m Hin Hid Hn Hs Hd.
  pose proof (execute_forward_dense_spec flags self m Hn Hs Hd) as H.
  apply runs_elim in H.
  destruct H as ([] & md & Hrd & _ & Ld & Hdd & Hfd).
  pose proof (@execute_forward_generic_spec R R_ops self data_d m) as H.
  apply runs_elim in H;
    [|rewrite Hin; lia|now apply layout_contiguous..].
  destruct H as ([] & mg & Hrg & _ & Lg & Hdg & Hfg).
  exists md, mg. split; [exact Hrd|]. split; [exact Hrg|].
  apply nth_error_ext. intros j.
  destruct (Nat.lt_ge_cases j (outer_size_ self * channels_ self))
    as [Hj|Hj].
  + set (C := channels_ self) in *.
    assert (HC : C <> 0) by lia.
    pose proof (Nat.div_mod_eq j C) as Ej.
    pose proof (Nat.mod_upper_bound j C HC) as Hc.
    assert (Hou : j / C < outer_size_ self).
    { apply Nat.Div0.div_lt_upper_bound. lia. }
    pose proof (group_end_le _ C _ Hou) as Hb.
    assert (Ej' : j = j / C * C + j mod C) by lia.
    destruct (column_contiguous R R_ops self data_d (m Src) (j / C)
                Hin Hid ltac:(fold C; lia)) as [Ecol Eat].
    fold C in Ecol, Eat.
    assert (Hne : slice (m Src) (j / C * C) C <> []).
    { intros E. apply (f_equal (@length R)) in E.
      rewrite length_slice in E by lia. simpl in E. lia. }
    rewrite (@nth_error_elt R R_ops (mg Dst) j) by lia.
    rewrite Ej' at 1 2.
    rewrite <- (@nth_error_slice R (md Dst) (j / C * C) C (j mod C))
      by exact Hc.
    rewrite (Hdd (j / C) Hou). fold C.
    rewrite (softmax_slice_R flags Hne), nth_error_map.
    rewrite (@nth_error_slice R) by exact Hc.
    rewrite (@nth_error_elt R R_ops (m Src) (j / C * C + j mod C))
      by lia.
    simpl option_map. f_equal.
    rewrite <- (Eat (j mod C)), (Hdg (j / C) (j mod C) 0)
      by (try rewrite Hin; lia).
    rewrite Ecol. rewrite (generic_out_R _ Hne). reflexivity.
  + rewrite (Hfd j Hj). symmetry. apply Hfg.
    intros ou c i Hou Hc Hi. rewrite Hin in Hi.
    assert (i = 0) by lia. subst i.
    destruct (column_contiguous R R_ops self data_d (m Src) ou
                Hin Hid) as [_ Eat].
    { pose proof (group_end_le _ (channels_ self) _ Hou). lia. }
    rewrite Eat.
    pose proof (group_end_le _ (channels_ self) _ Hou). lia.
Qed.

(** The theorem at a concrete store: one group of two channels. *)
Lemma forward_dense_generic_agree_exact_witness :
  let flags := {| USE_CBLAS := false; USE_MKL := false;
                 REDUCTION_ORDER := in_order |} in
  let self := {| outer_size_ := 1; channels_ := 2; inner_size_ := 1 |} in
  let d := {| off_l := fun k => k |} in
  let m := fwd_mem [1%R; 2%R] [0%R; 0%R] in
  (inner_size_ self = 1 /\ 1 <= 2 /\ 1 * 2 <= 2) /\
  exists md mg,
    execute_forward_dense flags self m = Some (tt, md) /\
    execute_forward_generic self d m = Some (tt, mg) /\
    md Dst = mg Dst.
Proof.
  intros flags self d m. split; [repeat split; lia|].
  apply (forward_dense_generic_agree_exact flags self d m);
    simpl; try lia; reflexivity.
Defined.

(** X24.  In exact arithmetic, adding one scalar [c] to every element of
    a channel slice leaves that slice of the dense forward result
    unchanged, in every build.  In any arithmetic, without
    [USE_CBLAS], the same holds for every map [sh] of the slice that
    preserves the comparison and the differences of its elements (as
    [x + c] does when it is computed exactly): the subtraction of the
    maximum cancels the shift. *)
Theorem forward_shift_invariant :
  (forall (flags : build_flags) (self : softmax_t) (m1 m2 : mem R)
          (ou : nat) (c : R),
     1 <= channels_ self ->
     outer_size_ self * channels_ self <= length (m1 Src) ->
     outer_size_ self * channels_ self <= length (m1 Dst) ->
     outer_size_ self * channels_ self <= length (m2 Src) ->
     outer_size_ self * channels_ self <= length (m2 Dst) ->
     ou < outer_size_ self ->
     slice (m2 Src) (ou * channels_ self) (channels_ self)
     = map (fun x => (x + c)%R)
           (slice (m1 Src) (ou * channels_ self) (channels_ self)) ->
     exists m1' m2',
       execute_forward_dense flags self m1 = Some (tt, m1') /\
       execute_forward_dense flags self m2 = Some (tt, m2') /\
       slice (m2' Dst) (ou * channels_ self) (channels_ self)
       = slice (m1' Dst) (ou * channels_ self) (channels_ self)) /\
  (forall (data_t : Type) (ops : DataOps data_t) (flags : build_flags)
          (self : softmax_t) (m1 m2 : mem data_t) (ou : nat)
          (sh : data_t -> data_t),
     USE_CBLAS flags = false ->
     1 <= channels_ self ->
     outer_size_ self * channels_ self <= length (m1 Src) ->
     outer_size_ self * channels_ self <= length (m1 Dst) ->
     outer_size_ self * channels_ self <= length (m2 Src) ->
     outer_size_ self * channels_ self <= length (m2 Dst) ->
     ou < outer_size_ self ->
     let xs := slice (m1 Src) (ou * channels_ self) (channels_ self) in
     slice (m2 Src) (ou * channels_ self) (channels_ self) = map sh xs ->
     (forall a b, In a xs -> In b xs -> d_ltb (sh a) (sh b) = d_ltb a b) ->
     (forall a b, In a xs -> In b xs -> d_sub (sh a) (sh b) = d_sub a b) ->
     exists m1' m2',
       execute_forward_dense flags self m1 = Some (tt, m1') /\
       execute_forward_dense flags self m2 = Some (tt, m2') /\
       slice (m2' Dst) (ou * channels_ self) (channels_ self)
       = slice (m1' Dst) (ou * channels_ self) (channels_ self)).
Proof.
  split.
  - intros flags self m1 m2 ou c Hn Hs1 Hd1 Hs2 Hd2 Hou Hshift.
    destruct (dense_forward_R flags self m1 ou Hn Hs1 Hd1 Hou)
      as (m1' & Hr1 & Hne1 & E1).
    destruct (dense_forward_R flags self m2 ou Hn Hs2 Hd2 Hou)
      as (m2' & Hr2 & Hne2 & E2).
    exists m1', m2'. split; [exact Hr1|]. split; [exact Hr2|].
    cbv zeta in *. rewrite E1, E2, Hshift, map_map.
    apply map_ext. intros x.
    rewrite <- (softmax_R_shift (- c) x Hne1).
    unfold softmax_R. rewrite map_map.
    replace (x - - c)%R with (x + c)%R by lra.
    f_equal. f_equal. apply map_ext. intros y. f_equal. lra.
  - intros data_t ops flags self m1 m2 ou sh Href Hn Hs1 Hd1 Hs2 Hd2 Hou
           xs Hshift Hlt Hsub.
    destruct (dense_forward_slices data_t ops flags self m1 ou
                Hn Hs1 Hd1 Hou) as (m1' & Hr1 & E1 & _).
    destruct (dense_forward_slices data_t ops flags self m2 ou
                Hn Hs2 Hd2 Hou) as (m2' & Hr2 & E2 & _).
    exists m1', m2'. split; [exact Hr1|]. split; [exact Hr2|].
    cbv zeta in *. rewrite E1, E2, Hshift. fold xs.
    apply softmax_slice_shift; try assumption.
    intros E. apply (f_equal (@length data_t)) in E. unfold xs in E.
    pose proof (group_end_le _ (channels_ self) _ Hou).
    rewrite length_slice in E by lia. simpl in E. lia.
Qed.

(** The theorem at a concrete pair of stores: [[1, 2]] and the same
    shifted by [10]. *)
Lemma forward_shift_invariant_witness :
  let flags := {| USE_CBLAS := false; USE_MKL := false;
                 REDUCTION_ORDER := in_order |} in
  let self := {| outer_size_ := 1; channels_ := 2; inner_size_ := 1 |} in
  let m1 := fwd_mem [1%R; 2%R] [0%R; 0%R] in
  let m2 := fwd_mem [(1 + 10)%R; (2 + 10)%R] [0%R; 0%R] in
  (1 <= 2 /\ 1 * 2 <= 2 /\ 0 < 1) /\
  exists m1' m2',
    execute_forward_dense flags self m1 = Some (tt, m1') /\
    execute_forward_dense flags self m2 = Some (tt, m2') /\
    slice (m2' Dst) 0 2 = slice (m1' Dst) 0 2.
Proof.
  intros flags self m1 m2. split; [lia|].
  apply (proj1 forward_shift_invariant flags self m1 m2 0 10%R);
    simpl; try lia; reflexivity.
Defined.
